(** * EV bet calculator: the aggregation and statistics pipeline of [src/main.py]

    A shallow embedding of the non-presentational logic of the program:
    row ingestion ([fetch_matchbet_data]), the odds / win-rate aggregation
    ([process_bets_to_cache]), the expected-value helpers ([fmt_ev],
    [fmt_wr]), the comparison verdict of [MainWindow.render_compare], the
    tournament name normaliser ([normalize_tournament_name]), the counters
    of the statistics view ([MainWindow.show_statistics_panel]), the list of
    sports ([MainWindow.get_sorted_sports]), the rows of the table
    ([MainWindow.fill_table], [MainWindow.update_ev_only],
    [SortableTableWidgetItem.__lt__]) and the inline comparison
    ([MainWindow.recompute_comparison_inline]).

    Modelling decisions, once for the whole file:
    - Text is [string] over the ASCII characters, the codes 0 to 127, and
      the statements about texts are statements about ASCII texts.  Python's
      [str] is Unicode: [str.isspace], [str.lower], [str.upper], [float] and
      the classes [\s], [\d] and [\w] are modelled for ASCII characters
      only; Python counts characters beyond ASCII as whitespace (U+0085 and
      U+00A0 among them), letters or digits, and the model does not cover
      texts that hold one.
    - A Python [float] is an IEEE-754 binary64 value, carried by the Standard
      Library's [spec_float].  Every arithmetic operation is "the exact result,
      rounded to nearest, ties to even" ([round_ratio]).
    - A Python [dict] is an association list in insertion order; key lookup
      uses Python's [==] on the keys, so a NaN computed anew is never found.
    - [sorted] is [py_sorted], the algorithm of [list.sort] for lists of
      fewer than 64 elements.  Longer lists are sorted by merging runs, with
      the same result whenever [<] orders the keys totally, as it does for
      integers and for floats without a NaN.
    - [None] is [option]'s [None]. *)

From Stdlib Require Import ZArith Lia List String Ascii Bool Arith.
From Stdlib Require Import Permutation Sorted SpecFloat.
Import ListNotations.

Open Scope string_scope.
Open Scope Z_scope.

(* ================================================================= *)
(** ** Characters and strings *)

Definition code (c : ascii) : Z := Z.of_nat (nat_of_ascii c).

(** [str.isspace] on ASCII: TAB, LF, VT, FF, CR, FS, GS, RS, US and space.
    Beyond ASCII Python has further whitespace, U+0085 and U+00A0 among it,
    which the model does not cover. *)
Definition is_space (c : ascii) : bool :=
  let n := code c in
  ((9 <=? n) && (n <=? 13)) || ((28 <=? n) && (n <=? 32)).

Definition is_digit (c : ascii) : bool :=
  let n := code c in (48 <=? n) && (n <=? 57).

Definition is_upper (c : ascii) : bool :=
  let n := code c in (65 <=? n) && (n <=? 90).

Definition is_lower (c : ascii) : bool :=
  let n := code c in (97 <=? n) && (n <=? 122).

(** [\w] on ASCII: letters, digits and the underscore. *)
Definition is_word (c : ascii) : bool :=
  is_digit c || is_upper c || is_lower c || (code c =? 95).

Definition lower_char (c : ascii) : ascii :=
  if is_upper c then ascii_of_nat (nat_of_ascii c + 32) else c.

Definition upper_char (c : ascii) : ascii :=
  if is_lower c then ascii_of_nat (nat_of_ascii c - 32) else c.

Fixpoint map_string (f : ascii -> ascii) (s : string) : string :=
  match s with
  | EmptyString => EmptyString
  | String c t => String (f c) (map_string f t)
  end.

(** [str.lower] and [str.upper]. *)
Definition lower (s : string) : string := map_string lower_char s.
Definition upper (s : string) : string := map_string upper_char s.

Fixpoint rev_string_onto (s acc : string) : string :=
  match s with
  | EmptyString => acc
  | String c t => rev_string_onto t (String c acc)
  end.

Definition rev_string (s : string) : string := rev_string_onto s EmptyString.

Fixpoint lstrip_with (p : ascii -> bool) (s : string) : string :=
  match s with
  | EmptyString => EmptyString
  | String c t => if p c then lstrip_with p t else s
  end.

Definition strip_with (p : ascii -> bool) (s : string) : string :=
  rev_string (lstrip_with p (rev_string (lstrip_with p s))).

(** [s.strip()]: surrounding whitespace removed. *)
Definition strip (s : string) : string := strip_with is_space s.

(** [not s] for a string. *)
Definition is_empty (s : string) : bool :=
  match s with EmptyString => true | _ => false end.

(** [sub in s]. *)
Fixpoint contains (sub s : string) : bool :=
  if prefix sub s then true
  else match s with
       | EmptyString => false
       | String _ t => contains sub t
       end.

Fixpoint drop_string (n : nat) (s : string) : string :=
  match n, s with
  | O, _ => s
  | S k, String _ t => drop_string k t
  | S _, EmptyString => EmptyString
  end.

(** [s.replace(old, new)] for a non-empty [old]: every occurrence, scanning
    from the left, occurrences not overlapping.  [fuel] bounds the number of
    positions visited. *)
Fixpoint replace_fuel (fuel : nat) (old new s : string) : string :=
  match fuel with
  | O => s
  | S f =>
      if prefix old s then new ++ replace_fuel f old new (drop_string (length old) s)
      else match s with
           | EmptyString => EmptyString
           | String c t => String c (replace_fuel f old new t)
           end
  end.

Definition replace (old new s : string) : string :=
  replace_fuel (S (length s)) old new s.

(** [s.split(sep)[0]]: the text before the first occurrence of [sep]. *)
Fixpoint before_first (sep s : string) : string :=
  if prefix sep s then EmptyString
  else match s with
       | EmptyString => EmptyString
       | String c t => String c (before_first sep t)
       end.

(* ================================================================= *)
(** ** Floats: IEEE-754 binary64 *)

Definition float := spec_float.

Definition f_nan : float := S754_nan.
Definition f_zero : float := S754_zero false.
Definition f_one : float := S754_finite false 4503599627370496 (-52).
Definition f_hundred : float := S754_finite false 7036874417766400 (-46).

(** The rational [n / d] divided by [2 ^ e], as a numerator and a
    denominator. *)
Definition num_at (e n : Z) : Z := if e <? 0 then n * 2 ^ (- e) else n.
Definition den_at (e d : Z) : Z := if e <? 0 then d else d * 2 ^ e.

(** Integer quotient of [n / d], rounded to nearest, ties to even. *)
Definition div_half_even (n d : Z) : Z :=
  let q := n / d in
  let r := n mod d in
  if (d <? 2 * r) || ((2 * r =? d) && Z.odd q) then q + 1 else q.

(** The binary64 value nearest to [n / d] (for [0 <= n], [0 < d]), ties to
    even, carrying sign [s]; overflow gives an infinity, underflow is
    gradual down to a signed zero.  Counted in units of [2 ^ -1074], the
    least positive float, the value is [n * 2 ^ 1074 / d]; it is rounded to
    a multiple of [2 ^ sh], where [sh] leaves 53 bits to its integer part. *)
Definition round_ratio (s : bool) (n d : Z) : float :=
  if n <=? 0 then S754_zero s
  else
    let n0 := n * 2 ^ 1074 in
    let sh := Z.max (Z.log2 (n0 / d) - 52) 0 in
    let q := div_half_even n0 (d * 2 ^ sh) in
    if q =? 0 then S754_zero s
    else
      let m := if q =? 2 ^ 53 then 2 ^ 52 else q in
      let sh' := if q =? 2 ^ 53 then sh + 1 else sh in
      if 2045 <? sh' then S754_infinity s
      else S754_finite s (Z.to_pos m) (sh' - 1074).

(** The binary64 value nearest to [m * 2 ^ e]. *)
Definition round_dyadic (s : bool) (m e : Z) : float :=
  round_ratio s (num_at (- e) m) (den_at (- e) 1).

(** [x * y]. *)
Definition fmul (x y : float) : float :=
  match x, y with
  | S754_nan, _ | _, S754_nan => S754_nan
  | S754_infinity _, S754_zero _ | S754_zero _, S754_infinity _ => S754_nan
  | S754_infinity sx, S754_infinity sy
  | S754_infinity sx, S754_finite sy _ _
  | S754_finite sx _ _, S754_infinity sy => S754_infinity (xorb sx sy)
  | S754_zero sx, S754_zero sy
  | S754_zero sx, S754_finite sy _ _
  | S754_finite sx _ _, S754_zero sy => S754_zero (xorb sx sy)
  | S754_finite sx mx ex, S754_finite sy my ey =>
      round_dyadic (xorb sx sy) (Zpos mx * Zpos my) (ex + ey)
  end.

Definition signed (s : bool) (m : Z) : Z := if s then - m else m.

(** [x - y]. *)
Definition fsub (x y : float) : float :=
  match x, y with
  | S754_nan, _ | _, S754_nan => S754_nan
  | S754_infinity sx, S754_infinity sy =>
      if Bool.eqb sx sy then S754_nan else S754_infinity sx
  | S754_infinity sx, _ => S754_infinity sx
  | _, S754_infinity sy => S754_infinity (negb sy)
  | S754_zero sx, S754_zero sy =>
      if Bool.eqb sx (negb sy) then S754_zero sx else S754_zero false
  | S754_zero _, S754_finite sy my ey => S754_finite (negb sy) my ey
  | S754_finite _ _ _, S754_zero _ => x
  | S754_finite sx mx ex, S754_finite sy my ey =>
      let ez := Z.min ex ey in
      let v := signed sx (Zpos mx * 2 ^ (ex - ez))
               - signed sy (Zpos my * 2 ^ (ey - ez)) in
      if v =? 0 then S754_zero false
      else round_dyadic (v <? 0) (Z.abs v) ez
  end.

(** [x < y], [x <= y], [x == y] and [x > y] on floats. *)
Definition flt (x y : float) : bool := SFltb x y.
Definition fle (x y : float) : bool := SFleb x y.
Definition feq (x y : float) : bool := SFeqb x y.
Definition fgt (x y : float) : bool := SFltb y x.

(** [a / b] on Python integers ([0 <= a], [0 < b]): true division, correctly
    rounded. *)
Definition int_true_div (a b : Z) : float := round_ratio false a b.

(** [round(x, 4)] on a float: the decimal with four fractional digits nearest
    to [x] (ties to even on the exact binary value), converted back to the
    nearest float; non-finite values and zeros round to themselves.  [None]
    is the [OverflowError] raised when the decimal does not fit a float. *)
Definition py_round4 (x : float) : option float :=
  match x with
  | S754_finite s m e =>
      let n := div_half_even (num_at (- e) (Zpos m * 10000)) (den_at (- e) 1) in
      match round_ratio s n 10000 with
      | S754_infinity _ => None
      | r => Some r
      end
  | _ => Some x
  end.

(** [round_odds_key(v)] for a float [v]: [float(v)] is [v] itself, and any
    exception of [round] is turned into [None]. *)
Definition round_odds_key (v : float) : option float := py_round4 v.

(* ----------------------------------------------------------------- *)
(** *** [float(text)] *)

(** Whitespace that [float] itself trims around an ASCII text: TAB, LF, VT,
    FF, CR and space. *)
Definition is_cspace (c : ascii) : bool :=
  let n := code c in ((9 <=? n) && (n <=? 13)) || (n =? 32).

Definition is_underscore (c : ascii) : bool := code c =? 95.

(** Digit separators: an underscore is accepted only between two digits,
    and is dropped.  [prev] is the character before [s]. *)
Fixpoint strip_underscores (prev : ascii) (s : string) : option string :=
  match s with
  | EmptyString => if is_underscore prev then None else Some EmptyString
  | String c t =>
      if is_underscore c then
        if is_digit prev then strip_underscores c t else None
      else if is_underscore prev && negb (is_digit c) then None
      else option_map (String c) (strip_underscores c t)
  end.

Definition parse_sign (s : string) : bool * string :=
  match s with
  | String c t =>
      if code c =? 45 then (true, t)
      else if code c =? 43 then (false, t)
      else (false, s)
  | EmptyString => (false, s)
  end.

(** Leading decimal digits of [s], accumulated onto [acc]; [cnt] counts
    them. *)
Fixpoint take_digits (s : string) (acc cnt : Z) : Z * Z * string :=
  match s with
  | String c t =>
      if is_digit c then take_digits t (10 * acc + (code c - 48)) (cnt + 1)
      else (acc, cnt, s)
  | EmptyString => (acc, cnt, s)
  end.

(** An unsigned decimal literal [digits [. digits] [e [sign] digits]] with
    at least one digit in the mantissa, as (mantissa, power of ten). *)
Definition parse_number (s : string) : option (Z * Z) :=
  let '(ip, ni, r1) := take_digits s 0 0 in
  let '(m, nf, r2) :=
    match r1 with
    | String c t => if code c =? 46 then take_digits t ip 0 else (ip, 0, r1)
    | EmptyString => (ip, 0, r1)
    end in
  if ni + nf =? 0 then None
  else
    match r2 with
    | EmptyString => Some (m, - nf)
    | String c t =>
        if (code c =? 101) || (code c =? 69) then
          let '(se, r3) := parse_sign t in
          let '(ex, ne, r4) := take_digits r3 0 0 in
          if (ne =? 0) || negb (is_empty r4) then None
          else Some (m, signed se ex - nf)
        else None
    end.

(** [float(s)] for a text [s]; [None] is [ValueError]. *)
Definition py_float (s : string) : option float :=
  match strip_underscores zero s with
  | None => None
  | Some u =>
      let '(sg, r) := parse_sign (strip_with is_cspace u) in
      match parse_number r with
      | Some (m, e10) =>
          Some (if 0 <=? e10 then round_ratio sg (m * 10 ^ e10) 1
                else round_ratio sg m (10 ^ (- e10)))
      | None =>
          let l := lower r in
          if (l =? "inf")%string || (l =? "infinity")%string
          then Some (S754_infinity sg)
          else if (l =? "nan")%string then Some S754_nan
          else None
      end
  end.

(* ----------------------------------------------------------------- *)
(** *** [format(x, ".pf")] and [str(n)] *)

Definition digit_char (d : Z) : ascii := ascii_of_nat (Z.to_nat (48 + d)).

(** The decimal digits of [n], most significant first, put before [acc]. *)
Fixpoint digits_fuel (fuel : nat) (n : Z) (acc : string) : string :=
  match fuel with
  | O => acc
  | S f =>
      let acc' := String (digit_char (n mod 10)) acc in
      if n <? 10 then acc' else digits_fuel f (n / 10) acc'
  end.

(** [str(n)] for [0 <= n]. *)
Definition str_of_Z (n : Z) : string :=
  digits_fuel (S (Z.to_nat (Z.log2 n))) n EmptyString.

(** Exactly [p] decimal digits: [n mod 10 ^ p], zero-padded. *)
Fixpoint fixed_digits (p : nat) (n : Z) (acc : string) : string :=
  match p with
  | O => acc
  | S k => fixed_digits k (n / 10) (String (digit_char (n mod 10)) acc)
  end.

Definition sign_str (s : bool) : string := if s then "-" else "".

(** [f"{x:.pf}"]: fixed notation with [p] fractional digits, the exact binary
    value rounded to nearest, ties to even; a minus sign whenever the sign
    bit is set, never a plus sign. *)
Definition format_f (p : nat) (x : float) : string :=
  match x with
  | S754_nan => "nan"
  | S754_infinity s => sign_str s ++ "inf"
  | S754_zero s => sign_str s ++ "0." ++ fixed_digits p 0 EmptyString
  | S754_finite s m e =>
      let scale := 10 ^ Z.of_nat p in
      let n := div_half_even (num_at (- e) (Zpos m * scale)) (den_at (- e) 1) in
      sign_str s ++ str_of_Z (n / scale) ++ "." ++ fixed_digits p n EmptyString
  end.

(* ================================================================= *)
(** ** Regular expressions: the fragment of [re] the program uses *)

(** Patterns are matched by backtracking, leftmost alternative and longest
    repetition first, as [re] does.  A position in the subject is a pair:
    the text before it, nearest character first, and the text after it. *)
Inductive regex : Type :=
| Eps
| Chr (p : ascii -> bool)
| Seq (r1 r2 : regex)
| Alt (r1 r2 : regex)
| Star (r : regex)
| WordB
| NotAtStart
| NotBehind (n : nat) (r : regex).

Definition word_before (bef : string) : bool :=
  match bef with String c _ => is_word c | EmptyString => false end.

(** [n] characters back from a position, when there are that many. *)
Fixpoint step_back (n : nat) (bef rest : string) : option (string * string) :=
  match n, bef with
  | O, _ => Some (bef, rest)
  | S k, String c b => step_back k b (String c rest)
  | S _, EmptyString => None
  end.

(** [rmatch r bef rest k]: match [r] at the position, then continue with
    [k]; the first success in backtracking order. *)
Fixpoint rmatch (r : regex) (bef rest : string)
    (k : string -> string -> option (string * string))
    {struct r} : option (string * string) :=
  match r with
  | Eps => k bef rest
  | Chr p =>
      match rest with
      | String c t => if p c then k (String c bef) t else None
      | EmptyString => None
      end
  | Seq r1 r2 => rmatch r1 bef rest (fun b s => rmatch r2 b s k)
  | Alt r1 r2 =>
      match rmatch r1 bef rest k with
      | Some x => Some x
      | None => rmatch r2 bef rest k
      end
  | Star r1 =>
      (fix star (fuel : nat) (b s : string) {struct fuel} :=
         match fuel with
         | O => k b s
         | S f =>
             match rmatch r1 b s
                     (fun b' s' =>
                        if (length s' <? length s)%nat then star f b' s'
                        else None) with
             | Some x => Some x
             | None => k b s
             end
         end) (length rest) bef rest
  | WordB => if xorb (word_before bef) (word_before rest) then k bef rest else None
  | NotAtStart => if is_empty bef then None else k bef rest
  | NotBehind n r1 =>
      match step_back n bef rest with
      | None => k bef rest
      | Some (b0, s0) =>
          match rmatch r1 b0 s0
                  (fun b' s' =>
                     if (length s' =? length rest)%nat then Some (b', s')
                     else None) with
          | Some _ => None
          | None => k bef rest
          end
      end
  end.

(** [re.sub(r, repl, s)] for a pattern that matches no empty text: the
    matches are found from the left, each search starting where the previous
    match ended; [bef] is the subject already scanned. *)
Fixpoint sub_fuel (fuel : nat) (r : regex) (repl bef rest : string) : string :=
  match fuel with
  | O => rest
  | S f =>
      let skip :=
        match rest with
        | EmptyString => EmptyString
        | String c t => String c (sub_fuel f r repl (String c bef) t)
        end in
      match rmatch r bef rest (fun b s => Some (b, s)) with
      | Some (b', s') =>
          if (length s' <? length rest)%nat
          then repl ++ sub_fuel f r repl b' s'
          else skip
      | None => skip
      end
  end.

Definition re_sub (r : regex) (repl s : string) : string :=
  sub_fuel (S (length s)) r repl EmptyString s.

(** Pattern constructors.  Literals ignore case, as every literal of the
    program is used under [re.IGNORECASE] or has no letters. *)
Definition ch (a : ascii) : regex :=
  Chr (fun c => Ascii.eqb (lower_char c) (lower_char a)).

Fixpoint lit (s : string) : regex :=
  match s with
  | EmptyString => Eps
  | String a t => Seq (ch a) (lit t)
  end.

Definition plus (r : regex) : regex := Seq r (Star r).
Definition opt (r : regex) : regex := Alt r Eps.

Fixpoint seqs (l : list regex) : regex :=
  match l with
  | [] => Eps
  | r :: t => Seq r (seqs t)
  end.

Fixpoint alts (l : list regex) : regex :=
  match l with
  | [] => Chr (fun _ => false)
  | [r] => r
  | r :: t => Alt r (alts t)
  end.

Definition words (l : list string) : regex := alts (map lit l).

Definition sp : regex := Chr is_space.                     (* \s *)
Definition dg : regex := Chr is_digit.                     (* \d *)
Definition alnum : regex :=                                (* [A-Za-z0-9] *)
  Chr (fun c => is_digit c || is_upper c || is_lower c).
Definition letter : regex :=                               (* [A-Z], ignoring case *)
  Chr (fun c => is_upper c || is_lower c).

(** [\b(19|20)\d{2}\b] *)
Definition year_re : regex :=
  seqs [WordB; words ["19"; "20"]; dg; dg; WordB].

(** The list [patterns] of [normalize_tournament_name], in its order. *)
Definition patterns : list regex :=
  [ seqs [WordB; lit "Season"; plus sp; plus dg; WordB];
    seqs [WordB; lit "Series"; plus sp; plus dg; WordB];
    seqs [WordB; lit "Vol"; opt (ch "."); Star sp; plus dg; WordB];
    seqs [WordB; lit "Part"; plus sp; plus dg; WordB];
    seqs [WordB; lit "Stage"; plus sp; plus dg; WordB];
    seqs [WordB; lit "Phase"; plus sp; plus dg; WordB];
    seqs [WordB; lit "Split"; plus sp; plus dg; WordB];
    seqs [WordB; lit "Group"; plus sp; plus alnum; WordB];
    seqs [ch "#"; plus dg];
    seqs [WordB; lit "OS"; WordB];
    seqs [WordB; words ["Asia"; "Americas"; "Europe"]; plus sp; lit "RMR";
          opt (seqs [plus sp; letter]); WordB];
    seqs [WordB; lit "RMR"; WordB];
    seqs [WordB; lit "S"; plus dg; WordB];
    seqs [NotAtStart; WordB;
          words ["Europe"; "EU"; "NA"; "SA"; "Asia"; "Americas"; "Oceania";
                 "CIS"; "European"; "South American"; "North American";
                 "Pacific"; "APAC"];
          WordB];
    seqs [WordB; lit "LCQ"; WordB];
    seqs [WordB;
          alts [lit "Play-In"; lit "Global Finals"; lit "Contenders"; lit "CQ";
                seqs [lit "Final"; opt (ch "s")];
                seqs [lit "Group"; opt (ch "s")];
                seqs [lit "Playoff"; opt (ch "s")]];
          WordB];
    seqs [WordB; plus dg; opt (words ["st"; "nd"; "rd"; "th"]); plus sp;
          lit "Division"; WordB];
    seqs [WordB; lit "Division"; plus sp; plus dg; WordB];
    seqs [WordB; lit "Series"; WordB];
    seqs [NotAtStart; NotBehind 4 (seqs [WordB; lit "IEM"; sp]); WordB;
          words ["Atlanta"; "Katowice"; "Bangkok"; "Raleigh"; "Lisbon"];
          WordB];
    seqs [WordB; words ["Spring"; "Summer"; "Fall"; "Winter"]; WordB];
    seqs [WordB;
          words ["I"; "II"; "III"; "IV"; "V"; "VI"; "VII"; "VIII"; "IX"; "X"];
          WordB] ].

(** [\b\d{1,3}\b] *)
Definition number_re : regex :=
  seqs [WordB; dg; opt (seqs [dg; opt dg]); WordB].

(** [\s+] *)
Definition spaces_re : regex := plus sp.

Definition is_space_or_hyphen (c : ascii) : bool :=
  (code c =? 32) || (code c =? 45).

(** [normalize_tournament_name(name)]. *)
Definition normalize_tournament_name (name : string) : string :=
  if is_empty name then ""
  else
    let name := replace "StarLadder SS" "StarLadder StarSeries" name in
    let name := if contains "//" name then before_first "//" name else name in
    let name := if contains ": " name then before_first ": " name else name in
    let name := re_sub year_re "" name in
    let name := fold_left (fun n p => re_sub p "" n) patterns name in
    let name := re_sub number_re "" name in
    let name := re_sub spaces_re " " name in
    strip_with is_space_or_hyphen name.

(* ================================================================= *)
(** ** Python containers *)

Section Dict.

Context {K V : Type} (keq : K -> K -> bool).

(** [d.get(k)] *)
Fixpoint dict_get (k : K) (d : list (K * V)) : option V :=
  match d with
  | [] => None
  | (k', v) :: t => if keq k' k then Some v else dict_get k t
  end.

(** [k in d] *)
Definition dict_mem (k : K) (d : list (K * V)) : bool :=
  match dict_get k d with Some _ => true | None => false end.

(** [d[k] = v]: an existing key keeps its place (and its key object). *)
Fixpoint dict_set (k : K) (v : V) (d : list (K * V)) : list (K * V) :=
  match d with
  | [] => [(k, v)]
  | (k', v') :: t =>
      if keq k' k then (k', v) :: t else (k', v') :: dict_set k v t
  end.

(** [if k not in d: d[k] = dflt] followed by an in-place change [f] of
    [d[k]].  When no key of [d] equals [k] the new entry is appended and
    the change applies to it: the second access uses the very object that
    was just inserted, so it is found even when [k] is a NaN, which equals
    no key. *)
Fixpoint dict_upd (k : K) (dflt : V) (f : V -> V) (d : list (K * V))
  : list (K * V) :=
  match d with
  | [] => [(k, f dflt)]
  | (k', v) :: t =>
      if keq k' k then (k', f v) :: t else (k', v) :: dict_upd k dflt f t
  end.

(** Keys that are pairwise different for [keq], each against the later
    ones. *)
Definition keys_apart (d : list (K * V)) : Prop :=
  ForallOrdPairs (fun a b => keq (fst a) (fst b) = false) d.

End Dict.

Section Sorting.

Context {A : Type} (lt : A -> A -> bool).

(** [count_run] of [list.sort] on a strictly descending start: the run is
    extended while each element is below the one before it, and is held
    reversed, so in ascending order.  [acc] is the run so far, [prev] its
    last element. *)
Fixpoint run_desc (prev : A) (l acc : list A) : list A * list A :=
  match l with
  | x :: t => if lt x prev then run_desc x t (x :: acc) else (acc, l)
  | [] => (acc, [])
  end.

(** [count_run] on any other start: the run is extended until an element
    is below the one before it.  [racc] is the run so far, last element
    first. *)
Fixpoint run_asc (prev : A) (l racc : list A) : list A * list A :=
  match l with
  | x :: t => if lt x prev then (rev racc, l) else run_asc x t (x :: racc)
  | [] => (rev racc, [])
  end.

(** The first run of [l], in ascending order, and the elements after it. *)
Definition count_run (l : list A) : list A * list A :=
  match l with
  | a0 :: a1 :: t =>
      if lt a1 a0 then run_desc a1 t [a1; a0] else run_asc a1 t [a1; a0]
  | _ => (l, [])
  end.

(** The binary search of [binarysort]: the place of the pivot [x] among
    the sorted elements [l], between the positions [lo] and [hi]. *)
Fixpoint bisect (fuel : nat) (x : A) (l : list A) (lo hi : nat) : nat :=
  match fuel with
  | O => lo
  | S f =>
      if (lo <? hi)%nat then
        let p := (lo + (hi - lo) / 2)%nat in
        match nth_error l p with
        | Some y => if lt x y then bisect f x l lo p else bisect f x l (S p) hi
        | None => lo
        end
      else lo
  end.

Definition insert_at (k : nat) (x : A) (l : list A) : list A :=
  (firstn k l ++ x :: skipn k l)%list.

(** [binarysort]: the elements of [rest] are put one by one into the
    sorted elements before them. *)
Definition binarysort (run rest : list A) : list A :=
  fold_left
    (fun l x => insert_at (bisect (List.length l) x l 0 (List.length l)) x l)
    rest run.

(** [sorted(l)] with [lt] as the comparison [<] of the keys, by the
    algorithm of [list.sort] in CPython 3.11 for fewer than 64 elements: the
    first run is found and the other elements are put into it by binary
    insertion.  For 64 elements or more [list.sort] sorts runs in this way
    and merges them; whenever [<] orders the keys totally both give the one
    stable sorted list, and only with keys that [<] does not order (a NaN
    among them) can the merged result differ from this one. *)
Definition py_sorted (l : list A) : list A :=
  let '(run, rest) := count_run l in binarysort run rest.

End Sorting.

(* ================================================================= *)
(** ** Row ingestion *)

(** [MatchBetTuple]: (sport, tournament, matchup, bet, live_status, odds,
    result). *)
Record MatchBetTuple : Type := mkBet {
  mb_sport : string;
  mb_tournament : string;
  mb_matchup : string;
  mb_bet : string;
  mb_live_status : string;
  mb_odds : float;
  mb_result : string
}.

(** [r + [""] * (8 - len(r))] when [len(r) < 8]. *)
Definition pad_row (r : list string) : list string :=
  if (List.length r <? 8)%nat then (r ++ repeat "" (8 - List.length r))%list else r.

Definition cell (r : list string) (i : nat) : string := nth i r "".

(** The body of the loop of [fetch_matchbet_data] on one raw row: the record
    appended to [data], or [None] when the row is skipped. *)
Definition ingest_row (r0 : list string) : option MatchBetTuple :=
  let r := pad_row r0 in
  let sport := strip (cell r 0) in
  let tournament := strip (cell r 1) in
  let matchup := strip (cell r 2) in
  let bet := strip (cell r 3) in
  let live_status := strip (cell r 4) in
  let odds_s := strip (cell r 5) in
  let result := strip (cell r 7) in
  if is_empty sport then None
  else if is_empty result then None
  else
    match py_float (replace "," "." odds_s) with
    | None => None
    | Some odds =>
        Some (mkBet sport tournament matchup bet live_status odds result)
    end.

Fixpoint ingest_rows (raw : list (list string)) : list MatchBetTuple :=
  match raw with
  | [] => []
  | r :: t =>
      match ingest_row r with
      | Some b => b :: ingest_rows t
      | None => ingest_rows t
      end
  end.

(** [fetch_matchbet_data]: [raw] is what the worksheet returned, [None] when
    reading it raised. *)
Definition fetch_matchbet_data (raw : option (list (list string)))
  : list MatchBetTuple :=
  match raw with
  | Some rows => ingest_rows rows
  | None => []
  end.

(* ================================================================= *)
(** ** Aggregation by sport and odds *)

(** The counters ['lw'], ['lt'], ['pw'], ['pt'] of one bucket. *)
Record Stats : Type := mkStats {
  st_lw : Z;
  st_lt : Z;
  st_pw : Z;
  st_pt : Z
}.

Definition zero_stats : Stats := mkStats 0 0 0 0.

Definition is_live (live_status : string) : bool :=
  contains "LIVE" (upper live_status) && negb (contains "NOT" (upper live_status)).

Definition is_win (result : string) : bool :=
  (lower result =? "win")%string.

Definition bump (live win : bool) (s : Stats) : Stats :=
  let w := if win then 1 else 0 in
  if live then mkStats (st_lw s + w) (st_lt s + 1) (st_pw s) (st_pt s)
  else mkStats (st_lw s) (st_lt s) (st_pw s + w) (st_pt s + 1).

Definition Agg : Type := list (string * list (float * Stats)).

(** One iteration of the first loop of [process_bets_to_cache]. *)
Definition agg_step (agg : Agg) (b : MatchBetTuple) : Agg :=
  let sport := mb_sport b in
  let agg := if dict_mem String.eqb sport agg then agg
             else (agg ++ [(sport, [])])%list in
  match round_odds_key (mb_odds b) with
  | None => agg
  | Some k =>
      dict_upd String.eqb sport []
        (dict_upd feq k zero_stats
           (bump (is_live (mb_live_status b)) (is_win (mb_result b))))
        agg
  end.

Definition aggregate (bets : list MatchBetTuple) : Agg :=
  fold_left agg_step bets [].

(** [RowTuple]: (odds, live_wr, prematch_wr, live_bet_count,
    prematch_bet_count); the index holds the last four. *)
Definition IndexTuple : Type :=
  (option float * option float * option Z * option Z)%type.
Definition RowTuple : Type := (float * IndexTuple)%type.

Record SheetCacheEntry : Type := mkEntry {
  rows : list RowTuple;
  index : list (float * IndexTuple)
}.

Definition win_rate (w t : Z) : option float :=
  if 0 <? t then Some (int_true_div w t) else None.

Definition count_or_none (t : Z) : option Z :=
  if 0 <? t then Some t else None.

Definition index_tuple (stats : Stats) : IndexTuple :=
  (win_rate (st_lw stats) (st_lt stats),
   win_rate (st_pw stats) (st_pt stats),
   count_or_none (st_lt stats),
   count_or_none (st_pt stats)).

(** The keys in the order of [sorted(odds_map.keys())], each with the
    counters [odds_map[k]] of that key object.  The order is that of
    [py_sorted]: the one of [list.sort] for any keys when a sport has fewer
    than 64 of them, and for keys without a NaN always. *)
Definition sorted_buckets (odds_map : list (float * Stats))
  : list (float * Stats) :=
  py_sorted (fun a b => flt (fst a) (fst b)) odds_map.

(** The inner loop of the second part: [rows.append(tup)] and
    [index[k] = ...] for every key in sorted order. *)
Definition build_entry (odds_map : list (float * Stats)) : SheetCacheEntry :=
  fold_left
    (fun entry ks =>
       let k := fst ks in
       let tup := index_tuple (snd ks) in
       mkEntry (rows entry ++ [(k, tup)])%list (dict_set feq k tup (index entry)))
    (sorted_buckets odds_map)
    (mkEntry [] []).

Definition process_bets_to_cache (bets : list MatchBetTuple)
  : list (string * SheetCacheEntry) :=
  map (fun so => (fst so, build_entry (snd so))) (aggregate bets).

(* ================================================================= *)
(** ** Expected value and comparison *)

(** [f"{x*100:.2f}%"] *)
Definition percent (x : float) : string :=
  format_f 2 (fmul x f_hundred) ++ "%".

Definition fmt_wr (wr : option float) : string :=
  match wr with
  | None => "N/A"
  | Some w => percent w
  end.

Definition fmt_ev (wr odds : option float) : string * option float :=
  match wr, odds with
  | Some w, Some o =>
      let ev := fsub (fmul w o) f_one in
      (percent ev, Some ev)
  | _, _ => ("N/A", None)
  end.

(** The three outcomes of the score comparison of [render_compare]. *)
Inductive Verdict : Type := BetterA | BetterB | BothEqual.

Definition compare_scores (wr_a odds_a wr_b odds_b : float) : Verdict :=
  let score_a := fmul wr_a odds_a in
  let score_b := fmul wr_b odds_b in
  if fgt score_a score_b then BetterA
  else if fgt score_b score_a then BetterB
  else BothEqual.

Definition nl : string := String (ascii_of_nat 10) EmptyString.

(** [str(n)] for an integer. *)
Definition py_str (n : Z) : string :=
  if n <? 0 then "-" ++ str_of_Z (- n) else str_of_Z n.

Definition count_text (c : option Z) : string :=
  match c with
  | None => "N/A"
  | Some n => py_str n
  end.

Definition bet_line (odds ev wr : float) (cnt : string) : string :=
  "Bet " ++ format_f 2 odds ++ " EV: " ++ percent ev
  ++ " (WR: " ++ percent wr ++ ", Count: " ++ cnt ++ ")".

Definition only_one_note (odds : float) (c : option Z) : list string :=
  match c with
  | Some 1 => ["Note: Odds " ++ format_f 2 odds ++ " has only 1 count."]
  | _ => []
  end.

(** [MainWindow.render_compare]: the text put into the result label.  [None]
    is the [TypeError] raised when a win-rate is given without its EV. *)
Definition render_compare (odds_a odds_b : float)
    (wr_a wr_b ev_a ev_b : option float) (sport bet_type : string)
    (count_a count_b : option Z) : option string :=
  let label_type := if (bet_type =? "Live")%string then "Live" else "Prematch" in
  let one_missing missing_odds present_odds present_wr present_ev present_count :=
    match present_ev with
    | Some ev =>
        Some ("Odds " ++ format_f 2 missing_odds ++ " is missing "
              ++ label_type ++ " WR." ++ nl ++ nl
              ++ bet_line present_odds ev present_wr (count_text present_count))
    | None => None
    end in
  match wr_a, wr_b with
  | None, None =>
      Some ("Both odds are missing " ++ label_type ++ " WR data: "
            ++ format_f 2 odds_a ++ " and " ++ format_f 2 odds_b ++ ".")
  | None, Some w => one_missing odds_a odds_b w ev_b count_b
  | Some w, None => one_missing odds_b odds_a w ev_a count_a
  | Some wa, Some wb =>
      let better :=
        match compare_scores wa odds_a wb odds_b with
        | BetterA => "Bet " ++ format_f 2 odds_a ++ " is better"
        | BetterB => "Bet " ++ format_f 2 odds_b ++ " is better"
        | BothEqual => "Both bets are equal"
        end in
      match ev_a, ev_b with
      | Some ea, Some eb =>
          let txt :=
            better ++ " (" ++ bet_type ++ " - " ++ sport ++ ")" ++ nl ++ nl
            ++ bet_line odds_a ea wa (count_text count_a) ++ nl
            ++ bet_line odds_b eb wb (count_text count_b) in
          let notes :=
            (only_one_note odds_a count_a ++ only_one_note odds_b count_b)%list in
          Some (match notes with
                | [] => txt
                | _ => txt ++ nl ++ nl ++ String.concat " " notes
                end)
      | _, _ => None
      end
  end.

(* ================================================================= *)
(** ** Statistics view *)

(** [{'wins': w, 'total': t}] *)
Record Counter : Type := mkCounter {
  c_wins : Z;
  c_total : Z
}.

Definition StatsTree : Type := list (string * list (string * Counter)).

Definition count_bet (win : bool) (c : Counter) : Counter :=
  mkCounter (c_wins c + (if win then 1 else 0)) (c_total c + 1).

(** The sport name a record is grouped under. *)
Definition sport_alias (sport : string) : string :=
  if (sport =? "CStwo")%string then "CS2" else sport.

(** One iteration of the grouping loop of [show_statistics_panel]. *)
Definition stats_step (stats : StatsTree) (b : MatchBetTuple) : StatsTree :=
  if is_empty (mb_sport b) then stats
  else
    let sport := sport_alias (mb_sport b) in
    if is_empty (mb_tournament b) then stats
    else
      let norm_tourney := normalize_tournament_name (mb_tournament b) in
      if is_empty norm_tourney then stats
      else
        dict_upd String.eqb sport []
          (dict_upd String.eqb norm_tourney (mkCounter 0 0)
             (count_bet (is_win (mb_result b))))
          stats.

Definition collect_stats (data : list MatchBetTuple) : StatsTree :=
  fold_left stats_step data [].

Definition sum_Z (l : list Z) : Z := fold_left Z.add l 0.

(** [sport_totals[s]] for the tournaments of one sport. *)
Definition sport_total (tourneys : list (string * Counter)) : Counter :=
  mkCounter (sum_Z (map (fun t => c_wins (snd t)) tourneys))
            (sum_Z (map (fun t => c_total (snd t)) tourneys)).

(** [sorted(..., key=total, reverse=True)]: descending by [total], entries
    with equal totals in their original order.  The keys are integers, which
    [<] orders totally, so this is the one list every stable sort gives. *)
Definition sorted_desc {A : Type} (total : A -> Z) (l : list A) : list A :=
  py_sorted (fun x y => total y <? total x) l.

(** A node of the tree widget: its label, bet count and win count. *)
Definition Node : Type := (string * Z * Z)%type.

Definition node_of (name : string) (c : Counter) : Node :=
  (name, c_total c, c_wins c).

(** The third column of a node: [f"{wins / total * 100:.1f}%"], and
    ["0.0%"] for an empty node. *)
Definition winrate_text (n : Node) : string :=
  let '(_, total, wins) := n in
  (if 0 <? total
   then format_f 1 (fmul (int_true_div wins total) f_hundred)
   else format_f 1 f_zero) ++ "%".

(** The tree built by [show_statistics_panel]: the sport items in display
    order, each with its tournament items in display order. *)
Definition statistics_tree (data : list MatchBetTuple)
  : list (Node * list Node) :=
  let stats := collect_stats data in
  map (fun st =>
         (node_of (fst st) (sport_total (snd st)),
          map (fun t => node_of (fst t) (snd t))
              (sorted_desc (fun t => c_total (snd t)) (snd st))))
      (sorted_desc (fun st => c_total (sport_total (snd st))) stats).

(* ================================================================= *)
(** ** Sports list, table rows and inline comparison *)

(** [c or 0] for a count [c] that may be [None]. *)
Definition or_zero (c : option Z) : Z :=
  match c with Some n => n | None => 0 end.

(** [count_bets(sport)] of [MainWindow.get_sorted_sports]: over the rows of
    the sport's entry, the sum of [(r[3] or 0) + (r[4] or 0)].  The sports it
    is called on are keys of the cache; for any other text, where
    [self.data_cache[sport]] raises, the model gives 0. *)
Definition count_bets (data_cache : list (string * SheetCacheEntry))
    (sport : string) : Z :=
  match dict_get String.eqb sport data_cache with
  | Some entry =>
      fold_left
        (fun total r =>
           total + (or_zero (snd (fst (snd r))) + or_zero (snd (snd r))))
        (rows entry) 0
  | None => 0
  end.

(** [sorted(self.data_cache.keys(), key=count_bets, reverse=True)] *)
Definition get_sorted_sports (data_cache : list (string * SheetCacheEntry))
  : list string :=
  sorted_desc (count_bets data_cache) (map fst data_cache).

(** [-float('inf')] *)
Definition f_neg_inf : float := S754_infinity true.

(** [SortableTableWidgetItem.__lt__] on the sort values of two items. *)
Definition SortableTableWidgetItem_lt (v1 v2 : option float) : bool :=
  let v1 := match v1 with None => f_neg_inf | Some v => v end in
  let v2 := match v2 with None => f_neg_inf | Some v => v end in
  flt v1 v2.

(** The three foreground colours of a table row. *)
Inductive Color : Type := PositiveColor | NegativeColor | NeutralColor.

(** [bool(x)] for a float: any value other than a zero, NaN included. *)
Definition truthy (x : float) : bool := negb (feq x f_zero).

(** [neu if wr is None else pos if ev_val and ev_val>0 else neg] *)
Definition row_color (wr ev_val : option float) : Color :=
  match wr with
  | None => NeutralColor
  | Some _ =>
      match ev_val with
      | Some ev =>
          if truthy ev && fgt ev f_zero then PositiveColor else NegativeColor
      | None => NegativeColor
      end
  end.

(** A [SortableTableWidgetItem]: its text and its sort value. *)
Record TableItem : Type := mkItem {
  item_text : string;
  sort_value : option float
}.

(** A table row: the items of the four columns and their foreground. *)
Record TableRow : Type := mkRow {
  it_odds : TableItem;
  it_live : TableItem;
  it_prem : TableItem;
  it_ev : TableItem;
  foreground : Color
}.

(** The body of the loop of [MainWindow.fill_table] on one row. *)
Definition table_row (bet_type : string) (r : RowTuple) : TableRow :=
  let '(odds, (live_wr, prem_wr, _, _)) := r in
  let wr := if (bet_type =? "Live")%string then live_wr else prem_wr in
  let '(ev_str, ev_val) := fmt_ev wr (Some odds) in
  mkRow (mkItem (format_f 2 odds) (Some odds))
        (mkItem (fmt_wr live_wr) live_wr)
        (mkItem (fmt_wr prem_wr) prem_wr)
        (mkItem ev_str ev_val)
        (row_color wr ev_val).

(** [MainWindow.fill_table]: the rows in the order they are inserted, before
    the table widget sorts them by the column the user chose. *)
Definition fill_table (rows : list RowTuple) (bet_type : string)
  : list TableRow :=
  map (table_row bet_type) rows.

(** [s.rstrip(chars)] for the characters satisfying [p]. *)
Definition rstrip_with (p : ascii -> bool) (s : string) : string :=
  rev_string (lstrip_with p (rev_string s)).

Definition is_percent (c : ascii) : bool := code c =? 37.

(** [x / 100.0] *)
Definition fdiv_hundred (x : float) : float :=
  match x with
  | S754_finite s m e =>
      round_ratio s (num_at (- e) (Zpos m)) (den_at (- e) 100)
  | _ => x
  end.

(** [parse_cell] of [MainWindow.update_ev_only]: the win-rate read back
    from the text of a table cell.  The outer [None] is the [ValueError] of
    [float]. *)
Definition parse_cell (s : string) : option (option float) :=
  if (s =? "")%string || (s =? "N/A")%string then Some None
  else
    match py_float (rstrip_with is_percent s) with
    | Some x => Some (Some (fdiv_hundred x))
    | None => None
    end.

(** The body of the loop of [MainWindow.update_ev_only] on one table row,
    for the bet type [bt] now selected: the EV item and the foreground are
    recomputed from the texts of the other three items.  [None] is the
    [ValueError] of [float]. *)
Definition update_row (bt : string) (row : TableRow) : option TableRow :=
  match py_float (item_text (it_odds row)) with
  | None => None
  | Some odds =>
      match parse_cell (item_text (it_live row)) with
      | None => None
      | Some live_wr =>
          match parse_cell (item_text (it_prem row)) with
          | None => None
          | Some prem_wr =>
              let wr := if (bt =? "Live")%string then live_wr else prem_wr in
              let '(ev_str, ev_val) := fmt_ev wr (Some odds) in
              Some (mkRow (it_odds row) (it_live row) (it_prem row)
                      (mkItem ev_str ev_val) (row_color wr ev_val))
          end
      end
  end.

(** [MainWindow.update_ev_only] on the rows of the table, before the table
    widget sorts them again. *)
Fixpoint update_ev_only (bt : string) (table : list TableRow)
  : option (list TableRow) :=
  match table with
  | [] => Some []
  | row :: t =>
      match update_row bt row with
      | None => None
      | Some row' =>
          match update_ev_only bt t with
          | None => None
          | Some t' => Some (row' :: t')
          end
      end
  end.

(** [MainWindow.recompute_comparison_inline]: the text put into the result
    label, from the texts of the two entry fields, the bet type and sport
    selected and the index of the sport shown.  [None] stands for an
    exception escaping the method: the [KeyError] of [self.odds_index[k]] or
    the [TypeError] of [render_compare]. *)
Definition recompute_comparison_inline (text_a text_b bet_type sport : string)
    (odds_index : list (float * IndexTuple)) : option string :=
  match py_float (strip text_a), py_float (strip text_b) with
  | Some odds_a, Some odds_b =>
      let k_a := round_odds_key odds_a in
      let k_b := round_odds_key odds_b in
      let not_in k :=
        match k with
        | Some k => negb (dict_mem feq k odds_index)
        | None => true
        end in
      let item k :=
        match k with
        | Some k => dict_get feq k odds_index
        | None => None
        end in
      let live := (bet_type =? "Live")%string in
      let miss_a := not_in k_a in
      let miss_b := not_in k_b in
      if miss_a && miss_b then
        Some ("Both odds not found in data: " ++ format_f 2 odds_a ++ " and "
              ++ format_f 2 odds_b ++ ".")
      else if miss_a || miss_b then
        let pk := if miss_a then k_b else k_a in
        let po := if miss_a then odds_b else odds_a in
        match item pk with
        | Some (wr_live, wr_pre, live_cnt, prem_cnt) =>
            let wr_p := if live then wr_live else wr_pre in
            let cnt_p := if live then live_cnt else prem_cnt in
            match wr_p with
            | None =>
                Some ((if miss_a
                       then "Odd " ++ format_f 2 odds_a ++ " not found. "
                       else "Odd " ++ format_f 2 odds_b ++ " not found. ")
                      ++ "Odds " ++ format_f 2 po ++ " is in data but missing "
                      ++ bet_type ++ " WR.")
            | Some w =>
                let ev_p := fsub (fmul w po) f_one in
                let missing :=
                  if miss_a then "Odd " ++ format_f 2 odds_a ++ " not found."
                  else "Odd " ++ format_f 2 odds_b ++ " not found." in
                Some (missing ++ nl ++ nl
                      ++ bet_line po ev_p w (count_text cnt_p))
            end
        | None => None
        end
      else
        match item k_a, item k_b with
        | Some (wr_a_live, wr_a_pre, live_cnt_a, prem_cnt_a),
          Some (wr_b_live, wr_b_pre, live_cnt_b, prem_cnt_b) =>
            let wr_a := if live then wr_a_live else wr_a_pre in
            let wr_b := if live then wr_b_live else wr_b_pre in
            let ev_a := option_map (fun w => fsub (fmul w odds_a) f_one) wr_a in
            let ev_b := option_map (fun w => fsub (fmul w odds_b) f_one) wr_b in
            let cnt_a := if live then live_cnt_a else prem_cnt_a in
            let cnt_b := if live then live_cnt_b else prem_cnt_b in
            render_compare odds_a odds_b wr_a wr_b ev_a ev_b sport bet_type
              cnt_a cnt_b
        | _, _ => None
        end
  | _, _ => Some ""
  end.

(** [total_visible_bets] of [show_statistics_panel], the number in the
    "Total Bets" label: the sum of the totals of the sports. *)
Definition total_visible_bets (data : list MatchBetTuple) : Z :=
  sum_Z (map (fun st => c_total (sport_total (snd st))) (collect_stats data)).

(* ================================================================= *)
(** ** Vocabulary of the statements *)

(** The cells of a raw row that decide whether it is kept. *)
Definition sport_text (r : list string) : string := strip (cell (pad_row r) 0).
Definition result_text (r : list string) : string := strip (cell (pad_row r) 7).
Definition odds_text (r : list string) : string :=
  replace "," "." (strip (cell (pad_row r) 5)).

Definition kept (r : list string) : list MatchBetTuple :=
  match ingest_row r with Some b => [b] | None => [] end.

Definition is_nan (x : float) : bool :=
  match x with S754_nan => true | _ => false end.

(** Zeros and finite non-zero values. *)
Definition is_finite (x : float) : bool :=
  match x with S754_zero _ | S754_finite _ _ _ => true | _ => false end.

Definition sign_bit (x : float) : bool :=
  match x with
  | S754_zero s | S754_infinity s | S754_finite s _ _ => s
  | S754_nan => false
  end.

(** A finite number greater than zero. *)
Definition finite_positive (x : float) : bool :=
  match x with S754_finite false _ _ => true | _ => false end.

(** The values of the binary64 format: a mantissa below [2 ^ 53], an
    exponent between [-1074] and [971], and the mantissa normalised
    (at least [2 ^ 52]) unless the exponent is the least one. *)
Definition valid_float (x : float) : bool :=
  match x with
  | S754_finite _ m e =>
      (Zpos m <? 2 ^ 53) && (-1074 <=? e) && (e <=? 971)
      && ((2 ^ 52 <=? Zpos m) || (e =? -1074))
  | _ => true
  end.

(** The row of the example of the specification (seven cells) and the same
    bet as the worksheet range [A2:H] delivers it (eight cells, the result in
    the last one). *)
Definition example_row_7 : list string :=
  ["CS2"; "ESL Pro League"; "TeamA vs TeamB"; "Moneyline"; "Not Live"; "1,85";
   "Win"].
Definition example_row_8 : list string :=
  ["CS2"; "ESL Pro League"; "TeamA vs TeamB"; "Moneyline"; "Not Live"; "1,85";
   ""; "Win"].

(** The binary64 values nearest to 1.85, 0.25, 0.5, 1.5, 2.5 and 2, and the
    successor of 1.5. *)
Definition f_1_85 : float := S754_finite false 8331659310635418 (-52).
Definition f_quarter : float := S754_finite false 4503599627370496 (-54).
Definition f_half : float := S754_finite false 4503599627370496 (-53).
Definition f_1_5 : float := S754_finite false 6755399441055744 (-52).
Definition f_1_5_next : float := S754_finite false 6755399441055745 (-52).
Definition f_2_5 : float := S754_finite false 5629499534213120 (-51).
Definition f_two : float := S754_finite false 4503599627370496 (-51).

(** Titles the source and the specification give as examples. *)
Definition representative_titles : list string :=
  ["BLAST Premier Spring 2024 Groups"; "BLAST: CQ"; "Galaxy Battle // Phase 4";
   "ESL Pro League 21"; "UFC 302"; "ESL Pro League Season 19";
   "StarLadder SS 12"; "IEM Katowice 2024"; "PGL Major Group A"].

Fixpoint all_digits (s : string) : bool :=
  match s with
  | EmptyString => true
  | String c t => is_digit c && all_digits t
  end.

(** A number written with two decimal places: an optional minus sign (present
    exactly when [neg]), at least one digit, a period and two digits. *)
Definition two_decimals (neg : bool) (s : string) : Prop :=
  exists ip d1 d2,
    s = sign_str neg ++ ip ++ "." ++ String d1 (String d2 "") /\
    ip <> "" /\ all_digits ip = true /\
    is_digit d1 = true /\ is_digit d2 = true.

(** The EV of one side, as [fmt_ev] and [recompute_comparison_inline]
    compute it. *)
Definition ev_of (wr odds : float) : float := fsub (fmul wr odds) f_one.

(** Records the statistics view counts, and those it counts under sport [s]
    and tournament [t]. *)
Definition in_view (b : MatchBetTuple) : bool :=
  negb (is_empty (mb_sport b)) && negb (is_empty (mb_tournament b))
  && negb (is_empty (normalize_tournament_name (mb_tournament b))).

(** The records counted under sport [s] and tournament [t]: the sport and
    the tournament of the record are not empty, its normalised tournament
    is [t] and not empty, and its sport is [s] once "CStwo" is read as
    "CS2". *)
Definition in_group (s t : string) (b : MatchBetTuple) : bool :=
  negb (mb_sport b =? "")%string && negb (mb_tournament b =? "")%string
  && negb (normalize_tournament_name (mb_tournament b) =? "")%string
  && ((if (mb_sport b =? "CStwo")%string then "CS2" else mb_sport b) =? s)%string
  && (normalize_tournament_name (mb_tournament b) =? t)%string.

Definition counter_at (stats : StatsTree) (s t : string) : Counter :=
  match dict_get String.eqb s stats with
  | Some tm =>
      match dict_get String.eqb t tm with
      | Some c => c
      | None => mkCounter 0 0
      end
  | None => mkCounter 0 0
  end.

Definition count_if {A : Type} (p : A -> bool) (l : list A) : Z :=
  Z.of_nat (List.length (filter p l)).

Definition node_name (n : Node) : string := fst (fst n).
Definition node_total (n : Node) : Z := snd (fst n).

(** *** Ranks of floats *)

(** A bound above every finite float counted in units of [2 ^ -1074]. *)
Definition big : Z := 2 ^ 2100.

(** The rank of a float: its value in units of [2 ^ -1074], an integer for
    every valid float; the infinities rank beyond every finite value.  On
    valid floats that are not NaN the comparisons of floats are the
    comparisons of ranks ([rho_compare]). *)
Definition rho (x : float) : Z :=
  match x with
  | S754_zero _ | S754_nan => 0
  | S754_infinity s => signed s big
  | S754_finite s m e => signed s (Zpos m * 2 ^ (e + 1074))
  end.

(** The pieces of [round_ratio]: the shift, the rounded quotient, the shift
    after a carry, and the rank of the result. *)
Definition rr_sh (n d : Z) : Z := Z.max (Z.log2 (n * 2 ^ 1074 / d) - 52) 0.
Definition rr_q (n d : Z) : Z := div_half_even (n * 2 ^ 1074) (d * 2 ^ rr_sh n d).
Definition rr_sh' (n d : Z) : Z :=
  if rr_q n d =? 2 ^ 53 then rr_sh n d + 1 else rr_sh n d.

Definition rr_val (n d : Z) : Z :=
  if 2045 <? rr_sh' n d then big else rr_q n d * 2 ^ rr_sh n d.

(** The floats the comparisons order: valid and not NaN. *)
Definition ordered (x : float) : Prop :=
  valid_float x = true /\ is_nan x = false.

(** The float nearest to [v] units of [2 ^ -1074], for a signed integer
    [v]; an exact zero is positive. *)
Definition round_units (v : Z) : float :=
  if v =? 0 then S754_zero false
  else round_ratio (v <? 0) (Z.abs v) (2 ^ 1074).

Definition is_inf (x : float) : bool :=
  match x with S754_infinity _ => true | _ => false end.

(** *** Buckets and rows of the cache *)

(** No sport and no tournament of a sport is listed twice. *)
Definition stats_wf (stats : StatsTree) : Prop :=
  NoDup (map fst stats) /\
  Forall (fun st => NoDup (map fst (snd st))) stats.

(** The row [process_bets_to_cache] makes of the bucket of one odds key. *)
Definition row_of (ks : float * Stats) : RowTuple :=
  (fst ks, index_tuple (snd ks)).

(** The wins of a category never exceed its total. *)
Definition stats_ok (s : Stats) : Prop :=
  0 <= st_lw s <= st_lt s /\ 0 <= st_pw s <= st_pt s.

(** The records counted in a bucket: live total plus prematch total. *)
Definition bucket_total (s : Stats) : Z := st_lt s + st_pt s.

(** A count field of an output tuple, an absent count being no record. *)
Definition opt_count (c : option Z) : Z :=
  match c with Some n => n | None => 0 end.

Definition row_count (r : RowTuple) : Z :=
  opt_count (snd (fst (snd r))) + opt_count (snd (snd r)).

(** The number of input records that carry sport [s]. *)
Definition sport_count (s : string) (bets : list MatchBetTuple) : Z :=
  count_if (fun b => (mb_sport b =? s)%string) bets.

(** The records counted under sport [s] in the dictionary [agg]. *)
Definition total_at (agg : Agg) (s : string) : Z :=
  match dict_get String.eqb s agg with
  | Some om => sum_Z (map (fun ks => bucket_total (snd ks)) om)
  | None => 0
  end.

(** The update of the counters that one record makes. *)
Definition bump_of (b : MatchBetTuple) : Stats -> Stats :=
  bump (is_live (mb_live_status b)) (is_win (mb_result b)).

(** What the aggregation keeps true of the buckets of every sport. *)
Definition buckets_wf (om : list (float * Stats)) : Prop :=
  Forall (fun ks => stats_ok (snd ks)) om /\
  keys_apart feq om /\
  Forall (fun ks => valid_float (fst ks) = true) om.

(** The fields of one category of an output tuple agree with the counters
    [w] (wins) and [t] (total) of the bucket. *)
Definition rate_ok (w t : Z) (wr : option float) (cnt : option Z) : Prop :=
  (wr = None <-> t = 0) /\
  (cnt = None <-> t = 0) /\
  (0 < t ->
   wr = Some (int_true_div w t) /\ cnt = Some t /\
   fle f_zero (int_true_div w t) = true /\
   fle (int_true_div w t) f_one = true).

Definition example_bets : list MatchBetTuple :=
  [mkBet "CS2" "ESL Pro League" "TeamA vs TeamB" "Moneyline" "Not Live"
     f_two "Win";
   mkBet "CS2" "ESL Pro League" "TeamC vs TeamD" "Moneyline" "Live"
     f_1_5 "Loss";
   mkBet "CS2" "IEM Katowice" "TeamA vs TeamD" "Moneyline" "Not Live"
     f_1_5 "Win";
   mkBet "Dota 2" "The International" "TeamE vs TeamF" "Moneyline" "Not Live"
     f_1_5 "Win"].

(** The entry of "CS2" in the cache of [example_bets]. *)
Definition example_entry : SheetCacheEntry :=
  let r :=
    [(f_1_5, (Some f_zero, Some f_one, Some 1, Some 1));
     (f_two, (None, Some f_one, None, Some 1))] in
  mkEntry r r.

(** Three raw rows of one sport with the odds cells "2", "nan" and "1". *)
Definition nan_key_rows : list (list string) :=
  [["CS2"; "ESL Pro League"; "TeamA vs TeamB"; "Moneyline"; "Not Live"; "2";
    ""; "Win"];
   ["CS2"; "ESL Pro League"; "TeamC vs TeamD"; "Moneyline"; "Not Live"; "nan";
    ""; "Win"];
   ["CS2"; "ESL Pro League"; "TeamE vs TeamF"; "Moneyline"; "Not Live"; "1";
    ""; "Loss"]].

(** The entry of "CS2" in the cache of [nan_key_rows]. *)
Definition nan_key_entry : SheetCacheEntry :=
  let r :=
    [(f_two, (None, Some f_one, None, Some 1));
     (S754_nan, (None, Some f_one, None, Some 1));
     (f_one, (None, Some f_zero, None, Some 1))] in
  mkEntry r r.

(** *** Table, lookups and statistics *)

(** The verdict with the two sides exchanged. *)
Definition swap_verdict (v : Verdict) : Verdict :=
  match v with
  | BetterA => BetterB
  | BetterB => BetterA
  | BothEqual => BothEqual
  end.

(** The sort value of an item as a float. *)
Definition sort_key (v : option float) : float :=
  match v with None => f_neg_inf | Some x => x end.

(** The counters of sport [s] at the odds key [k] in the dictionary [agg],
    all zero where there is no such bucket. *)
Definition bucket_at (agg : Agg) (s : string) (k : float) : Stats :=
  match dict_get String.eqb s agg with
  | Some om =>
      match dict_get feq k om with
      | Some st => st
      | None => zero_stats
      end
  | None => zero_stats
  end.

(** The records of sport [s] whose rounded odds equal the key [k]. *)
Definition in_bucket (s : string) (k : float) (b : MatchBetTuple) : bool :=
  (mb_sport b =? s)%string &&
  match round_odds_key (mb_odds b) with
  | Some kb => feq kb k
  | None => false
  end.

(** The dictionaries the first loop of [process_bets_to_cache] goes
    through: the keys of every sport are valid floats and every bucket
    holds at least one record. *)
Definition agg_wf (agg : Agg) : Prop :=
  Forall (fun so =>
            Forall (fun ks => valid_float (fst ks) = true
                              /\ 1 <= bucket_total (snd ks)) (snd so)) agg.

(** A node that stands for at least one record, its wins among them. *)
Definition node_ok (n : Node) : Prop :=
  let '(_, total, wins) := n in 0 <= wins <= total /\ 1 <= total.

Definition counter_ok (c : Counter) : Prop :=
  0 <= c_wins c <= c_total c /\ 1 <= c_total c.

(** Every sport listed has a tournament, and every counter stands for at
    least one record. *)
Definition stats_counted (stats : StatsTree) : Prop :=
  Forall (fun st => snd st <> [] /\
                    Forall (fun tc => counter_ok (snd tc)) (snd st)) stats.

(** The first and the last character of a text. *)
Definition first_char (s : string) : option ascii :=
  match s with
  | EmptyString => None
  | String c _ => Some c
  end.

Fixpoint last_char (s : string) : option ascii :=
  match s with
  | EmptyString => None
  | String c EmptyString => Some c
  | String _ t => last_char t
  end.

(** Every whitespace character of [s] is a space, with no whitespace
    right before it; [after_space] tells whether whitespace precedes [s]. *)
Fixpoint single_spaced (after_space : bool) (s : string) : bool :=
  match s with
  | EmptyString => true
  | String c t =>
      if is_space c
      then (code c =? 32) && negb after_space && single_spaced true t
      else single_spaced false t
  end.

(** The number of ten-thousandths nearest to [a] units of [2 ^ -1074], and
    the rank of the float nearest to that many ten-thousandths: the rounding
    of [round(x, 4)] on the rank of [|x|]. *)
Definition myriads (a : Z) : Z := div_half_even (a * 10000) (2 ^ 1074).

Definition key_rank (a : Z) : Z := rho (round_ratio false (myriads a) 10000).

(** The float nearest to [x] rounded to two decimals, the exact binary
    value rounded to nearest, ties to even: what the text [f"{x:.2f}"]
    denotes. *)
Definition round2 (x : float) : float :=
  match x with
  | S754_finite s m e =>
      round_ratio s
        (div_half_even (num_at (- e) (Zpos m * 100)) (den_at (- e) 1)) 100
  | _ => x
  end.

(** The win-rate that [parse_cell] reads back from the cell of [wr]. *)
Definition reread_wr (wr : option float) : option float :=
  option_map (fun w => fdiv_hundred (round2 (fmul w f_hundred))) wr.

(** A table row after [update_ev_only] under the bet type [bt]. *)
Definition reread_row (bt : string) (r : RowTuple) : TableRow :=
  let '(odds, (live_wr, prem_wr, _, _)) := r in
  let wr := reread_wr (if (bt =? "Live")%string then live_wr else prem_wr) in
  let '(ev_str, ev_val) := fmt_ev wr (Some (round2 odds)) in
  mkRow (mkItem (format_f 2 odds) (Some odds))
        (mkItem (fmt_wr live_wr) live_wr)
        (mkItem (fmt_wr prem_wr) prem_wr)
        (mkItem ev_str ev_val)
        (row_color wr ev_val).

Fixpoint string_forall (p : ascii -> bool) (s : string) : bool :=
  match s with
  | EmptyString => true
  | String c t => p c && string_forall p t
  end.

(** A row of the cache at the odds key 1.8549 with a live win-rate of one
    half. *)
Definition f_1_8549 : float := S754_finite false 8353726948809533 (-52).

Definition example_cache_row : RowTuple :=
  (f_1_8549, (Some f_half, None, Some 2, None)).

(** The elements of [l] not in [seen], each at its first occurrence. *)
Fixpoint first_seen (seen l : list string) : list string :=
  match l with
  | [] => []
  | x :: t =>
      if existsb (String.eqb x) seen then first_seen seen t
      else x :: first_seen (x :: seen) t
  end.

(** The tournaments of sport [s] in the dictionary [stats], none when the
    sport is not a key. *)
Definition tourneys_at (stats : StatsTree) (s : string)
  : list (string * Counter) :=
  match dict_get String.eqb s stats with
  | Some tm => tm
  | None => []
  end.

(** The item of the tree made of one sport of the dictionary. *)
Definition sport_item (st : string * list (string * Counter))
  : Node * list Node :=
  (node_of (fst st) (sport_total (snd st)),
   map (fun t => node_of (fst t) (snd t))
       (sorted_desc (fun t => c_total (snd t)) (snd st))).

(** *** Texts of the comparison *)

(** The text [s] shows the number [x] with two decimal places: it is
    written as [two_decimals] says, with a minus sign exactly when the sign
    of [x] is negative, and read as a number it is [x] rounded to two
    decimals. *)
Definition shows_two_decimals (x : float) (s : string) : Prop :=
  two_decimals (sign_bit x) s /\ py_float s = Some (round2 x).

(** The line of the comparison text for one side, from the texts of its
    odds, its EV in percent, its win-rate in percent and its count. *)
Definition side_line (o e w c : string) : string :=
  "Bet " ++ o ++ " EV: " ++ e ++ "% (WR: " ++ w ++ "%, Count: " ++ c ++ ")".

(** The text of a count: "N/A" for an absent one. *)
Definition shown_count (c : option Z) : string :=
  match c with
  | None => "N/A"
  | Some n => py_str n
  end.

Definition is_one (c : option Z) : bool :=
  match c with
  | Some n => n =? 1
  | None => false
  end.

(** The end of the comparison text: a note for every side whose count
    is 1, from the texts [o_a] and [o_b] of the odds. *)
Definition shown_notes (o_a o_b : string) (count_a count_b : option Z)
  : string :=
  let note o := "Note: Odds " ++ o ++ " has only 1 count." in
  match is_one count_a, is_one count_b with
  | true, true => nl ++ nl ++ note o_a ++ " " ++ note o_b
  | true, false => nl ++ nl ++ note o_a
  | false, true => nl ++ nl ++ note o_b
  | false, false => ""
  end.

(** "Live" for the bet type "Live" and "Prematch" for any other. *)
Definition shown_type (bet_type : string) : string :=
  if (bet_type =? "Live")%string then "Live" else "Prematch".


(* ================================================================= *)
(** * Properties *)

(** ** Lists, sorting and dictionaries *)

Lemma fold_add_acc (l : list Z) (a : Z) :
  fold_left Z.add l a = a + sum_Z l.
Proof.
  unfold sum_Z. revert a.
  induction l as [|x l IH]; intros a; simpl; [lia|].
  rewrite (IH (a + x)), (IH x). lia.
Qed.

Lemma sum_Z_cons (x : Z) (l : list Z) : sum_Z (x :: l) = x + sum_Z l.
Proof. unfold sum_Z at 1. simpl. apply fold_add_acc. Qed.

Lemma sum_Z_app (l1 l2 : list Z) : sum_Z (l1 ++ l2) = sum_Z l1 + sum_Z l2.
Proof.
  induction l1 as [|x l IH]; simpl; [reflexivity|].
  rewrite !sum_Z_cons, IH. lia.
Qed.

Lemma sum_Z_perm (l1 l2 : list Z) : Permutation l1 l2 -> sum_Z l1 = sum_Z l2.
Proof.
  induction 1; rewrite ?sum_Z_cons; lia.
Qed.

Lemma StronglySorted_snoc {A : Type} (R : A -> A -> Prop) (l : list A) (a : A) :
  StronglySorted R l -> Forall (fun b => R b a) l -> StronglySorted R (l ++ [a]).
Proof.
  induction 1 as [|x l Hs IH Hx]; intros Ha; simpl.
  - repeat constructor.
  - inversion Ha; subst. constructor; [now apply IH|].
    apply Forall_app. split; [assumption | now repeat constructor].
Qed.

Lemma StronglySorted_rev {A : Type} (R : A -> A -> Prop) (l : list A) :
  StronglySorted (fun a b => R b a) l -> StronglySorted R (rev l).
Proof.
  induction 1 as [|x l Hs IH Hx]; simpl; [constructor|].
  apply StronglySorted_snoc; [assumption|].
  apply Forall_rev. exact Hx.
Qed.

Lemma StronglySorted_map {A B : Type} (R : B -> B -> Prop) (f : A -> B)
    (l : list A) :
  StronglySorted (fun a b => R (f a) (f b)) l -> StronglySorted R (map f l).
Proof.
  induction 1 as [|x l Hs IH Hx]; simpl; constructor; [assumption|].
  apply Forall_map. exact Hx.
Qed.

Lemma Forall_firstn_skipn {A : Type} (Q : A -> Prop) (l : list A) (k : nat) :
  Forall Q l -> Forall Q (firstn k l) /\ Forall Q (skipn k l).
Proof.
  intros H. rewrite <- (firstn_skipn k l) in H. now apply Forall_app in H.
Qed.

Lemma skipn_nth {A : Type} (l : list A) :
  forall p y, nth_error l p = Some y -> skipn p l = y :: skipn (S p) l.
Proof.
  induction l as [|a l IH]; intros [|p] y H; try discriminate.
  - injection H as ->. reflexivity.
  - cbn [nth_error] in H. cbn [skipn]. now apply IH.
Qed.

Lemma firstn_S_nth {A : Type} (l : list A) :
  forall p y, nth_error l p = Some y ->
              firstn (S p) l = (firstn p l ++ [y])%list.
Proof.
  induction l as [|a l IH]; intros [|p] y H; try discriminate.
  - injection H as ->. reflexivity.
  - cbn [nth_error] in H. cbn [firstn app]. f_equal. now apply IH.
Qed.

Lemma StronglySorted_before {A : Type} (R : A -> A -> Prop) (l : list A) :
  StronglySorted R l ->
  forall p y, nth_error l p = Some y -> Forall (fun z => R z y) (firstn p l).
Proof.
  induction 1 as [|a l Hs IH Ha]; intros [|p] y H; try discriminate.
  - constructor.
  - cbn [nth_error] in H. cbn [firstn]. constructor; [|now apply IH].
    rewrite Forall_forall in Ha. apply Ha. eapply nth_error_In, H.
Qed.

Lemma StronglySorted_after {A : Type} (R : A -> A -> Prop) (l : list A) :
  StronglySorted R l ->
  forall p y, nth_error l p = Some y ->
              Forall (fun z => R y z) (skipn (S p) l).
Proof.
  induction 1 as [|a l Hs IH Ha]; intros [|p] y H; try discriminate.
  - injection H as ->. exact Ha.
  - cbn [nth_error] in H. now apply IH.
Qed.

Section SortingFacts.

Context {A : Type} (lt : A -> A -> bool).

Lemma run_desc_perm (l : list A) :
  forall prev acc,
    Permutation (fst (run_desc lt prev l acc) ++ snd (run_desc lt prev l acc))
      (acc ++ l).
Proof.
  induction l as [|x t IH]; intros prev acc; cbn [run_desc].
  - reflexivity.
  - destruct (lt x prev); [|reflexivity].
    rewrite IH. cbn [app]. apply Permutation_middle.
Qed.

Lemma run_asc_perm (l : list A) :
  forall prev racc,
    Permutation (fst (run_asc lt prev l racc) ++ snd (run_asc lt prev l racc))
      (racc ++ l).
Proof.
  induction l as [|x t IH]; intros prev racc; cbn [run_asc].
  - cbn [fst snd]. now rewrite <- Permutation_rev.
  - destruct (lt x prev).
    + cbn [fst snd]. now rewrite <- Permutation_rev.
    + rewrite IH. cbn [app]. apply Permutation_middle.
Qed.

Lemma count_run_perm (l : list A) :
  Permutation (fst (count_run lt l) ++ snd (count_run lt l)) l.
Proof.
  destruct l as [|a0 [|a1 t]]; cbn [count_run fst snd];
    try (rewrite app_nil_r; reflexivity).
  destruct (lt a1 a0).
  - rewrite run_desc_perm. cbn [app]. apply perm_swap.
  - rewrite run_asc_perm. cbn [app]. apply perm_swap.
Qed.

Lemma insert_at_perm (k : nat) (x : A) (l : list A) :
  Permutation (insert_at k x l) (x :: l).
Proof.
  unfold insert_at. rewrite <- Permutation_middle.
  now rewrite firstn_skipn.
Qed.

Lemma binarysort_perm (rest : list A) :
  forall run, Permutation (binarysort lt run rest) (run ++ rest).
Proof.
  unfold binarysort. induction rest as [|x rest IH]; intros run.
  - now rewrite app_nil_r.
  - cbn [fold_left]. rewrite IH, insert_at_perm.
    cbn [app]. apply Permutation_middle.
Qed.

Lemma py_sorted_perm (l : list A) : Permutation (py_sorted lt l) l.
Proof.
  unfold py_sorted. pose proof (count_run_perm l) as H.
  destruct (count_run lt l) as [run rest]. cbn [fst snd] in H.
  now rewrite binarysort_perm.
Qed.

(** What the binary search leaves on both sides of the place it finds. *)
Lemma bisect_spec (Q1 Q2 : A -> Prop) (x : A) (l : list A) :
  (forall p y, nth_error l p = Some y -> lt x y = true ->
               Forall Q2 (skipn p l)) ->
  (forall p y, nth_error l p = Some y -> lt x y = false ->
               Forall Q1 (firstn (S p) l)) ->
  forall fuel lo hi,
    (lo <= hi <= List.length l)%nat -> (hi - lo <= fuel)%nat ->
    Forall Q1 (firstn lo l) -> Forall Q2 (skipn hi l) ->
    Forall Q1 (firstn (bisect lt fuel x l lo hi) l) /\
    Forall Q2 (skipn (bisect lt fuel x l lo hi) l).
Proof.
  intros Hhi Hlo. induction fuel as [|f IH]; intros lo hi Hb Hf H1 H2.
  - cbn [bisect]. replace hi with lo in H2 by lia. auto.
  - cbn [bisect]. destruct (Nat.ltb_spec lo hi) as [L|L].
    + set (p := (lo + (hi - lo) / 2)%nat).
      assert (Hp : (lo <= p < hi)%nat).
      { unfold p. pose proof (Nat.div_lt (hi - lo) 2 ltac:(lia) ltac:(lia)).
        lia. }
      destruct (nth_error l p) as [y|] eqn:E.
      * destruct (lt x y) eqn:Ex.
        -- apply IH; [lia|lia|assumption|]. exact (Hhi p y E Ex).
        -- apply IH; [lia|lia| |assumption]. exact (Hlo p y E Ex).
      * apply nth_error_None in E. lia.
    + replace hi with lo in H2 by lia. auto.
Qed.

(** On keys satisfying [P], [lt] decides a total preorder [R]. *)
Context (P : A -> Prop) (R : A -> A -> Prop).
Hypothesis lt_R : forall x y, P x -> P y -> lt x y = true -> R x y.
Hypothesis nlt_R : forall x y, P x -> P y -> lt x y = false -> R y x.
Hypothesis R_trans :
  forall x y z, P x -> P y -> P z -> R x y -> R y z -> R x z.

Lemma run_desc_sorted (l : list A) :
  forall prev acc,
    P prev -> Forall P acc -> Forall P l ->
    StronglySorted R (prev :: acc) ->
    StronglySorted R (fst (run_desc lt prev l (prev :: acc))) /\
    Forall P (fst (run_desc lt prev l (prev :: acc))) /\
    Forall P (snd (run_desc lt prev l (prev :: acc))).
Proof.
  induction l as [|x t IH]; intros prev acc Pp Pa Pl Hs; cbn [run_desc].
  - cbn [fst snd]. auto.
  - inversion Pl as [|? ? Px Pt]; subst.
    destruct (lt x prev) eqn:E; [|cbn [fst snd]; auto].
    apply IH; auto. constructor; [assumption|].
    assert (Rx : R x prev) by (apply lt_R; assumption).
    constructor; [assumption|].
    apply StronglySorted_inv in Hs as [_ Hp].
    rewrite Forall_forall in *. intros b Hb.
    apply (R_trans x prev b); auto.
Qed.

Lemma run_asc_sorted (l : list A) :
  forall prev racc,
    P prev -> Forall P racc -> Forall P l ->
    StronglySorted (fun a b => R b a) (prev :: racc) ->
    StronglySorted R (fst (run_asc lt prev l (prev :: racc))) /\
    Forall P (fst (run_asc lt prev l (prev :: racc))) /\
    Forall P (snd (run_asc lt prev l (prev :: racc))).
Proof.
  assert (Fin : forall prev racc l',
             P prev -> Forall P racc -> Forall P l' ->
             StronglySorted (fun a b => R b a) (prev :: racc) ->
             StronglySorted R (rev (prev :: racc)) /\
             Forall P (rev (prev :: racc)) /\ Forall P l').
  { intros prev racc l' Pp Pa Pl Hs. split; [now apply StronglySorted_rev|].
    split; [|assumption]. apply Forall_rev. now constructor. }
  induction l as [|x t IH]; intros prev racc Pp Pa Pl Hs; cbn [run_asc].
  - cbn [fst snd]. now apply Fin.
  - inversion Pl as [|? ? Px Pt]; subst.
    destruct (lt x prev) eqn:E; [cbn [fst snd]; now apply Fin|].
    apply IH; auto. constructor; [assumption|].
    assert (Rx : R prev x) by (apply nlt_R; assumption).
    constructor; [assumption|].
    apply StronglySorted_inv in Hs as [_ Hp].
    rewrite Forall_forall in *. intros b Hb.
    apply (R_trans b prev x); auto.
Qed.

Lemma count_run_sorted (l : list A) :
  Forall P l ->
  StronglySorted R (fst (count_run lt l)) /\
  Forall P (fst (count_run lt l)) /\ Forall P (snd (count_run lt l)).
Proof.
  intros Pl. destruct l as [|a0 [|a1 t]]; cbn [count_run].
  - cbn [fst snd]. repeat split; constructor.
  - cbn [fst snd]. repeat split; try assumption; repeat constructor.
  - inversion Pl as [|? ? P0 Pl1]; subst.
    inversion Pl1 as [|? ? P1 Pt]; subst.
    destruct (lt a1 a0) eqn:E.
    + apply run_desc_sorted; auto.
      repeat constructor. now apply lt_R.
    + apply run_asc_sorted; auto.
      repeat constructor. now apply nlt_R.
Qed.

Lemma insert_at_sorted (x : A) (l : list A) :
  forall k,
    StronglySorted R l ->
    Forall (fun z => R z x) (firstn k l) ->
    Forall (fun z => R x z) (skipn k l) ->
    StronglySorted R (insert_at k x l).
Proof.
  unfold insert_at. induction l as [|y t IH]; intros k Hs H1 H2.
  - destruct k; cbn; repeat constructor.
  - destruct k as [|k].
    + cbn [firstn skipn app] in *. now constructor.
    + cbn [firstn skipn app] in *.
      apply StronglySorted_inv in Hs as [Ht Hy].
      inversion H1 as [|? ? Ryx H1']; subst.
      constructor; [now apply IH|].
      apply Forall_app. split.
      * now apply (Forall_firstn_skipn _ t k).
      * constructor; [assumption|]. now apply (Forall_firstn_skipn _ t k).
Qed.

Lemma bisect_sorted (x : A) (l : list A) :
  P x -> Forall P l -> StronglySorted R l ->
  Forall (fun z => R z x) (firstn (bisect lt (List.length l) x l 0 (List.length l)) l) /\
  Forall (fun z => R x z) (skipn (bisect lt (List.length l) x l 0 (List.length l)) l).
Proof.
  intros Px Pl Hs.
  assert (Py : forall p y, nth_error l p = Some y -> P y).
  { intros p y E. rewrite Forall_forall in Pl. eapply Pl, nth_error_In, E. }
  apply bisect_spec.
  - intros p y E Ex. rewrite (skipn_nth _ _ _ E).
    assert (Rxy : R x y) by (apply lt_R; eauto).
    constructor; [assumption|].
    pose proof (StronglySorted_after R l Hs p y E) as Ha.
    pose proof (proj2 (Forall_firstn_skipn P l (S p) Pl)) as Pa.
    pose proof (Forall_and Pa Ha) as Hb.
    eapply Forall_impl; [|exact Hb]. cbv beta. intros z [Pz Rz].
    apply (R_trans x y z); eauto.
  - intros p y E Ex. rewrite (firstn_S_nth _ _ _ E).
    assert (Ryx : R y x) by (apply nlt_R; eauto).
    apply Forall_app. split; [|now repeat constructor].
    pose proof (StronglySorted_before R l Hs p y E) as Hb.
    pose proof (proj1 (Forall_firstn_skipn P l p Pl)) as Pb.
    pose proof (Forall_and Pb Hb) as Hc.
    eapply Forall_impl; [|exact Hc]. cbv beta. intros z [Pz Rz].
    apply (R_trans z y x); eauto.
  - lia.
  - lia.
  - constructor.
  - rewrite skipn_all. constructor.
Qed.

Lemma binarysort_sorted (rest : list A) :
  forall run,
    Forall P run -> Forall P rest -> StronglySorted R run ->
    StronglySorted R (binarysort lt run rest).
Proof.
  unfold binarysort. induction rest as [|x rest IH]; intros run Pr Ps Hs.
  - exact Hs.
  - inversion Ps as [|? ? Px Prest]; subst. cbn [fold_left].
    destruct (bisect_sorted x run Px Pr Hs) as [H1 H2].
    apply IH.
    + eapply Permutation_Forall; [symmetry; apply insert_at_perm|].
      now constructor.
    + assumption.
    + now apply insert_at_sorted.
Qed.

Lemma py_sorted_sorted (l : list A) :
  Forall P l -> StronglySorted R (py_sorted lt l).
Proof.
  intros Hl. unfold py_sorted.
  destruct (count_run_sorted l Hl) as (Hs & Pr & Ps).
  destruct (count_run lt l) as [run rest]. cbn [fst snd] in *.
  now apply binarysort_sorted.
Qed.

End SortingFacts.

Lemma sorted_desc_sorted {A : Type} (total : A -> Z) (l : list A) :
  StronglySorted (fun a b => total b <= total a) (sorted_desc total l).
Proof.
  apply (py_sorted_sorted _ (fun _ => True)).
  - intros x y _ _ H. apply Z.ltb_lt in H. lia.
  - intros x y _ _ H. apply Z.ltb_ge in H. lia.
  - intros x y z _ _ _ H1 H2. lia.
  - apply Forall_forall. auto.
Qed.

Section DictFacts.

Context {K V : Type} (keq : K -> K -> bool).

Lemma dict_upd_values (Q : V -> Prop) (k : K) (dflt : V) (f : V -> V)
    (d : list (K * V)) :
  Q (f dflt) -> (forall v, Q v -> Q (f v)) ->
  Forall (fun kv => Q (snd kv)) d ->
  Forall (fun kv => Q (snd kv)) (dict_upd keq k dflt f d).
Proof.
  intros Hd Hf. induction 1 as [|[k' v] t Hv Ht IH]; simpl.
  - repeat constructor. exact Hd.
  - destruct (keq k' k); constructor; auto. simpl in *. auto.
Qed.

Lemma dict_upd_sum (g : V -> Z) (k : K) (dflt : V) (f : V -> V)
    (d : list (K * V)) :
  g (f dflt) = 1 -> (forall v, g (f v) = g v + 1) ->
  sum_Z (map (fun kv => g (snd kv)) (dict_upd keq k dflt f d))
  = sum_Z (map (fun kv => g (snd kv)) d) + 1.
Proof.
  intros Hd Hf. induction d as [|[k' v] t IH]; simpl.
  - rewrite sum_Z_cons, Hd. reflexivity.
  - destruct (keq k' k); simpl; rewrite !sum_Z_cons; simpl.
    + rewrite Hf. lia.
    + rewrite IH. lia.
Qed.

Lemma dict_upd_keys_apart (k : K) (dflt : V) (f : V -> V) (d : list (K * V)) :
  keys_apart keq d -> keys_apart keq (dict_upd keq k dflt f d).
Proof.
  unfold keys_apart. induction 1 as [|[k' v] t Hk Ht IH]; simpl.
  - repeat constructor.
  - destruct (keq k' k) eqn:E.
    + constructor; assumption.
    + constructor; [|assumption].
      clear IH Ht. induction t as [|[k2 v2] t IH]; simpl.
      * repeat constructor. exact E.
      * inversion Hk; subst. destruct (keq k2 k); constructor; auto.
Qed.

Hypothesis keq_spec : forall a b, keq a b = true <-> a = b.

Lemma keq_refl (a : K) : keq a a = true.
Proof. now apply keq_spec. Qed.

Lemma keq_neq (a b : K) : a <> b -> keq a b = false.
Proof.
  intros H. destruct (keq a b) eqn:E; [|reflexivity].
  apply keq_spec in E. contradiction.
Qed.

Lemma dict_get_in (k : K) (v : V) (d : list (K * V)) :
  dict_get keq k d = Some v -> In (k, v) d.
Proof.
  induction d as [|[k' v'] t IH]; simpl; [discriminate|].
  destruct (keq k' k) eqn:E.
  - apply keq_spec in E. intros [= ->]. subst. now left.
  - intros H. right. now apply IH.
Qed.

Lemma in_dict_get (k : K) (v : V) (d : list (K * V)) :
  NoDup (map fst d) -> In (k, v) d -> dict_get keq k d = Some v.
Proof.
  induction d as [|[k' v'] t IH]; simpl; [contradiction|].
  intros Hnd [H|H]; inversion Hnd; subst.
  - injection H as -> ->. now rewrite keq_refl.
  - rewrite keq_neq; [now apply IH|].
    intros ->. apply (in_map fst) in H. contradiction.
Qed.

Lemma dict_get_upd_same (k : K) (dflt : V) (f : V -> V) (d : list (K * V)) :
  dict_get keq k (dict_upd keq k dflt f d)
  = Some (f (match dict_get keq k d with Some v => v | None => dflt end)).
Proof.
  induction d as [|[k' v] t IH]; simpl.
  - now rewrite keq_refl.
  - destruct (keq k' k) eqn:E; simpl; rewrite E; [reflexivity | exact IH].
Qed.

Lemma dict_get_upd_other (k k0 : K) (dflt : V) (f : V -> V) (d : list (K * V)) :
  k0 <> k ->
  dict_get keq k0 (dict_upd keq k dflt f d) = dict_get keq k0 d.
Proof.
  intros Hne. induction d as [|[k' v] t IH]; simpl.
  - rewrite keq_neq; [reflexivity | congruence].
  - destruct (keq k' k) eqn:E; simpl.
    + apply keq_spec in E. subst. rewrite keq_neq; congruence.
    + destruct (keq k' k0); [reflexivity | exact IH].
Qed.

Lemma dict_upd_keys (k : K) (dflt : V) (f : V -> V) (d : list (K * V)) :
  map fst (dict_upd keq k dflt f d)
  = if dict_mem keq k d then map fst d else (map fst d ++ [k])%list.
Proof.
  unfold dict_mem. induction d as [|[k' v] t IH]; simpl; [reflexivity|].
  destruct (keq k' k) eqn:E; simpl; [reflexivity|].
  rewrite IH. now destruct (dict_get keq k t).
Qed.

Lemma dict_mem_in (k : K) (d : list (K * V)) :
  dict_mem keq k d = true <-> In k (map fst d).
Proof.
  unfold dict_mem. induction d as [|[k' v] t IH]; simpl.
  - split; [discriminate | contradiction].
  - destruct (keq k' k) eqn:E.
    + apply keq_spec in E. split; auto.
    + rewrite IH. split; [auto|]. intros [H|H]; [|assumption].
      subst. rewrite keq_refl in E. discriminate.
Qed.

Lemma dict_upd_nodup (k : K) (dflt : V) (f : V -> V) (d : list (K * V)) :
  NoDup (map fst d) -> NoDup (map fst (dict_upd keq k dflt f d)).
Proof.
  intros H. rewrite dict_upd_keys.
  destruct (dict_mem keq k d) eqn:E; [assumption|].
  apply NoDup_rev in H. rewrite <- (rev_involutive (_ ++ _)).
  apply NoDup_rev. rewrite rev_app_distr. simpl. constructor; [|assumption].
  rewrite <- in_rev. intros Hin. apply dict_mem_in in Hin. congruence.
Qed.

End DictFacts.

(** ** Row ingestion *)

Lemma ingest_rows_flat_map (rows : list (list string)) :
  ingest_rows rows = flat_map kept rows.
Proof.
  induction rows as [|r t IH]; simpl; [reflexivity|].
  unfold kept at 1. destruct (ingest_row r); simpl; now rewrite IH.
Qed.

Lemma is_empty_true (s : string) : is_empty s = true <-> s = "".
Proof. destruct s; simpl; split; congruence. Qed.

Lemma ingest_row_some (r : list string) (b : MatchBetTuple) :
  ingest_row r = Some b ->
  is_empty (sport_text r) = false /\ is_empty (result_text r) = false /\
  py_float (odds_text r) = Some (mb_odds b) /\
  mb_sport b = sport_text r /\ mb_result b = result_text r.
Proof.
  unfold ingest_row, sport_text, result_text, odds_text.
  destruct (is_empty (strip (cell (pad_row r) 0))); [discriminate|].
  destruct (is_empty (strip (cell (pad_row r) 7))); [discriminate|].
  destruct (py_float _) as [o|]; [|discriminate].
  intros [= <-]. simpl. repeat split.
Qed.

Lemma ingest_row_none (r : list string) :
  ingest_row r = None <->
  sport_text r = "" \/ result_text r = "" \/ py_float (odds_text r) = None.
Proof.
  unfold ingest_row, sport_text, result_text, odds_text.
  rewrite <- !is_empty_true.
  destruct (is_empty (strip (cell (pad_row r) 0))); [tauto|].
  destruct (is_empty (strip (cell (pad_row r) 7))); [tauto|].
  destruct (py_float _) as [o|].
  - split; [discriminate|]. intros [H|[H|H]]; discriminate.
  - tauto.
Qed.

(** C1, as the code has it: the seven-cell row of the example carries its
    result in cell 6, ingestion reads the result from cell 7 of the padded
    row, finds it empty and skips the row; nothing is ingested and the cache
    is empty. *)
Lemma C1_seven_cell_row_is_dropped :
  result_text example_row_7 = "" /\
  fetch_matchbet_data (Some [example_row_7]) = [] /\
  process_bets_to_cache (fetch_matchbet_data (Some [example_row_7])) = [].
Proof. vm_compute. repeat split. Qed.

(** C1, amended: the same bet delivered as an eight-cell row (result in the
    last cell) is ingested as one record with sport "CS2", odds 1.85 (the
    float nearest to it) and result "Win"; its aggregation has the single
    sport "CS2" with the single bucket 1.8500 holding prematch wins 1,
    prematch total 1 and no live observation, so the cache row has the
    prematch win-rate 1.0, the prematch count 1, and the live win-rate and
    live count absent. *)
Theorem C1_eight_cell_row_example :
  py_float "1.85" = Some f_1_85 /\
  format_f 4 f_1_85 = "1.8500" /\
  fetch_matchbet_data (Some [example_row_8])
  = [mkBet "CS2" "ESL Pro League" "TeamA vs TeamB" "Moneyline" "Not Live"
       f_1_85 "Win"] /\
  aggregate (fetch_matchbet_data (Some [example_row_8]))
  = [("CS2", [(f_1_85, mkStats 0 0 1 1)])] /\
  process_bets_to_cache (fetch_matchbet_data (Some [example_row_8]))
  = [("CS2",
      mkEntry [(f_1_85, (None, Some f_one, None, Some 1))]
              [(f_1_85, (None, Some f_one, None, Some 1))])].
Proof. vm_compute. repeat split. Qed.

(** C2, as the code has it: the only test on the odds is that the text
    parses; a negative number, zero, an infinity and a NaN all parse, and
    their rows are kept. *)
Lemma C2_odds_need_not_be_finite_positive :
  map (fun b => finite_positive (mb_odds b))
    (fetch_matchbet_data
       (Some [["CS2"; ""; ""; ""; ""; "-1,5"; ""; "Win"];
              ["CS2"; ""; ""; ""; ""; "0"; ""; "Win"];
              ["CS2"; ""; ""; ""; ""; "inf"; ""; "Win"];
              ["CS2"; ""; ""; ""; ""; "nan"; ""; "Win"]]))
  = [false; false; false; false].
Proof. vm_compute. reflexivity. Qed.

(** C2, amended: every record produced by ingestion comes from a raw row
    whose sport and result are non-empty after trimming and whose odds text,
    commas replaced by periods, parses as a float, which is the record's
    odds (any float: the sign and finiteness are not tested); a row is
    skipped exactly when one of the three fails, and the output is the kept
    rows in source order. *)
Theorem C2_ingestion_keeps_parsable_rows (rows : list (list string)) :
  (forall b, In b (fetch_matchbet_data (Some rows)) ->
     mb_sport b <> "" /\ mb_result b <> "" /\
     exists r, In r rows /\ ingest_row r = Some b /\
               py_float (odds_text r) = Some (mb_odds b)) /\
  (forall r, ingest_row r = None <->
     sport_text r = "" \/ result_text r = "" \/ py_float (odds_text r) = None) /\
  fetch_matchbet_data (Some rows) = flat_map kept rows.
Proof.
  split; [|split; [exact ingest_row_none | apply ingest_rows_flat_map]].
  intros b Hb. simpl in Hb. rewrite ingest_rows_flat_map in Hb.
  apply in_flat_map in Hb as (r & Hr & Hk).
  unfold kept in Hk. destruct (ingest_row r) as [b'|] eqn:E; [|contradiction].
  destruct Hk as [->|[]].
  destruct (ingest_row_some _ _ E) as (Hs & Hres & Ho & Es & Er).
  repeat split.
  - rewrite Es. intros H. apply is_empty_true in H. congruence.
  - rewrite Er. intros H. apply is_empty_true in H. congruence.
  - exists r. auto.
Qed.

(** ** Expected value *)

(** C4: with both inputs present the numeric EV is [wr * odds - 1.0], the
    float product followed by the float subtraction; the EV is absent exactly
    when one of the inputs is absent, and then the text is "N/A". *)
Theorem C4_fmt_ev_value (wr odds : option float) :
  (forall w o, wr = Some w -> odds = Some o ->
     snd (fmt_ev wr odds) = Some (fsub (fmul w o) f_one)) /\
  (snd (fmt_ev wr odds) = None <-> wr = None \/ odds = None) /\
  (wr = None \/ odds = None -> fst (fmt_ev wr odds) = "N/A").
Proof.
  destruct wr as [w|], odds as [o|]; simpl; repeat split;
    try (intros ? ? [= <-] [= <-]; reflexivity);
    try discriminate; try tauto; try (intros [H|H]; discriminate).
Qed.

(** ** Tournament names *)

(** C7, as the code has it: one pass can leave a text that a second pass
    changes.  "Part 1" is removed after the "Season <digits>" rule has run,
    which leaves "Season 3000" for the next call to delete; the year removed
    from "A:2024 B" leaves a colon-space separator that only the next call
    cuts at. *)
Lemma C7_normalize_not_idempotent :
  normalize_tournament_name "Season Part 1 3000" = "Season 3000" /\
  normalize_tournament_name "Season 3000" = "" /\
  normalize_tournament_name "A:2024 B" = "A: B" /\
  normalize_tournament_name "A: B" = "A".
Proof. vm_compute. repeat split. Qed.

(** C7, amended: normalisation is idempotent on the representative titles
    (the examples of the source comments and of the specification); it is not
    idempotent on every text. *)
Theorem C7_normalize_idempotent_on_representatives :
  Forall (fun x => normalize_tournament_name (normalize_tournament_name x)
                   = normalize_tournament_name x)
         representative_titles /\
  map normalize_tournament_name representative_titles
  = ["BLAST Premier"; "BLAST"; "Galaxy Battle"; "ESL Pro League"; "UFC";
     "ESL Pro League"; "StarLadder StarSeries"; "IEM Katowice"; "PGL Major"].
Proof.
  split; [|vm_compute; reflexivity].
  unfold representative_titles.
  repeat (constructor; [vm_compute; reflexivity|]). constructor.
Qed.

(** ** Two-decimal rendering *)

Lemma digit_char_is_digit (z : Z) :
  0 <= z < 10 -> is_digit (digit_char z) = true.
Proof.
  intros H.
  assert (E : z = 0 \/ z = 1 \/ z = 2 \/ z = 3 \/ z = 4 \/ z = 5 \/ z = 6
              \/ z = 7 \/ z = 8 \/ z = 9) by lia.
  repeat (destruct E as [->|E]; [reflexivity|]). now subst.
Qed.

Lemma mod10_digit (n : Z) : is_digit (digit_char (n mod 10)) = true.
Proof. apply digit_char_is_digit, Z.mod_pos_bound. lia. Qed.

Lemma digits_fuel_all_digits (fuel : nat) :
  forall n acc, all_digits acc = true ->
                all_digits (digits_fuel fuel n acc) = true.
Proof.
  induction fuel as [|f IH]; intros n acc Hacc; simpl; [assumption|].
  assert (H : all_digits (String (digit_char (n mod 10)) acc) = true)
    by (simpl; now rewrite mod10_digit).
  destruct (n <? 10); [exact H | now apply IH].
Qed.

Lemma digits_fuel_nonempty (fuel : nat) :
  forall n c acc, digits_fuel fuel n (String c acc) <> "".
Proof.
  induction fuel as [|f IH]; intros n c acc; simpl; [discriminate|].
  destruct (n <? 10); [discriminate | apply IH].
Qed.

Lemma str_of_Z_shape (n : Z) :
  str_of_Z n <> "" /\ all_digits (str_of_Z n) = true.
Proof.
  unfold str_of_Z. split.
  - simpl. destruct (n <? 10); [discriminate | apply digits_fuel_nonempty].
  - now apply digits_fuel_all_digits.
Qed.

Lemma format_f_2_shape (x : float) :
  is_finite x = true -> two_decimals (sign_bit x) (format_f 2 x).
Proof.
  destruct x as [s|s| |s m e]; try discriminate; intros _; simpl sign_bit.
  - exists "0", "0"%char, "0"%char.
    split; [now destruct s|]. repeat split. discriminate.
  - unfold format_f.
    set (n := div_half_even _ _).
    exists (str_of_Z (n / 10 ^ Z.of_nat 2)),
           (digit_char (n / 10 mod 10)), (digit_char (n mod 10)).
    destruct (str_of_Z_shape (n / 10 ^ Z.of_nat 2)) as [Hne Hd].
    repeat split; auto using mod10_digit.
Qed.

Lemma two_decimals_no_plus (neg : bool) (s rest : string) :
  two_decimals neg s -> prefix "+" (s ++ rest) = false.
Proof.
  intros (ip & d1 & d2 & -> & Hne & Hd & _).
  destruct neg; [reflexivity|].
  destruct ip as [|c t]; [congruence|]. cbn [append sign_str prefix].
  destruct (ascii_dec "+" c) as [<-|]; [|reflexivity].
  cbn in Hd. discriminate.
Qed.

(** C8, as the code has it: a positive EV is written without a plus sign;
    the win-rate 0.5 at odds 2.5 has the EV 0.25 and the text "25.00%". *)
Lemma C8_positive_ev_has_no_plus_sign :
  fmt_ev (Some f_half) (Some f_2_5) = ("25.00%", Some f_quarter) /\
  flt f_zero f_quarter = true /\
  prefix "+" (fst (fmt_ev (Some f_half) (Some f_2_5))) = false.
Proof. vm_compute. repeat split. Qed.


(** ** Statistics view *)

Lemma stats_step_excluded (stats : StatsTree) (b : MatchBetTuple) :
  in_view b = false -> stats_step stats b = stats.
Proof.
  unfold in_view, stats_step.
  destruct (is_empty (mb_sport b)); [reflexivity|].
  destruct (is_empty (mb_tournament b)); [reflexivity|].
  destruct (is_empty (normalize_tournament_name _)); [reflexivity|discriminate].
Qed.

Lemma stats_step_included (stats : StatsTree) (b : MatchBetTuple) :
  in_view b = true ->
  stats_step stats b
  = dict_upd String.eqb (sport_alias (mb_sport b)) []
      (dict_upd String.eqb (normalize_tournament_name (mb_tournament b))
         (mkCounter 0 0) (count_bet (is_win (mb_result b))))
      stats.
Proof.
  unfold in_view, stats_step.
  destruct (is_empty (mb_sport b)); [discriminate|].
  destruct (is_empty (mb_tournament b)); [discriminate|].
  destruct (is_empty (normalize_tournament_name _)); [discriminate|reflexivity].
Qed.

Lemma is_empty_eqb (s : string) : is_empty s = (s =? "")%string.
Proof. now destruct s. Qed.

(** The groups of the statement are those of the loop. *)
Lemma in_group_loop (s t : string) (b : MatchBetTuple) :
  in_group s t b
  = in_view b && (sport_alias (mb_sport b) =? s)%string
    && (normalize_tournament_name (mb_tournament b) =? t)%string.
Proof.
  unfold in_group, in_view, sport_alias. now rewrite !is_empty_eqb.
Qed.

Lemma counter_at_step (stats : StatsTree) (b : MatchBetTuple) (s t : string) :
  counter_at (stats_step stats b) s t
  = if in_group s t b
    then mkCounter
           (c_wins (counter_at stats s t)
            + (if (lower (mb_result b) =? "win")%string then 1 else 0))
           (c_total (counter_at stats s t) + 1)
    else counter_at stats s t.
Proof.
  rewrite in_group_loop.
  change (mkCounter
            (c_wins (counter_at stats s t)
             + (if (lower (mb_result b) =? "win")%string then 1 else 0))
            (c_total (counter_at stats s t) + 1))
    with (count_bet (is_win (mb_result b)) (counter_at stats s t)).
  destruct (in_view b) eqn:V; simpl.
  2: now rewrite stats_step_excluded.
  rewrite stats_step_included by assumption. unfold counter_at.
  destruct (String.eqb_spec (sport_alias (mb_sport b)) s) as [<-|Hs]; simpl.
  - rewrite (dict_get_upd_same _ String.eqb_eq).
    destruct (String.eqb_spec (normalize_tournament_name (mb_tournament b)) t)
      as [<-|Ht].
    + rewrite (dict_get_upd_same _ String.eqb_eq).
      destruct (dict_get String.eqb _ stats) as [tm|]; simpl; [|reflexivity].
      now destruct (dict_get String.eqb _ tm).
    + rewrite (dict_get_upd_other _ String.eqb_eq) by congruence.
      destruct (dict_get String.eqb _ stats) as [tm|]; reflexivity.
  - rewrite (dict_get_upd_other _ String.eqb_eq) by congruence. reflexivity.
Qed.

Lemma count_if_cons {A : Type} (p : A -> bool) (x : A) (l : list A) :
  count_if p (x :: l) = (if p x then 1 else 0) + count_if p l.
Proof.
  unfold count_if. simpl. destruct (p x); simpl List.length; lia.
Qed.

Lemma counter_at_fold (s t : string) (data : list MatchBetTuple) :
  forall stats,
    c_total (counter_at (fold_left stats_step data stats) s t)
    = c_total (counter_at stats s t) + count_if (in_group s t) data /\
    c_wins (counter_at (fold_left stats_step data stats) s t)
    = c_wins (counter_at stats s t)
      + count_if (fun b => in_group s t b
                           && (lower (mb_result b) =? "win")%string) data.
Proof.
  induction data as [|b data IH]; intros stats; simpl.
  - unfold count_if. simpl. lia.
  - destruct (IH (stats_step stats b)) as [Ht Hw].
    rewrite Ht, Hw, counter_at_step, !count_if_cons.
    destruct (in_group s t b); cbn [andb]; [|lia].
    cbn [c_total c_wins].
    destruct (lower (mb_result b) =? "win")%string; lia.
Qed.

Lemma stats_step_wf (stats : StatsTree) (b : MatchBetTuple) :
  stats_wf stats -> stats_wf (stats_step stats b).
Proof.
  intros [Hk Hv]. destruct (in_view b) eqn:V.
  2: now rewrite stats_step_excluded.
  rewrite stats_step_included by assumption. split.
  - now apply (dict_upd_nodup _ String.eqb_eq).
  - apply (dict_upd_values _ (fun tm => NoDup (map fst tm))); [| |assumption].
    + simpl. repeat constructor. intros [].
    + intros tm. apply (dict_upd_nodup _ String.eqb_eq).
Qed.

Lemma collect_stats_wf (data : list MatchBetTuple) :
  stats_wf (collect_stats data).
Proof.
  unfold collect_stats.
  assert (H : stats_wf []) by (split; constructor).
  revert H. generalize (@nil (string * list (string * Counter))).
  induction data as [|b data IH]; intros stats H; simpl; [assumption|].
  apply IH. now apply stats_step_wf.
Qed.

Lemma counter_at_in (stats : StatsTree) (s t : string)
    (tm : list (string * Counter)) (c : Counter) :
  stats_wf stats -> In (s, tm) stats -> In (t, c) tm ->
  counter_at stats s t = c.
Proof.
  intros [Hk Hv] Hs Ht. unfold counter_at.
  rewrite (in_dict_get _ String.eqb_eq _ _ _ Hk Hs).
  rewrite Forall_forall in Hv. specialize (Hv _ Hs). simpl in Hv.
  now rewrite (in_dict_get _ String.eqb_eq _ _ _ Hv Ht).
Qed.

Lemma tree_entry (data : list MatchBetTuple) (sn : Node) (children : list Node) :
  In (sn, children) (statistics_tree data) ->
  exists s tm,
    In (s, tm) (collect_stats data) /\
    sn = node_of s (sport_total tm) /\
    children = map (fun t => node_of (fst t) (snd t))
                 (sorted_desc (fun t => c_total (snd t)) tm).
Proof.
  unfold statistics_tree. intros H.
  apply in_map_iff in H as ([s tm] & E & Hin).
  injection E as <- <-. exists s, tm. repeat split.
  eapply Permutation_in; [apply py_sorted_perm | exact Hin].
Qed.

Lemma children_totals (tm : list (string * Counter)) :
  sum_Z (map node_total
           (map (fun t => node_of (fst t) (snd t))
              (sorted_desc (fun t => c_total (snd t)) tm)))
  = c_total (sport_total tm).
Proof.
  rewrite map_map. simpl.
  apply sum_Z_perm, Permutation_map, py_sorted_perm.
Qed.


(** ** Floats: order and rounding *)

Lemma pow2_pos (k : Z) : 0 <= k -> 0 < 2 ^ k.
Proof. intros. apply Z.pow_pos_nonneg; lia. Qed.

Lemma pow2_split (a b : Z) : 0 <= a <= b -> 2 ^ b = 2 ^ a * 2 ^ (b - a).
Proof. intros. rewrite <- Z.pow_add_r by lia. f_equal. lia. Qed.

Lemma pow2_le (a b : Z) : 0 <= a <= b -> 2 ^ a <= 2 ^ b.
Proof. intros. apply Z.pow_le_mono_r; lia. Qed.

Lemma div_half_even_bounds (n d : Z) :
  0 <= n -> 0 < d -> n / d <= div_half_even n d <= n / d + 1.
Proof.
  intros Hn Hd. unfold div_half_even.
  destruct ((d <? 2 * (n mod d)) || _); lia.
Qed.

Lemma div_half_even_le (n d k : Z) :
  0 <= n -> 0 < d -> n <= k * d -> div_half_even n d <= k.
Proof.
  intros Hn Hd H. unfold div_half_even.
  pose proof (Z.div_mod n d ltac:(lia)) as E.
  pose proof (Z.mod_pos_bound n d Hd) as B.
  assert (Hq : n / d <= k) by (apply Z.div_le_upper_bound; lia).
  destruct ((d <? 2 * (n mod d)) || ((2 * (n mod d) =? d) && Z.odd (n / d))) eqn:C;
    [|lia].
  assert (n / d <> k); [|lia].
  intros Hk. rewrite Hk in *.
  assert (Hr : n mod d = 0) by nia.
  rewrite Hr in C.
  apply orb_true_iff in C as [C|C].
  - apply Z.ltb_lt in C. lia.
  - apply andb_true_iff in C as [C _]. apply Z.eqb_eq in C. lia.
Qed.

Lemma div_half_even_lt (n d k : Z) :
  0 <= n -> 0 < d -> 2 * n < (2 * k - 1) * d -> div_half_even n d <= k - 1.
Proof.
  intros Hn Hd H. unfold div_half_even.
  pose proof (Z.div_mod n d ltac:(lia)) as E.
  pose proof (Z.mod_pos_bound n d Hd) as B.
  assert (Hq : n / d < k) by (apply Z.div_lt_upper_bound; nia).
  destruct ((d <? 2 * (n mod d)) || ((2 * (n mod d) =? d) && Z.odd (n / d))) eqn:C;
    [|lia].
  assert (n / d <> k - 1); [|lia].
  intros Hk. rewrite Hk in *.
  apply orb_true_iff in C as [C|C].
  - apply Z.ltb_lt in C. nia.
  - apply andb_true_iff in C as [C _]. apply Z.eqb_eq in C. nia.
Qed.

Lemma div_half_even_mono (n1 n2 d : Z) :
  0 <= n1 <= n2 -> 0 < d -> div_half_even n1 d <= div_half_even n2 d.
Proof.
  intros Hn Hd.
  pose proof (div_half_even_bounds n1 d ltac:(lia) Hd) as B1.
  pose proof (div_half_even_bounds n2 d ltac:(lia) Hd) as B2.
  assert (Hq : n1 / d <= n2 / d) by (apply Z.div_le_mono; lia).
  destruct (Z.eq_dec (n1 / d) (n2 / d)) as [E|E]; [|lia].
  unfold div_half_even in *. rewrite <- E in *.
  pose proof (Z.div_mod n1 d ltac:(lia)) as E1.
  pose proof (Z.div_mod n2 d ltac:(lia)) as E2.
  rewrite <- E in E2.
  assert (Hr : n1 mod d <= n2 mod d) by lia.
  destruct ((d <? 2 * (n1 mod d)) || ((2 * (n1 mod d) =? d) && Z.odd (n1 / d))) eqn:C1;
  destruct ((d <? 2 * (n2 mod d)) || ((2 * (n2 mod d) =? d) && Z.odd (n1 / d))) eqn:C2;
    try lia.
  exfalso.
  apply orb_false_iff in C2 as [C2a C2b]. apply Z.ltb_ge in C2a.
  apply orb_true_iff in C1 as [C|C].
  - apply Z.ltb_lt in C. lia.
  - apply andb_true_iff in C as [Ca Cb]. apply Z.eqb_eq in Ca.
    rewrite Cb in C2b. rewrite andb_true_r in C2b. apply Z.eqb_neq in C2b. lia.
Qed.

Lemma round_ratio_eq (s : bool) (n d : Z) :
  0 < n ->
  round_ratio s n d
  = if rr_q n d =? 0 then S754_zero s
    else if 2045 <? rr_sh' n d then S754_infinity s
    else S754_finite s (Z.to_pos (if rr_q n d =? 2 ^ 53 then 2 ^ 52 else rr_q n d))
           (rr_sh' n d - 1074).
Proof.
  intros Hn. unfold round_ratio, rr_sh', rr_q, rr_sh.
  destruct (n <=? 0) eqn:E; [apply Z.leb_le in E; lia | reflexivity].
Qed.

Lemma rr_sh_nonneg (n d : Z) : 0 <= rr_sh n d.
Proof. unfold rr_sh. lia. Qed.

Lemma rr_q_range (n d : Z) :
  0 < n -> 0 < d ->
  0 <= rr_q n d <= 2 ^ 53 /\ (0 < rr_sh n d -> 2 ^ 52 <= rr_q n d).
Proof.
  intros Hn Hd. unfold rr_q.
  pose proof (rr_sh_nonneg n d) as Hsh.
  assert (Hp : 0 < 2 ^ 1074) by (apply pow2_pos; lia).
  assert (Hs : 0 < 2 ^ rr_sh n d) by (apply pow2_pos; lia).
  set (n0 := n * 2 ^ 1074) in *.
  assert (Hn0 : 0 < n0) by (unfold n0; nia).
  assert (HD : 0 < d * 2 ^ rr_sh n d) by nia.
  pose proof (div_half_even_bounds n0 _ ltac:(lia) HD) as B.
  pose proof (Z.div_mod n0 d ltac:(lia)) as Ey.
  pose proof (Z.mod_pos_bound n0 d Hd) as By.
  assert (Hy : 0 <= n0 / d) by (apply Z.div_pos; lia).
  unfold rr_sh in *. fold n0 in Hsh, Hs, HD, B |- *.
  set (y := n0 / d) in *. set (sh := Z.max (Z.log2 y - 52) 0) in *.
  split; [split|].
  - pose proof (Z.div_pos n0 (d * 2 ^ sh) ltac:(lia) HD). lia.
  - apply div_half_even_le; try lia.
    destruct (Z.eq_dec y 0) as [E0|E0].
    + assert (1 <= 2 ^ 53 * 2 ^ sh) by nia. nia.
    + destruct (Z.log2_spec y ltac:(lia)) as [_ Hu].
      assert (Hle : 2 ^ Z.succ (Z.log2 y) <= 2 ^ (53 + sh))
        by (apply Z.pow_le_mono_r; lia).
      rewrite Z.pow_add_r in Hle by lia. nia.
  - intros Hpos.
    assert (E0 : 0 < y).
    { destruct (Z.eq_dec y 0) as [E0|E0]; [|lia].
      assert (sh = 0) by (unfold sh; rewrite E0; reflexivity). lia. }
    destruct (Z.log2_spec y E0) as [Hl _].
    assert (El : Z.log2 y = 52 + sh) by lia.
    rewrite El, Z.pow_add_r in Hl by lia.
    assert (2 ^ 52 <= n0 / (d * 2 ^ sh)); [|lia].
    apply Z.div_le_lower_bound; [lia|]. nia.
Qed.

Lemma signed_zero (s : bool) : signed s 0 = 0.
Proof. now destruct s. Qed.

Lemma rho_round_ratio (s : bool) (n d : Z) :
  0 < n -> 0 < d ->
  rho (round_ratio s n d) = signed s (if rr_q n d =? 0 then 0 else rr_val n d).
Proof.
  intros Hn Hd. rewrite round_ratio_eq by assumption. unfold rr_val.
  destruct (rr_q_range n d Hn Hd) as [[Hq0 Hq1] Hq2].
  pose proof (rr_sh_nonneg n d) as Hsh.
  destruct (rr_q n d =? 0) eqn:E0; [cbn [rho]; now rewrite signed_zero|].
  apply Z.eqb_neq in E0.
  destruct (2045 <? rr_sh' n d) eqn:Eo; [reflexivity|].
  cbn [rho]. f_equal. unfold rr_sh'.
  destruct (rr_q n d =? 2 ^ 53) eqn:E53.
  - apply Z.eqb_eq in E53. rewrite E53.
    rewrite Z2Pos.id by (apply pow2_pos; lia).
    replace (rr_sh n d + 1 - 1074 + 1074) with (1 + rr_sh n d) by lia.
    rewrite Z.pow_add_r by lia. lia.
  - rewrite Z2Pos.id by lia. f_equal. f_equal. lia.
Qed.

Lemma rr_val_bounds (n d : Z) :
  0 < n -> 0 < d -> 0 <= rr_val n d <= big.
Proof.
  intros Hn Hd. unfold rr_val.
  destruct (rr_q_range n d Hn Hd) as [[Hq0 Hq1] Hq2].
  pose proof (rr_sh_nonneg n d) as Hsh.
  destruct (2045 <? rr_sh' n d) eqn:Eo; [unfold big; lia|].
  apply Z.ltb_ge in Eo. unfold rr_sh' in Eo.
  assert (Hs : rr_sh n d <= 2045) by (destruct (rr_q n d =? 2 ^ 53); lia).
  assert (Hp : 0 < 2 ^ rr_sh n d) by (apply pow2_pos; lia).
  pose proof (pow2_le (rr_sh n d) 2045 ltac:(lia)) as Hle.
  split; [nia|].
  assert (rr_q n d * 2 ^ rr_sh n d <= 2 ^ 53 * 2 ^ 2045) by nia.
  unfold big. lia.
Qed.

Lemma round_ratio_valid (s : bool) (n d : Z) :
  0 < d -> valid_float (round_ratio s n d) = true.
Proof.
  intros Hd. destruct (Z_lt_le_dec 0 n) as [Hn|Hn].
  2: { unfold round_ratio. destruct (n <=? 0) eqn:E; [reflexivity|].
       apply Z.leb_gt in E. lia. }
  rewrite round_ratio_eq by assumption.
  destruct (rr_q_range n d Hn Hd) as [[Hq0 Hq1] Hq2].
  pose proof (rr_sh_nonneg n d) as Hsh.
  destruct (rr_q n d =? 0) eqn:E0; [reflexivity|]. apply Z.eqb_neq in E0.
  destruct (2045 <? rr_sh' n d) eqn:Eo; [reflexivity|]. apply Z.ltb_ge in Eo.
  unfold valid_float. unfold rr_sh' in *.
  destruct (rr_q n d =? 2 ^ 53) eqn:E53.
  - rewrite Z2Pos.id by lia. repeat (apply andb_true_iff; split).
    + reflexivity.
    + apply Z.leb_le. lia.
    + apply Z.leb_le. lia.
    + reflexivity.
  - apply Z.eqb_neq in E53. rewrite Z2Pos.id by lia.
    repeat (apply andb_true_iff; split).
    + apply Z.ltb_lt. lia.
    + apply Z.leb_le. lia.
    + apply Z.leb_le. lia.
    + apply orb_true_iff.
      destruct (Z.eq_dec (rr_sh n d) 0) as [Ez|Ez].
      * right. apply Z.eqb_eq. lia.
      * left. apply Z.leb_le. apply Hq2. lia.
Qed.

Lemma round_ratio_mono (n1 n2 d : Z) :
  0 < n1 <= n2 -> 0 < d ->
  rho (round_ratio false n1 d) <= rho (round_ratio false n2 d).
Proof.
  intros Hn Hd. rewrite !rho_round_ratio by lia. cbn [signed].
  destruct (rr_q_range n1 d ltac:(lia) Hd) as [[Ha0 Ha1] Ha2].
  destruct (rr_q_range n2 d ltac:(lia) Hd) as [[Hb0 Hb1] Hb2].
  pose proof (rr_val_bounds n1 d ltac:(lia) Hd) as Va.
  pose proof (rr_val_bounds n2 d ltac:(lia) Hd) as Vb.
  pose proof (rr_sh_nonneg n1 d) as Hs1.
  pose proof (rr_sh_nonneg n2 d) as Hs2.
  assert (Hp : 0 < 2 ^ 1074) by (apply pow2_pos; lia).
  assert (Hsh : rr_sh n1 d <= rr_sh n2 d).
  { unfold rr_sh. apply Z.max_le_compat_r.
    apply Z.sub_le_mono_r, Z.log2_le_mono, Z.div_le_mono; nia. }
  assert (P1 : 0 < 2 ^ rr_sh n1 d) by (apply pow2_pos; lia).
  assert (P2 : 0 < 2 ^ rr_sh n2 d) by (apply pow2_pos; lia).
  revert Va Vb. unfold rr_val, rr_sh'.
  destruct (Z.eq_dec (rr_sh n1 d) (rr_sh n2 d)) as [E|E].
  - assert (Hq : rr_q n1 d <= rr_q n2 d).
    { unfold rr_q. rewrite E. apply div_half_even_mono; nia. }
    rewrite E in *.
    destruct (Z.eqb_spec (rr_q n1 d) 0), (Z.eqb_spec (rr_q n2 d) 0),
      (Z.eqb_spec (rr_q n1 d) (2 ^ 53)), (Z.eqb_spec (rr_q n2 d) (2 ^ 53)),
      (Z.ltb_spec 2045 (rr_sh n2 d + 1)), (Z.ltb_spec 2045 (rr_sh n2 d));
      intros Va Vb; try lia; nia.
  - assert (Hlt : rr_sh n1 d + 1 <= rr_sh n2 d) by lia.
    specialize (Hb2 ltac:(lia)).
    pose proof (pow2_split (rr_sh n1 d + 1) (rr_sh n2 d) ltac:(lia)) as Sp.
    rewrite Z.pow_add_r in Sp by lia.
    assert (Pd : 0 < 2 ^ (rr_sh n2 d - (rr_sh n1 d + 1))) by (apply pow2_pos; lia).
    assert (Key : rr_q n1 d * 2 ^ rr_sh n1 d <= rr_q n2 d * 2 ^ rr_sh n2 d).
    { rewrite Sp. change (2 ^ 1) with 2.
      assert (rr_q n1 d * 2 ^ rr_sh n1 d <= 2 ^ 53 * 2 ^ rr_sh n1 d) by nia.
      assert (2 ^ 52 * (2 ^ rr_sh n1 d * 2 * 1)
              <= rr_q n2 d * (2 ^ rr_sh n1 d * 2
                              * 2 ^ (rr_sh n2 d - (rr_sh n1 d + 1)))); [|lia].
      apply Z.mul_le_mono_nonneg; try lia. nia. }
    destruct (Z.eqb_spec (rr_q n1 d) 0), (Z.eqb_spec (rr_q n2 d) 0),
      (Z.eqb_spec (rr_q n1 d) (2 ^ 53)), (Z.eqb_spec (rr_q n2 d) (2 ^ 53)),
      (Z.ltb_spec 2045 (rr_sh n1 d + 1)), (Z.ltb_spec 2045 (rr_sh n1 d)),
      (Z.ltb_spec 2045 (rr_sh n2 d + 1)), (Z.ltb_spec 2045 (rr_sh n2 d));
      intros Va Vb; lia.
Qed.

Lemma valid_finite (s : bool) (m : positive) (e : Z) :
  valid_float (S754_finite s m e) = true ->
  Zpos m < 2 ^ 53 /\ -1074 <= e <= 971 /\ (2 ^ 52 <= Zpos m \/ e = -1074).
Proof.
  unfold valid_float. intros H.
  apply andb_true_iff in H as [H H4]. apply andb_true_iff in H as [H H3].
  apply andb_true_iff in H as [H1 H2].
  apply Z.ltb_lt in H1. apply Z.leb_le in H2, H3.
  apply orb_true_iff in H4 as [H4|H4];
    [apply Z.leb_le in H4 | apply Z.eqb_eq in H4]; lia.
Qed.

Lemma mag_bounds (s : bool) (m : positive) (e : Z) :
  valid_float (S754_finite s m e) = true ->
  0 < Zpos m * 2 ^ (e + 1074) < big.
Proof.
  intros H. apply valid_finite in H as (Hm & He & _).
  assert (P : 0 < 2 ^ (e + 1074)) by (apply pow2_pos; lia).
  pose proof (pow2_le (e + 1074) 2045 ltac:(lia)) as Hle.
  split; [nia|].
  assert (Zpos m * 2 ^ (e + 1074) < 2 ^ 53 * 2 ^ 2045) by nia.
  unfold big. lia.
Qed.

Lemma mag_compare (s1 s2 : bool) (m1 m2 : positive) (e1 e2 : Z) :
  valid_float (S754_finite s1 m1 e1) = true ->
  valid_float (S754_finite s2 m2 e2) = true ->
  (Zpos m1 * 2 ^ (e1 + 1074) ?= Zpos m2 * 2 ^ (e2 + 1074))
  = match e1 ?= e2 with
    | Lt => Lt
    | Gt => Gt
    | Eq => Pos.compare_cont Eq m1 m2
    end.
Proof.
  intros H1 H2.
  apply valid_finite in H1 as (Hm1 & He1 & N1).
  apply valid_finite in H2 as (Hm2 & He2 & N2).
  assert (Step : forall ma mb ea eb,
             0 < ma < 2 ^ 53 -> 2 ^ 52 <= mb -> -1074 <= ea < eb ->
             ma * 2 ^ (ea + 1074) < mb * 2 ^ (eb + 1074)).
  { intros ma mb ea eb Ha Hb He.
    rewrite (pow2_split (ea + 1074 + 1) (eb + 1074)) by lia.
    rewrite (Z.pow_add_r 2 (ea + 1074) 1) by lia. change (2 ^ 1) with 2.
    assert (P : 0 < 2 ^ (ea + 1074)) by (apply pow2_pos; lia).
    assert (Q : 0 < 2 ^ (eb + 1074 - (ea + 1074 + 1))) by (apply pow2_pos; lia).
    assert (ma * 2 ^ (ea + 1074) < 2 ^ 53 * 2 ^ (ea + 1074)) by nia.
    assert (2 ^ 52 * (2 ^ (ea + 1074) * 2 * 1)
            <= mb * (2 ^ (ea + 1074) * 2 * 2 ^ (eb + 1074 - (ea + 1074 + 1))));
      [|lia].
    apply Z.mul_le_mono_nonneg; try lia. nia. }
  destruct (Z.compare_spec e1 e2) as [E|E|E].
  - subst e2. rewrite <- Zmult_compare_compat_r by (apply Z.lt_gt, pow2_pos; lia).
    reflexivity.
  - apply Z.compare_lt_iff, Step; lia.
  - apply Z.compare_gt_iff, Step; lia.
Qed.

Lemma rho_compare (x y : float) :
  valid_float x = true -> valid_float y = true ->
  is_nan x = false -> is_nan y = false ->
  SFcompare x y = Some (rho x ?= rho y).
Proof.
  intros Vx Vy Nx Ny.
  destruct x as [sx|sx| |sx mx ex], y as [sy|sy| |sy my ey];
    try discriminate; cbn [SFcompare rho]; f_equal;
    try pose proof (mag_bounds _ _ _ Vx) as Bx;
    try pose proof (mag_bounds _ _ _ Vy) as By;
    try pose proof (mag_compare _ _ _ _ _ _ Vx Vy) as Cxy;
    try pose proof (mag_compare _ _ _ _ _ _ Vy Vx) as Cyx;
    clear Vx Vy Nx Ny;
    try destruct sx; try destruct sy; cbn [signed];
    first [ reflexivity
          | symmetry; apply Z.compare_lt_iff; lia
          | symmetry; apply Z.compare_gt_iff; lia
          | now rewrite Cxy
          | idtac ].
  rewrite Z.compare_opp, Cyx, (Z.compare_antisym ex ey), (ZC4 my mx).
  destruct (ex ?= ey); reflexivity.
Qed.

Lemma flt_rho (x y : float) :
  ordered x -> ordered y -> flt x y = (rho x <? rho y).
Proof.
  intros [Vx Nx] [Vy Ny]. unfold flt, SFltb, Z.ltb.
  rewrite (rho_compare x y) by assumption. now destruct (rho x ?= rho y).
Qed.

Lemma fle_rho (x y : float) :
  ordered x -> ordered y -> fle x y = (rho x <=? rho y).
Proof.
  intros [Vx Nx] [Vy Ny]. unfold fle, SFleb, Z.leb.
  rewrite (rho_compare x y) by assumption. now destruct (rho x ?= rho y).
Qed.

Lemma feq_rho (x y : float) :
  ordered x -> ordered y -> feq x y = (rho x =? rho y).
Proof.
  intros [Vx Nx] [Vy Ny]. unfold feq, SFeqb.
  rewrite (rho_compare x y) by assumption.
  destruct (Z.eqb_spec (rho x) (rho y)) as [E|E].
  - now rewrite E, Z.compare_refl.
  - destruct (Z.compare_spec (rho x) (rho y)); [contradiction|reflexivity..].
Qed.

Lemma flt_nan_l (x y : float) : is_nan x = true -> flt x y = false.
Proof. destruct x; try discriminate. reflexivity. Qed.

Lemma flt_nan_r (x y : float) : is_nan y = true -> flt x y = false.
Proof. destruct y; try discriminate. now destruct x. Qed.

Lemma div_half_even_scale (n d c : Z) :
  0 < c -> 0 < d -> div_half_even (n * c) (d * c) = div_half_even n d.
Proof.
  intros Hc Hd. unfold div_half_even.
  rewrite Z.div_mul_cancel_r, Z.mul_mod_distr_r by lia.
  pose proof (Z.mod_pos_bound n d Hd) as B.
  replace (d * c <? 2 * (n mod d * c)) with (d <? 2 * (n mod d))
    by (destruct (Z.ltb_spec d (2 * (n mod d))),
                 (Z.ltb_spec (d * c) (2 * (n mod d * c))); try reflexivity; nia).
  replace (2 * (n mod d * c) =? d * c) with (2 * (n mod d) =? d)
    by (destruct (Z.eqb_spec (2 * (n mod d)) d),
                 (Z.eqb_spec (2 * (n mod d * c)) (d * c)); try reflexivity; nia).
  reflexivity.
Qed.

Lemma round_ratio_scale (s : bool) (n d c : Z) :
  0 < c -> 0 < d -> round_ratio s (n * c) (d * c) = round_ratio s n d.
Proof.
  intros Hc Hd. unfold round_ratio.
  replace (n * c <=? 0) with (n <=? 0)
    by (destruct (Z.leb_spec n 0), (Z.leb_spec (n * c) 0); try reflexivity; nia).
  replace (n * c * 2 ^ 1074) with (n * 2 ^ 1074 * c) by lia.
  rewrite Z.div_mul_cancel_r by lia.
  set (sh := Z.max (Z.log2 (n * 2 ^ 1074 / d) - 52) 0).
  replace (d * c * 2 ^ sh) with (d * 2 ^ sh * c) by lia.
  assert (0 < 2 ^ sh) by (apply pow2_pos; unfold sh; lia).
  rewrite div_half_even_scale by nia. reflexivity.
Qed.

Lemma fsub_one_finite (s : bool) (m : positive) (e : Z) :
  valid_float (S754_finite s m e) = true ->
  fsub (S754_finite s m e) f_one
  = round_units (rho (S754_finite s m e) - 2 ^ 1074).
Proof.
  intros V. apply valid_finite in V as (Hm & He & _).
  unfold fsub, f_one, round_units, round_dyadic. cbn [rho].
  set (ez := Z.min e (-52)).
  set (v := signed s (Z.pos m * 2 ^ (e - ez))
            - signed false (4503599627370496 * 2 ^ (-52 - ez))).
  set (c := 2 ^ (ez + 1074)).
  assert (Hez : -1074 <= ez <= -52) by (unfold ez; lia).
  assert (Hc : 0 < c) by (apply pow2_pos; lia).
  assert (EV : signed s (Z.pos m * 2 ^ (e + 1074)) - 2 ^ 1074 = v * c).
  { assert (E1 : 4503599627370496 * 2 ^ (-52 - ez) * 2 ^ (ez + 1074) = 2 ^ 1074).
    { rewrite <- Z.mul_assoc, <- Z.pow_add_r by lia.
      replace (-52 - ez + (ez + 1074)) with 1022 by lia. reflexivity. }
    assert (E2 : Z.pos m * 2 ^ (e - ez) * 2 ^ (ez + 1074)
                 = Z.pos m * 2 ^ (e + 1074)).
    { rewrite <- Z.mul_assoc, <- Z.pow_add_r by lia. do 2 f_equal. lia. }
    unfold v, c. rewrite Z.mul_sub_distr_r. cbn [signed]. rewrite E1.
    destruct s; cbn [signed]; rewrite ?Z.mul_opp_l, E2; reflexivity. }
  rewrite EV.
  replace (v * c =? 0) with (v =? 0)
    by (destruct (Z.eqb_spec v 0), (Z.eqb_spec (v * c) 0); try reflexivity; nia).
  destruct (v =? 0) eqn:E0; [reflexivity|].
  replace (v * c <? 0) with (v <? 0)
    by (destruct (Z.ltb_spec v 0), (Z.ltb_spec (v * c) 0); try reflexivity; nia).
  rewrite Z.abs_mul, (Z.abs_eq c) by lia.
  unfold num_at, den_at.
  destruct (Z.ltb_spec (- ez) 0) as [Hn|Hn]; [lia|].
  replace (2 ^ 1074) with (1 * 2 ^ (- ez) * c).
  2:{ unfold c. rewrite Z.mul_1_l, <- Z.pow_add_r by lia. f_equal. lia. }
  assert (0 < 2 ^ (- ez)) by (apply pow2_pos; lia).
  rewrite round_ratio_scale by lia. reflexivity.
Qed.

Lemma round_ratio_not_nan (s : bool) (n d : Z) :
  is_nan (round_ratio s n d) = false.
Proof.
  unfold round_ratio.
  repeat match goal with |- context [if ?b then _ else _] => destruct b end;
    reflexivity.
Qed.

Lemma rho_round_ratio_opp (n d : Z) :
  0 < n -> 0 < d ->
  rho (round_ratio true n d) = - rho (round_ratio false n d).
Proof. intros. rewrite !rho_round_ratio by assumption. reflexivity. Qed.

Lemma rho_round_ratio_range (n d : Z) :
  0 < n -> 0 < d -> 0 <= rho (round_ratio false n d) <= big.
Proof.
  intros Hn Hd. rewrite rho_round_ratio by assumption. cbn [signed].
  pose proof (rr_val_bounds n d Hn Hd).
  destruct (rr_q n d =? 0); [unfold big|]; lia.
Qed.

Lemma round_units_range (v : Z) : - big <= rho (round_units v) <= big.
Proof.
  unfold round_units. assert (P : 0 < 2 ^ 1074) by (apply pow2_pos; lia).
  destruct (Z.eqb_spec v 0) as [E|E]; [cbn [rho]; unfold big; lia|].
  destruct (Z.ltb_spec v 0) as [L|L].
  - rewrite rho_round_ratio_opp by lia.
    pose proof (rho_round_ratio_range (Z.abs v) _ ltac:(lia) P). lia.
  - pose proof (rho_round_ratio_range (Z.abs v) _ ltac:(lia) P). lia.
Qed.

Lemma round_units_mono (v1 v2 : Z) :
  v1 <= v2 -> rho (round_units v1) <= rho (round_units v2).
Proof.
  intros H. unfold round_units.
  assert (P : 0 < 2 ^ 1074) by (apply pow2_pos; lia).
  destruct (Z.eqb_spec v1 0) as [E1|E1], (Z.eqb_spec v2 0) as [E2|E2];
    destruct (Z.ltb_spec v1 0) as [L1|L1], (Z.ltb_spec v2 0) as [L2|L2];
    try lia; cbn [rho];
    rewrite ?rho_round_ratio_opp by lia;
    try pose proof (rho_round_ratio_range (Z.abs v1) _ ltac:(lia) P);
    try pose proof (rho_round_ratio_range (Z.abs v2) _ ltac:(lia) P);
    try lia.
  - pose proof (round_ratio_mono (Z.abs v2) (Z.abs v1) _ ltac:(lia) P). lia.
  - apply round_ratio_mono; lia.
Qed.

Lemma round_units_valid (v : Z) : valid_float (round_units v) = true.
Proof.
  unfold round_units. destruct (v =? 0); [reflexivity|].
  apply round_ratio_valid, pow2_pos. lia.
Qed.

Lemma round_units_not_nan (v : Z) : is_nan (round_units v) = false.
Proof.
  unfold round_units. destruct (v =? 0); [reflexivity|].
  apply round_ratio_not_nan.
Qed.

(** [x - 1.0] through the rank of [x]. *)
Lemma fsub_one_spec (x : float) :
  valid_float x = true ->
  fsub x f_one
  = match x with
    | S754_nan => S754_nan
    | S754_infinity s => S754_infinity s
    | _ => round_units (rho x - 2 ^ 1074)
    end.
Proof.
  intros V. destruct x as [s|s| |s m e].
  - destruct s; vm_compute; reflexivity.
  - reflexivity.
  - reflexivity.
  - now apply fsub_one_finite.
Qed.

Lemma big_pos : 0 < big.
Proof. unfold big. apply pow2_pos. lia. Qed.

Lemma fsub_one_ordered (x : float) :
  ordered x -> ordered (fsub x f_one).
Proof.
  intros [V N]. rewrite fsub_one_spec by assumption.
  destruct x as [s|s| |s m e].
  - split; [apply round_units_valid | apply round_units_not_nan].
  - split; reflexivity.
  - discriminate N.
  - split; [apply round_units_valid | apply round_units_not_nan].
Qed.

Lemma rho_finite_range (x : float) :
  ordered x -> is_inf x = false -> - big < rho x < big.
Proof.
  intros [V N] I. pose proof big_pos as B.
  destruct x as [s|s| |s m e]; cbn [rho].
  - lia.
  - discriminate I.
  - lia.
  - pose proof (mag_bounds _ _ _ V). destruct s; cbn [signed]; lia.
Qed.

Lemma rho_fsub_one (x : float) :
  ordered x ->
  rho (fsub x f_one)
  = if is_inf x then rho x else rho (round_units (rho x - 2 ^ 1074)).
Proof.
  intros [V N]. rewrite fsub_one_spec by assumption.
  destruct x as [s|s| |s m e]; try reflexivity. discriminate N.
Qed.

Lemma fsub_one_mono (x y : float) :
  ordered x -> ordered y -> rho x <= rho y ->
  rho (fsub x f_one) <= rho (fsub y f_one).
Proof.
  intros Ox Oy H. rewrite !rho_fsub_one by assumption.
  pose proof big_pos as B.
  pose proof (round_units_range (rho x - 2 ^ 1074)) as Rx.
  pose proof (round_units_range (rho y - 2 ^ 1074)) as Ry.
  destruct (is_inf x) eqn:Ix, (is_inf y) eqn:Iy.
  - exact H.
  - pose proof (rho_finite_range y Oy Iy) as Fy.
    destruct x as [s|s| |s m e]; try discriminate Ix.
    cbn [rho] in *. destruct s; cbn [signed] in *; lia.
  - pose proof (rho_finite_range x Ox Ix) as Fx.
    destruct y as [s|s| |s m e]; try discriminate Iy.
    cbn [rho] in *. destruct s; cbn [signed] in *; lia.
  - apply round_units_mono. lia.
Qed.

Lemma den_at_pos (e d : Z) : 0 < d -> 0 < den_at e d.
Proof.
  intros Hd. unfold den_at. destruct (Z.ltb_spec e 0); [assumption|].
  assert (0 < 2 ^ e) by (apply pow2_pos; lia). nia.
Qed.

Lemma num_at_nonneg (e n : Z) : 0 <= n -> 0 <= num_at e n.
Proof.
  intros Hn. unfold num_at. destruct (Z.ltb_spec e 0); [|assumption].
  assert (0 < 2 ^ (- e)) by (apply pow2_pos; lia). nia.
Qed.

Lemma round_dyadic_valid (s : bool) (m e : Z) :
  valid_float (round_dyadic s m e) = true.
Proof. apply round_ratio_valid, den_at_pos. lia. Qed.

Lemma fmul_valid (x y : float) : valid_float (fmul x y) = true.
Proof.
  destruct x as [sx|sx| |sx mx ex], y as [sy|sy| |sy my ey];
    try reflexivity. apply round_dyadic_valid.
Qed.

(** The quotient of two counts [0 <= w <= t] lies between 0.0 and 1.0. *)
Lemma int_true_div_unit (w t : Z) :
  0 <= w <= t -> 0 < t ->
  fle f_zero (int_true_div w t) = true /\
  fle (int_true_div w t) f_one = true.
Proof.
  intros Hw Ht. unfold int_true_div.
  assert (O1 : ordered f_one) by (split; reflexivity).
  assert (O0 : ordered f_zero) by (split; reflexivity).
  assert (Or : ordered (round_ratio false w t))
    by (split; [now apply round_ratio_valid | apply round_ratio_not_nan]).
  rewrite !fle_rho by assumption.
  assert (R1 : rho f_one = 2 ^ 1074) by reflexivity.
  rewrite R1. change (rho f_zero) with 0.
  assert (P : 0 < 2 ^ 1074) by (apply pow2_pos; lia).
  destruct (Z.eq_dec w 0) as [E|E].
  { subst w. change (round_ratio false 0 t) with (S754_zero false).
    cbn [rho]. split; apply Z.leb_le; lia. }
  assert (Hn : 0 < w) by lia.
  pose proof (rho_round_ratio_range w t Hn Ht) as [Lo _].
  split; apply Z.leb_le; [exact Lo|].
  rewrite rho_round_ratio by assumption. cbn [signed].
  destruct (rr_q_range w t Hn Ht) as [[Hq0 Hq1] _].
  assert (Hy : w * 2 ^ 1074 / t <= 2 ^ 1074)
    by (apply Z.div_le_upper_bound; nia).
  assert (Hsh : 0 <= rr_sh w t <= 1022).
  { unfold rr_sh. apply Z.log2_le_mono in Hy.
    rewrite Z.log2_pow2 in Hy by lia. lia. }
  assert (Hp : 2 ^ 1074 = 2 ^ (1074 - rr_sh w t) * 2 ^ rr_sh w t)
    by (rewrite <- Z.pow_add_r by lia; f_equal; lia).
  assert (Ps : 0 < 2 ^ rr_sh w t) by (apply pow2_pos; lia).
  assert (Hq : rr_q w t <= 2 ^ (1074 - rr_sh w t)).
  { unfold rr_q. apply div_half_even_le; [nia|nia|].
    rewrite (Z.mul_comm t), Z.mul_assoc, <- Hp. nia. }
  unfold rr_val, rr_sh'.
  destruct (Z.eqb_spec (rr_q w t) 0); [lia|].
  destruct (Z.eqb_spec (rr_q w t) (2 ^ 53));
    destruct (Z.ltb_spec 2045 (rr_sh w t + 1));
    destruct (Z.ltb_spec 2045 (rr_sh w t)); try lia;
    rewrite Hp; apply Z.mul_le_mono_nonneg_r; lia.
Qed.

Lemma div_half_even_one (n : Z) : div_half_even n 1 = n.
Proof.
  unfold div_half_even. rewrite Z.div_1_r, Z.mod_1_r. reflexivity.
Qed.

Lemma rr_no_overflow (n d : Z) :
  0 < n -> 0 < d ->
  2 * (n * 2 ^ 1074) < (2 * 2 ^ 53 - 1) * (d * 2 ^ 2045) ->
  rr_sh' n d <= 2045.
Proof.
  intros Hn Hd H.
  assert (P : 0 < 2 ^ 1074) by (apply pow2_pos; lia).
  assert (Hy : n * 2 ^ 1074 / d < 2 ^ 2098).
  { apply Z.div_lt_upper_bound; [lia|].
    change (2 ^ 2098) with (2 ^ 53 * 2 ^ 2045). nia. }
  assert (Hy0 : 0 <= n * 2 ^ 1074 / d) by (apply Z.div_pos; nia).
  assert (Hl : Z.log2 (n * 2 ^ 1074 / d) < 2098).
  { destruct (Z.eq_dec (n * 2 ^ 1074 / d) 0) as [E|E].
    - rewrite E. reflexivity.
    - apply Z.log2_lt_pow2; lia. }
  assert (Hsh : rr_sh n d <= 2045) by (unfold rr_sh; lia).
  unfold rr_sh'. destruct (Z.eqb_spec (rr_q n d) (2 ^ 53)) as [E|E]; [|lia].
  destruct (Z.eq_dec (rr_sh n d) 2045) as [E5|E5]; [|lia].
  exfalso. unfold rr_q in E. rewrite E5 in E.
  pose proof (div_half_even_lt (n * 2 ^ 1074) (d * 2 ^ 2045) (2 ^ 53)
                ltac:(nia) ltac:(nia) H). lia.
Qed.

Lemma round_ratio_finite (s : bool) (n d : Z) :
  0 < d ->
  (0 < n -> 2 * (n * 2 ^ 1074) < (2 * 2 ^ 53 - 1) * (d * 2 ^ 2045)) ->
  is_inf (round_ratio s n d) = false.
Proof.
  intros Hd H. destruct (Z_lt_le_dec 0 n) as [Hn|Hn].
  - rewrite round_ratio_eq by assumption.
    pose proof (rr_no_overflow n d Hn Hd (H Hn)) as Ho.
    destruct (rr_q n d =? 0); [reflexivity|].
    destruct (Z.ltb_spec 2045 (rr_sh' n d)); [lia | reflexivity].
  - unfold round_ratio. destruct (Z.leb_spec n 0); [reflexivity | lia].
Qed.

Lemma py_round4_some (x : float) :
  valid_float x = true -> exists k, py_round4 x = Some k.
Proof.
  intros V. destruct x as [s|s| |s m e]; try (eexists; reflexivity).
  unfold py_round4.
  set (n := div_half_even _ _).
  assert (F : is_inf (round_ratio s n 10000) = false).
  { apply round_ratio_finite; [lia|]. intros Hn.
    apply valid_finite in V as (Hm & He & _).
    assert (Bn : n <= (2 ^ 53 - 1) * 2 ^ 971 * 10000).
    { unfold n, num_at, den_at. destruct (Z.ltb_spec (- e) 0) as [L|L].
      - rewrite div_half_even_one, Z.opp_involutive.
        pose proof (pow2_le e 971 ltac:(lia)) as Hp.
        assert (0 < 2 ^ e) by (apply pow2_pos; lia).
        assert (Z.pos m * 2 ^ e <= (2 ^ 53 - 1) * 2 ^ 971)
          by (apply Z.mul_le_mono_nonneg; lia).
        lia.
      - assert (D : 0 < 1 * 2 ^ (- e)) by (rewrite Z.mul_1_l; apply pow2_pos; lia).
        pose proof (div_half_even_bounds (Z.pos m * 10000) _ ltac:(lia) D) as B.
        assert (Z.pos m * 10000 / (1 * 2 ^ (- e)) <= Z.pos m * 10000)
          by (apply Z.div_le_upper_bound; nia).
        lia. }
    change (2 ^ 2045) with (2 ^ 971 * 2 ^ 1074).
    assert (P : 0 < 2 ^ 1074) by (apply pow2_pos; lia).
    nia. }
  destruct (round_ratio s n 10000); try discriminate F; eexists; reflexivity.
Qed.

Lemma py_round4_ordered (x k : float) :
  py_round4 x = Some k ->
  valid_float k = true /\ (is_nan x = false -> is_nan k = false).
Proof.
  destruct x as [s|s| |s m e]; cbn [py_round4].
  - intros [= <-]. split; reflexivity.
  - intros [= <-]. split; reflexivity.
  - intros [= <-]. split; [reflexivity | discriminate].
  - set (n := div_half_even _ _).
    pose proof (round_ratio_valid s n 10000 ltac:(lia)) as V.
    pose proof (round_ratio_not_nan s n 10000) as N.
    destruct (round_ratio s n 10000); intros [= <-]; auto.
Qed.

(** ** Comparison of two sides *)

Lemma is_nan_true (x : float) : is_nan x = true -> x = S754_nan.
Proof. destruct x; try discriminate. reflexivity. Qed.

(** How the order of two scores [x] and [y] and the order of the EVs
    [x - 1.0] and [y - 1.0] are related. *)
Lemma ev_order (x y : float) :
  valid_float x = true -> valid_float y = true ->
  (flt (fsub y f_one) (fsub x f_one) = true -> flt y x = true) /\
  (flt y x = true -> fle (fsub y f_one) (fsub x f_one) = true) /\
  (feq x y = true -> feq (fsub x f_one) (fsub y f_one) = true) /\
  (flt x y = true -> flt y x = false).
Proof.
  intros Vx Vy.
  destruct (is_nan x) eqn:Nx.
  { apply is_nan_true in Nx. subst x.
    change (fsub S754_nan f_one) with S754_nan.
    rewrite (flt_nan_r _ S754_nan eq_refl), (flt_nan_r y S754_nan eq_refl),
      (flt_nan_l S754_nan y eq_refl).
    repeat split; discriminate. }
  destruct (is_nan y) eqn:Ny.
  { apply is_nan_true in Ny. subst y.
    change (fsub S754_nan f_one) with S754_nan.
    rewrite (flt_nan_l S754_nan _ eq_refl), (flt_nan_l S754_nan x eq_refl),
      (flt_nan_r x S754_nan eq_refl).
    repeat split; try discriminate. destruct x; discriminate. }
  assert (Ox : ordered x) by (split; assumption).
  assert (Oy : ordered y) by (split; assumption).
  pose proof (fsub_one_ordered _ Ox) as Ex.
  pose proof (fsub_one_ordered _ Oy) as Ey.
  pose proof (fsub_one_mono x y Ox Oy) as Mxy.
  pose proof (fsub_one_mono y x Oy Ox) as Myx.
  rewrite (flt_rho _ _ Ey Ex), (fle_rho _ _ Ey Ex), (feq_rho _ _ Ex Ey),
    (flt_rho _ _ Oy Ox), (flt_rho _ _ Ox Oy), (feq_rho _ _ Ox Oy).
  repeat split.
  - intros H. apply Z.ltb_lt in H. apply Z.ltb_lt. lia.
  - intros H. apply Z.ltb_lt in H. apply Z.leb_le. lia.
  - intros H. apply Z.eqb_eq in H. apply Z.eqb_eq. lia.
  - intros H. apply Z.ltb_lt in H. apply Z.ltb_ge. lia.
Qed.

Lemma feq_not_lt (x y : float) :
  valid_float x = true -> valid_float y = true ->
  feq x y = true -> flt x y = false /\ flt y x = false.
Proof.
  intros Vx Vy H.
  destruct (is_nan x) eqn:Nx.
  { apply is_nan_true in Nx. subst x. discriminate H. }
  destruct (is_nan y) eqn:Ny.
  { apply is_nan_true in Ny. subst y. destruct x; discriminate H. }
  assert (Ox : ordered x) by (split; assumption).
  assert (Oy : ordered y) by (split; assumption).
  rewrite (feq_rho _ _ Ox Oy) in H. apply Z.eqb_eq in H.
  rewrite (flt_rho _ _ Ox Oy), (flt_rho _ _ Oy Ox).
  split; apply Z.ltb_ge; lia.
Qed.

(** C6, as the code has it: the verdict compares the scores, and two
    different scores can have the same EV, because the subtraction of 1.0
    rounds.  With the win-rate 0.25 on both sides, the odds 1.5000000000000002
    (the float after 1.5) score higher than the odds 1.5 and are declared
    better, while both EVs are -0.625. *)
Lemma C6_better_side_with_equal_ev :
  compare_scores f_quarter f_1_5_next f_quarter f_1_5 = BetterA /\
  ev_of f_quarter f_1_5_next = ev_of f_quarter f_1_5 /\
  fgt (ev_of f_quarter f_1_5_next) (ev_of f_quarter f_1_5) = false.
Proof. vm_compute. repeat split. Qed.

(** C6, amended: the verdict is the comparison of the two scores
    [wr * odds]: side A is declared better exactly when its score is greater,
    side B exactly when its score is greater, and the sides are declared
    equal otherwise.  It agrees with the order of the EVs up to the rounding
    of the subtraction: whenever EV_a > EV_b side A is declared better and
    whenever EV_b > EV_a side B is; a side declared better has an EV that is
    not smaller than the other's (it can be equal); equal scores have equal
    EVs and are declared equal. *)
Theorem C6_verdict_follows_scores (wr_a odds_a wr_b odds_b : float) :
  let score_a := fmul wr_a odds_a in
  let score_b := fmul wr_b odds_b in
  let ev_a := ev_of wr_a odds_a in
  let ev_b := ev_of wr_b odds_b in
  let verdict := compare_scores wr_a odds_a wr_b odds_b in
  (verdict = BetterA <-> fgt score_a score_b = true) /\
  (verdict = BetterB <-> fgt score_b score_a = true) /\
  (verdict = BothEqual <->
   fgt score_a score_b = false /\ fgt score_b score_a = false) /\
  (fgt ev_a ev_b = true -> verdict = BetterA) /\
  (fgt ev_b ev_a = true -> verdict = BetterB) /\
  (verdict = BetterA -> fle ev_b ev_a = true) /\
  (verdict = BetterB -> fle ev_a ev_b = true) /\
  (feq score_a score_b = true ->
   verdict = BothEqual /\ feq ev_a ev_b = true).
Proof.
  intros score_a score_b ev_a ev_b verdict.
  pose proof (fmul_valid wr_a odds_a) as Va.
  pose proof (fmul_valid wr_b odds_b) as Vb.
  destruct (ev_order score_a score_b Va Vb) as (A1 & A2 & A3 & A4).
  destruct (ev_order score_b score_a Vb Va) as (B1 & B2 & B3 & B4).
  pose proof (feq_not_lt score_a score_b Va Vb) as Eq_ab.
  assert (G : forall a b, fgt a b = flt b a) by reflexivity.
  subst verdict ev_a ev_b. unfold compare_scores, ev_of. cbv zeta.
  fold score_a score_b. rewrite !G.
  destruct (flt score_b score_a) eqn:Fa; destruct (flt score_a score_b) eqn:Fb;
    repeat split; intros; try discriminate; try reflexivity; auto;
    try (specialize (A4 eq_refl); discriminate);
    try (specialize (B4 eq_refl); discriminate);
    try (specialize (A1 ltac:(assumption)); discriminate);
    try (specialize (B1 ltac:(assumption)); discriminate);
    try (destruct (Eq_ab ltac:(assumption)); discriminate);
    try (match goal with H : _ /\ _ |- _ => destruct H; discriminate end).
Qed.

(** ** Aggregation by sport and odds *)

Lemma feq_sym (x y : float) : feq x y = feq y x.
Proof.
  unfold feq, SFeqb.
  destruct x as [s1|s1| |s1 m1 e1], y as [s2|s2| |s2 m2 e2]; cbn [SFcompare];
    try reflexivity; try (destruct s1, s2; reflexivity);
    try (destruct s1; reflexivity); try (destruct s2; reflexivity).
  destruct s1, s2; try reflexivity;
    rewrite (Z.compare_antisym e1 e2), (ZC4 m2 m1);
    destruct (e1 ?= e2); try reflexivity;
    destruct (Pos.compare_cont Eq m1 m2); reflexivity.
Qed.

Lemma FOP_snoc {A : Type} (R : A -> A -> Prop) (l : list A) (a : A) :
  ForallOrdPairs R l -> Forall (fun b => R b a) l ->
  ForallOrdPairs R (l ++ [a]).
Proof.
  induction 1 as [|x l Hx Hl IH]; intros Ha; simpl.
  - repeat constructor.
  - inversion Ha; subst. constructor; [|now apply IH].
    apply Forall_app. split; [assumption | now repeat constructor].
Qed.

Lemma FOP_app_inv {A : Type} (R : A -> A -> Prop) (l1 l2 : list A) :
  ForallOrdPairs R (l1 ++ l2) ->
  ForallOrdPairs R l1 /\ ForallOrdPairs R l2 /\
  Forall (fun a => Forall (R a) l2) l1.
Proof.
  induction l1 as [|x l1 IH]; simpl; intros H.
  - repeat split; [constructor | assumption | constructor].
  - inversion H as [|? ? Hx Hl]; subst.
    destruct (IH Hl) as (H1 & H2 & H3).
    apply Forall_app in Hx as [Hx1 Hx2].
    repeat split; [now constructor | assumption | now constructor].
Qed.

Lemma FOP_perm {A : Type} (R : A -> A -> Prop) (l l' : list A) :
  (forall a b, R a b -> R b a) ->
  Permutation l l' -> ForallOrdPairs R l -> ForallOrdPairs R l'.
Proof.
  intros Rs. induction 1 as [|x l l' Hp IH|x y l|l l' l'' H1 IH1 H2 IH2];
    intros H.
  - constructor.
  - inversion H; subst. constructor; [|now apply IH].
    eapply Permutation_Forall; eassumption.
  - inversion H as [|? ? Hy Hl]; subst. inversion Hl as [|? ? Hx Hl']; subst.
    inversion Hy; subst. repeat constructor; auto.
  - auto.
Qed.

Lemma FOP_map {A B : Type} (R : B -> B -> Prop) (f : A -> B) (l : list A) :
  ForallOrdPairs (fun a b => R (f a) (f b)) l -> ForallOrdPairs R (map f l).
Proof.
  induction 1 as [|x l Hx Hl IH]; simpl; constructor; [|assumption].
  apply Forall_map. exact Hx.
Qed.

Lemma dict_set_append {K V : Type} (keq : K -> K -> bool) (k : K) (v : V)
    (d : list (K * V)) :
  Forall (fun a => keq (fst a) k = false) d ->
  dict_set keq k v d = (d ++ [(k, v)])%list.
Proof.
  induction 1 as [|[k' v'] t Hk Ht IH]; simpl; [reflexivity|].
  simpl in Hk. rewrite Hk, IH. reflexivity.
Qed.

Lemma dict_get_apart {K V : Type} (keq : K -> K -> bool) (k : K) (v : V)
    (d : list (K * V)) :
  keys_apart keq d -> keq k k = true -> In (k, v) d ->
  dict_get keq k d = Some v.
Proof.
  unfold keys_apart. induction 1 as [|[k' v'] t Hk Ht IH]; intros Hr Hin.
  - contradiction.
  - simpl. destruct Hin as [E|Hin].
    + injection E as -> ->. now rewrite Hr.
    + rewrite Forall_forall in Hk. specialize (Hk _ Hin). simpl in Hk.
      rewrite Hk. now apply IH.
Qed.

Lemma build_fold (l : list (float * Stats)) :
  forall r i,
    fold_left
      (fun entry ks =>
         let k := fst ks in
         let tup := index_tuple (snd ks) in
         mkEntry (rows entry ++ [(k, tup)])%list
                 (dict_set feq k tup (index entry)))
      l (mkEntry r i)
    = mkEntry (r ++ map row_of l)%list
        (fold_left (fun i ks => dict_set feq (fst ks) (index_tuple (snd ks)) i)
           l i).
Proof.
  induction l as [|x l IH]; intros r i; simpl.
  - now rewrite app_nil_r.
  - rewrite IH. f_equal. rewrite <- app_assoc. reflexivity.
Qed.

Lemma index_fold (l : list (float * Stats)) :
  forall i,
    keys_apart feq (i ++ map row_of l)%list ->
    fold_left (fun i ks => dict_set feq (fst ks) (index_tuple (snd ks)) i) l i
    = (i ++ map row_of l)%list.
Proof.
  induction l as [|x l IH]; intros i H; simpl.
  - now rewrite app_nil_r.
  - destruct (FOP_app_inv _ _ _ H) as (_ & _ & H3).
    rewrite dict_set_append.
    + rewrite IH; rewrite <- app_assoc; [reflexivity | exact H].
    + eapply Forall_impl; [|exact H3]. intros a Ha.
      inversion Ha; subst. assumption.
Qed.

Lemma build_entry_spec (om : list (float * Stats)) :
  keys_apart feq om ->
  build_entry om
  = mkEntry (map row_of (sorted_buckets om)) (map row_of (sorted_buckets om)).
Proof.
  intros H. unfold build_entry. rewrite build_fold. simpl. f_equal.
  apply (index_fold _ []). simpl.
  apply FOP_map. simpl.
  eapply FOP_perm; [| symmetry; apply py_sorted_perm | exact H].
  intros a b Hab. now rewrite feq_sym.
Qed.

Lemma bump_ok (live win : bool) (s : Stats) :
  stats_ok s -> stats_ok (bump live win s).
Proof.
  unfold stats_ok, bump. destruct live, win; cbn [st_lw st_lt st_pw st_pt]; lia.
Qed.

Lemma bump_total (live win : bool) (s : Stats) :
  bucket_total (bump live win s) = bucket_total s + 1.
Proof.
  unfold bucket_total, bump. destruct live; cbn [st_lt st_pt]; lia.
Qed.

Lemma dict_upd_keys_forall {K V : Type} (keq : K -> K -> bool) (P : K -> Prop)
    (k : K) (dflt : V) (f : V -> V) (d : list (K * V)) :
  P k -> Forall (fun kv => P (fst kv)) d ->
  Forall (fun kv => P (fst kv)) (dict_upd keq k dflt f d).
Proof.
  intros Hk. induction 1 as [|[k' v] t Hv Ht IH]; simpl.
  - repeat constructor. exact Hk.
  - destruct (keq k' k); constructor; auto.
Qed.

Lemma dict_upd_after_default {K V : Type} (keq : K -> K -> bool)
    (keq_spec : forall a b, keq a b = true <-> a = b)
    (k : K) (dflt : V) (f : V -> V) (d : list (K * V)) :
  dict_mem keq k d = false ->
  dict_upd keq k dflt f (d ++ [(k, dflt)]) = dict_upd keq k dflt f d.
Proof.
  unfold dict_mem. induction d as [|[k' v] t IH]; simpl; intros H.
  - now rewrite (keq_refl keq keq_spec).
  - destruct (keq k' k); [discriminate|]. now rewrite IH.
Qed.

Lemma agg_step_some (agg : Agg) (b : MatchBetTuple) (k : float) :
  round_odds_key (mb_odds b) = Some k ->
  agg_step agg b
  = dict_upd String.eqb (mb_sport b) []
      (dict_upd feq k zero_stats (bump_of b)) agg.
Proof.
  intros E. unfold agg_step. rewrite E.
  destruct (dict_mem String.eqb (mb_sport b) agg) eqn:M; [reflexivity|].
  now apply (dict_upd_after_default _ String.eqb_eq).
Qed.

Lemma agg_step_none (agg : Agg) (b : MatchBetTuple) :
  round_odds_key (mb_odds b) = None ->
  agg_step agg b
  = if dict_mem String.eqb (mb_sport b) agg then agg
    else (agg ++ [(mb_sport b, [])])%list.
Proof. intros E. unfold agg_step. now rewrite E. Qed.

Lemma agg_step_keys (agg : Agg) (b : MatchBetTuple) :
  map fst (agg_step agg b)
  = if dict_mem String.eqb (mb_sport b) agg then map fst agg
    else (map fst agg ++ [mb_sport b])%list.
Proof.
  destruct (round_odds_key (mb_odds b)) as [k|] eqn:E.
  - rewrite (agg_step_some _ _ _ E). apply dict_upd_keys.
  - rewrite (agg_step_none _ _ E).
    destruct (dict_mem String.eqb (mb_sport b) agg); [reflexivity|].
    now rewrite map_app.
Qed.

Lemma fold_agg_keys (bets : list MatchBetTuple) :
  forall agg,
    NoDup (map fst agg) ->
    NoDup (map fst (fold_left agg_step bets agg)) /\
    forall s, In s (map fst (fold_left agg_step bets agg))
              <-> In s (map fst agg) \/ In s (map mb_sport bets).
Proof.
  induction bets as [|b bets IH]; intros agg Hnd; simpl.
  - split; [assumption | tauto].
  - assert (Hnd' : NoDup (map fst (agg_step agg b))).
    { rewrite agg_step_keys.
      destruct (dict_mem String.eqb (mb_sport b) agg) eqn:M; [assumption|].
      apply NoDup_rev in Hnd. rewrite <- (rev_involutive (_ ++ _)).
      apply NoDup_rev. rewrite rev_app_distr. simpl. constructor; [|assumption].
      rewrite <- in_rev. intros Hin.
      apply (dict_mem_in _ String.eqb_eq) in Hin. congruence. }
    destruct (IH _ Hnd') as [H1 H2]. split; [assumption|].
    intros s. rewrite H2, agg_step_keys.
    destruct (dict_mem String.eqb (mb_sport b) agg) eqn:M.
    + apply (dict_mem_in _ String.eqb_eq) in M.
      split; [tauto|]. intros [H|[H|H]]; auto. subst. auto.
    + rewrite in_app_iff. simpl. tauto.
Qed.

Lemma agg_step_inv (Q : list (float * Stats) -> Prop) (agg : Agg)
    (b : MatchBetTuple) :
  Q [] ->
  (forall k om, round_odds_key (mb_odds b) = Some k -> Q om ->
                Q (dict_upd feq k zero_stats (bump_of b) om)) ->
  Forall (fun so => Q (snd so)) agg ->
  Forall (fun so => Q (snd so)) (agg_step agg b).
Proof.
  intros Q0 Qs H.
  destruct (round_odds_key (mb_odds b)) as [k|] eqn:E.
  - rewrite (agg_step_some _ _ _ E).
    apply (dict_upd_values _ Q); auto.
  - rewrite (agg_step_none _ _ E).
    destruct (dict_mem String.eqb (mb_sport b) agg); [assumption|].
    apply Forall_app. split; [assumption|]. repeat constructor. exact Q0.
Qed.

Lemma aggregate_inv (Q : list (float * Stats) -> Prop)
    (bets : list MatchBetTuple) :
  Q [] ->
  (forall b k om, In b bets -> round_odds_key (mb_odds b) = Some k -> Q om ->
                  Q (dict_upd feq k zero_stats (bump_of b) om)) ->
  Forall (fun so => Q (snd so)) (aggregate bets).
Proof.
  intros Q0 Qs. unfold aggregate.
  assert (H : Forall (fun so : string * list (float * Stats) => Q (snd so)) [])
    by constructor.
  revert H. generalize (@nil (string * list (float * Stats))).
  induction bets as [|b bets IH]; intros agg H; simpl; [assumption|].
  apply IH.
  - intros b' k om Hin. apply Qs. now right.
  - apply agg_step_inv; auto. intros k om. apply Qs. now left.
Qed.

Lemma total_at_step (agg : Agg) (b : MatchBetTuple) (s : string) (k : float) :
  round_odds_key (mb_odds b) = Some k ->
  total_at (agg_step agg b) s
  = total_at agg s + (if (mb_sport b =? s)%string then 1 else 0).
Proof.
  intros E. rewrite (agg_step_some _ _ _ E). unfold total_at.
  destruct (String.eqb_spec (mb_sport b) s) as [<-|Hs].
  - rewrite (dict_get_upd_same _ String.eqb_eq).
    pose proof (fun om => dict_upd_sum feq bucket_total k zero_stats (bump_of b) om
                            (bump_total _ _ zero_stats) (bump_total _ _)) as S.
    destruct (dict_get String.eqb (mb_sport b) agg) as [om|]; [apply S|].
    apply (S []).
  - rewrite (dict_get_upd_other _ String.eqb_eq) by congruence. lia.
Qed.

Lemma total_at_fold (s : string) (bets : list MatchBetTuple) :
  (forall b, In b bets -> round_odds_key (mb_odds b) <> None) ->
  forall agg,
    total_at (fold_left agg_step bets agg) s
    = total_at agg s + sport_count s bets.
Proof.
  unfold sport_count.
  induction bets as [|b bets IH]; intros Hs agg; simpl.
  - unfold count_if. simpl. lia.
  - rewrite IH by (intros b' Hb'; apply Hs; now right).
    destruct (round_odds_key (mb_odds b)) as [k|] eqn:E.
    2: { exfalso. apply (Hs b); [now left | exact E]. }
    rewrite (total_at_step _ _ _ _ E), count_if_cons. lia.
Qed.

Lemma cache_entry (bets : list MatchBetTuple) (s : string)
    (entry : SheetCacheEntry) :
  In (s, entry) (process_bets_to_cache bets) ->
  exists om, In (s, om) (aggregate bets) /\ entry = build_entry om.
Proof.
  unfold process_bets_to_cache. intros H.
  apply in_map_iff in H as ([s' om] & E & Hin).
  injection E as <- <-. now exists om.
Qed.

Lemma cache_keys (bets : list MatchBetTuple) :
  map fst (process_bets_to_cache bets) = map fst (aggregate bets).
Proof.
  unfold process_bets_to_cache. rewrite map_map. reflexivity.
Qed.

Lemma row_count_row_of (ks : float * Stats) :
  stats_ok (snd ks) -> row_count (row_of ks) = bucket_total (snd ks).
Proof.
  destruct ks as [k [lw lt pw pt]]. unfold stats_ok, row_count, row_of,
    index_tuple, bucket_total, count_or_none. cbn [fst snd st_lw st_lt st_pw st_pt].
  intros [H1 H2].
  destruct (Z.ltb_spec 0 lt), (Z.ltb_spec 0 pt); cbn [opt_count]; lia.
Qed.

Lemma aggregate_wf (bets : list MatchBetTuple) :
  Forall (fun so => buckets_wf (snd so)) (aggregate bets).
Proof.
  apply aggregate_inv.
  - repeat split; constructor.
  - intros b k om _ E (H1 & H2 & H3). repeat split.
    + unfold bump_of.
      apply (dict_upd_values _ stats_ok);
        [ apply bump_ok; unfold stats_ok, zero_stats; simpl; lia
        | intros v; apply bump_ok
        | assumption ].
    + now apply dict_upd_keys_apart.
    + apply (dict_upd_keys_forall _ (fun k => valid_float k = true));
        [|assumption].
      now apply (py_round4_ordered _ _ E).
Qed.

Lemma aggregate_no_nan (bets : list MatchBetTuple) :
  Forall (fun b => is_nan (mb_odds b) = false) bets ->
  Forall (fun so => Forall (fun ks => is_nan (fst ks) = false) (snd so))
    (aggregate bets).
Proof.
  intros Hnn. rewrite Forall_forall in Hnn.
  apply (aggregate_inv (fun om => Forall (fun ks => is_nan (fst ks) = false) om)).
  - constructor.
  - intros b k om Hin E H.
    apply (dict_upd_keys_forall _ (fun k => is_nan k = false));
      [|assumption].
    apply (py_round4_ordered _ _ E). now apply Hnn.
Qed.

Lemma aggregate_nodup (bets : list MatchBetTuple) :
  NoDup (map fst (aggregate bets)).
Proof. apply (fold_agg_keys bets []). constructor. Qed.

Lemma cache_rows (bets : list MatchBetTuple) (s : string)
    (entry : SheetCacheEntry) :
  In (s, entry) (process_bets_to_cache bets) ->
  exists om,
    In (s, om) (aggregate bets) /\ buckets_wf om /\
    rows entry = map row_of (sorted_buckets om) /\
    index entry = rows entry.
Proof.
  intros H. apply cache_entry in H as (om & Hin & ->).
  pose proof (aggregate_wf bets) as W. rewrite Forall_forall in W.
  pose proof (W _ Hin) as Wom. simpl in Wom.
  exists om. repeat split; try apply Wom; try assumption;
    rewrite build_entry_spec by apply Wom; reflexivity.
Qed.

(** C10: the aggregation conserves the records.  For bets whose odds are
    binary64 values, rounding the odds to a key never fails, so no record is
    skipped; the cache lists every sport once, its sports are exactly the
    sports of the input records, and for every sport the counts of its rows,
    live and prematch together, add up to the number of input records of
    that sport. *)
Theorem C10_aggregation_conserves_records (bets : list MatchBetTuple)
    (Hvalid : Forall (fun b => valid_float (mb_odds b) = true) bets) :
  (forall b, In b bets -> round_odds_key (mb_odds b) <> None) /\
  NoDup (map fst (process_bets_to_cache bets)) /\
  (forall s, In s (map fst (process_bets_to_cache bets))
             <-> In s (map mb_sport bets)) /\
  (forall s entry, In (s, entry) (process_bets_to_cache bets) ->
     sum_Z (map row_count (rows entry)) = sport_count s bets).
Proof.
  rewrite Forall_forall in Hvalid.
  assert (Hsome : forall b, In b bets -> round_odds_key (mb_odds b) <> None).
  { intros b Hb. destruct (py_round4_some _ (Hvalid b Hb)) as [k E].
    unfold round_odds_key. congruence. }
  split; [exact Hsome|].
  rewrite cache_keys.
  destruct (fold_agg_keys bets [] ltac:(constructor)) as [Hnd Hkeys].
  split; [exact Hnd|]. split.
  { intros s. unfold aggregate. rewrite Hkeys. simpl. tauto. }
  intros s entry H.
  apply cache_rows in H as (om & Hin & (Hok & _ & _) & -> & _).
  rewrite map_map.
  rewrite (map_ext_in _ (fun ks => bucket_total (snd ks))).
  2: { intros ks Hks. apply row_count_row_of.
       rewrite Forall_forall in Hok. apply Hok.
       eapply Permutation_in; [apply py_sorted_perm | exact Hks]. }
  rewrite (sum_Z_perm _ (map (fun ks => bucket_total (snd ks)) om))
    by (apply Permutation_map, py_sorted_perm).
  pose proof (total_at_fold s bets Hsome []) as T.
  unfold total_at at 2 in T. simpl in T. rewrite <- T.
  unfold total_at. fold (aggregate bets).
  now rewrite (in_dict_get _ String.eqb_eq _ _ _ (aggregate_nodup bets) Hin).
Qed.

Lemma rate_ok_fields (w t : Z) :
  0 <= w <= t -> rate_ok w t (win_rate w t) (count_or_none t).
Proof.
  intros H. unfold rate_ok, win_rate, count_or_none.
  destruct (Z.ltb_spec 0 t) as [Ht|Ht].
  - split; [split; [discriminate | lia]|].
    split; [split; [discriminate | lia]|].
    intros _. split; [reflexivity|]. split; [reflexivity|].
    now apply int_true_div_unit.
  - split; [split; [lia | reflexivity]|].
    split; [split; [lia | reflexivity]|].
    lia.
Qed.

Lemma rows_bucket (bets : list MatchBetTuple) (s : string)
    (entry : SheetCacheEntry) (k : float) (tup : IndexTuple) :
  In (s, entry) (process_bets_to_cache bets) ->
  In (k, tup) (rows entry) ->
  exists om st,
    In (s, om) (aggregate bets) /\ In (k, st) om /\ stats_ok st /\
    tup = index_tuple st.
Proof.
  intros H Hr.
  apply cache_rows in H as (om & Hin & (Hok & _ & _) & E & _).
  rewrite E in Hr. apply in_map_iff in Hr as ([k' st] & Er & Hks).
  unfold row_of in Er. cbn [fst snd] in Er. injection Er as -> <-.
  apply (Permutation_in _ (py_sorted_perm _ om)) in Hks.
  exists om, st. split; [assumption|]. split; [assumption|].
  split; [|reflexivity].
  rewrite Forall_forall in Hok. exact (Hok _ Hks).
Qed.

(** C3: in every row of every sport of the cache, the live win-rate is
    absent exactly when the live total of its bucket is 0, and so is the live
    count; when the total is positive the win-rate is the quotient of the
    live wins by the live total, a float between 0.0 and 1.0, and the count
    is the total.  The same holds of the prematch fields. *)
Theorem C3_win_rate_absent_or_ratio (bets : list MatchBetTuple) (s : string)
    (entry : SheetCacheEntry) (k : float) (live_wr prem_wr : option float)
    (live_n prem_n : option Z) :
  In (s, entry) (process_bets_to_cache bets) ->
  In (k, (live_wr, prem_wr, live_n, prem_n)) (rows entry) ->
  exists om stats,
    In (s, om) (aggregate bets) /\ In (k, stats) om /\
    0 <= st_lw stats <= st_lt stats /\ 0 <= st_pw stats <= st_pt stats /\
    rate_ok (st_lw stats) (st_lt stats) live_wr live_n /\
    rate_ok (st_pw stats) (st_pt stats) prem_wr prem_n.
Proof.
  intros H Hr.
  destruct (rows_bucket _ _ _ _ _ H Hr) as (om & st & Hin & Hk & [Hl Hp] & E).
  exists om, st.
  unfold index_tuple in E. injection E as -> -> -> ->.
  split; [assumption|]. split; [assumption|].
  split; [assumption|]. split; [assumption|].
  split; now apply rate_ok_fields.
Qed.

Lemma C3_win_rate_absent_or_ratio_witness :
  exists om stats,
    In ("CS2", om) (aggregate example_bets) /\ In (f_two, stats) om /\
    0 <= st_lw stats <= st_lt stats /\ 0 <= st_pw stats <= st_pt stats /\
    rate_ok (st_lw stats) (st_lt stats) None None /\
    rate_ok (st_pw stats) (st_pt stats) (Some f_one) (Some 1).
Proof.
  apply (C3_win_rate_absent_or_ratio example_bets "CS2" example_entry).
  - vm_compute. left. reflexivity.
  - vm_compute. right. left. reflexivity.
Defined.

Lemma SS_and_FOP {A : Type} (R Q : A -> A -> Prop) (l : list A) :
  StronglySorted R l -> ForallOrdPairs Q l ->
  StronglySorted (fun a b => R a b /\ Q a b) l.
Proof.
  induction 1 as [|x l Hs IH Hx]; intros HQ; [constructor|].
  inversion HQ as [|? ? Hq Hl]; subst.
  constructor; [now apply IH|].
  rewrite Forall_forall in *. intros y Hy. split; auto.
Qed.

Lemma SS_impl {A : Type} (P : A -> Prop) (R R' : A -> A -> Prop) (l : list A) :
  (forall a b, P a -> P b -> R a b -> R' a b) ->
  Forall P l -> StronglySorted R l -> StronglySorted R' l.
Proof.
  intros HR HP. induction 1 as [|x l Hs IH Hx]; [constructor|].
  inversion HP as [|? ? Hpx Hpl]; subst.
  constructor; [now apply IH|].
  rewrite Forall_forall in *. intros y Hy. apply HR; auto.
Qed.

Lemma feq_refl_ordered (x : float) : ordered x -> feq x x = true.
Proof. intros O. rewrite feq_rho by assumption. apply Z.eqb_refl. Qed.

Lemma sorted_buckets_strict (om : list (float * Stats)) :
  keys_apart feq om ->
  Forall (fun ks => ordered (fst ks)) om ->
  StronglySorted (fun a b => flt (fst a) (fst b) = true) (sorted_buckets om).
Proof.
  intros Ha Ho. unfold sorted_buckets.
  assert (Hp := py_sorted_perm (fun a b : float * Stats => flt (fst a) (fst b)) om).
  apply (SS_impl (fun ks => ordered (fst ks))
           (fun a b => rho (fst a) <= rho (fst b)
                       /\ feq (fst a) (fst b) = false)).
  - intros a b Oa Ob [Hle Hne].
    rewrite feq_rho in Hne by assumption.
    rewrite flt_rho by assumption.
    apply Z.eqb_neq in Hne. apply Z.ltb_lt. lia.
  - rewrite Forall_forall in *. intros x Hx. apply Ho.
    now apply (Permutation_in _ Hp).
  - apply SS_and_FOP.
    + apply (py_sorted_sorted _ (fun ks => ordered (fst ks))).
      * intros x y Ox Oy H. rewrite flt_rho in H by assumption.
        apply Z.ltb_lt in H. lia.
      * intros x y Ox Oy H. rewrite flt_rho in H by assumption.
        apply Z.ltb_ge in H. lia.
      * intros x y z _ _ _ H1 H2. lia.
      * assumption.
    + apply (FOP_perm _ om).
      * intros a b H. now rewrite feq_sym.
      * now symmetry.
      * exact Ha.
Qed.

Lemma C5_nan_key_breaks_order :
  map (fun se => (fst se, map fst (rows (snd se))))
    (process_bets_to_cache (fetch_matchbet_data (Some nan_key_rows)))
  = [("CS2", [f_two; S754_nan; f_one])] /\
  flt f_one f_two = true /\ fle f_two f_one = false.
Proof. vm_compute. repeat split. Qed.

(** C5, amended: for every sport entry of the cache, with NaN keys or
    without, the index holds the same keys with the same tuples in the same
    order as the rows, and looking up the key of a row, unless that key is
    NaN, gives the tuple of that row; when none of the odds keys of the
    entry is NaN, the rows are in strictly ascending order of their odds
    key. *)
Theorem C5_rows_sorted_and_index_consistent (bets : list MatchBetTuple)
    (s : string) (entry : SheetCacheEntry) :
  In (s, entry) (process_bets_to_cache bets) ->
  index entry = rows entry /\
  map fst (index entry) = map fst (rows entry) /\
  (forall k tup, In (k, tup) (rows entry) -> is_nan k = false ->
                 dict_get feq k (index entry) = Some tup) /\
  (Forall (fun r => is_nan (fst r) = false) (rows entry) ->
   StronglySorted (fun a b => flt (fst a) (fst b) = true) (rows entry)).
Proof.
  intros H.
  apply cache_rows in H as (om & Hin & (Hok & Ha & Hv) & E & Ei).
  assert (Hp := py_sorted_perm (fun a b : float * Stats => flt (fst a) (fst b)) om).
  fold (sorted_buckets om) in Hp.
  split; [exact Ei|]. split; [now rewrite Ei|]. split.
  - intros k tup Hr Hk. rewrite Ei.
    apply dict_get_apart; [| |exact Hr].
    + rewrite E. unfold keys_apart. apply FOP_map. cbn [row_of fst].
      apply (FOP_perm _ om).
      * intros a b Hab. now rewrite feq_sym.
      * now symmetry.
      * exact Ha.
    + apply feq_refl_ordered. split; [|exact Hk].
      rewrite E in Hr. apply in_map_iff in Hr as (ks & Er & Hks).
      apply (Permutation_in _ Hp) in Hks.
      rewrite Forall_forall in Hv. specialize (Hv _ Hks).
      unfold row_of in Er. injection Er as <- _. exact Hv.
  - intros Hnn.
    assert (Ho : Forall (fun ks => ordered (fst ks)) om).
    { rewrite Forall_forall in *. intros ks Hks. split; [now apply Hv|].
      apply (Hnn (row_of ks)). rewrite E. apply in_map.
      apply (Permutation_in _ (Permutation_sym Hp)). exact Hks. }
    rewrite E. apply StronglySorted_map.
    exact (sorted_buckets_strict om Ha Ho).
Qed.

Lemma C5_rows_sorted_and_index_consistent_witness :
  (index example_entry = rows example_entry /\
   map fst (index example_entry) = map fst (rows example_entry) /\
   (forall k tup, In (k, tup) (rows example_entry) -> is_nan k = false ->
                  dict_get feq k (index example_entry) = Some tup) /\
   (Forall (fun r => is_nan (fst r) = false) (rows example_entry) ->
    StronglySorted (fun a b => flt (fst a) (fst b) = true)
      (rows example_entry))) /\
  (index nan_key_entry = rows nan_key_entry /\
   map fst (index nan_key_entry) = map fst (rows nan_key_entry) /\
   (forall k tup, In (k, tup) (rows nan_key_entry) -> is_nan k = false ->
                  dict_get feq k (index nan_key_entry) = Some tup) /\
   (Forall (fun r => is_nan (fst r) = false) (rows nan_key_entry) ->
    StronglySorted (fun a b => flt (fst a) (fst b) = true)
      (rows nan_key_entry))).
Proof.
  split.
  - apply (C5_rows_sorted_and_index_consistent example_bets "CS2").
    vm_compute. left. reflexivity.
  - apply (C5_rows_sorted_and_index_consistent
             (fetch_matchbet_data (Some nan_key_rows)) "CS2").
    vm_compute. left. reflexivity.
Defined.

Lemma C10_aggregation_conserves_records_witness :
  (forall b, In b example_bets -> round_odds_key (mb_odds b) <> None) /\
  NoDup (map fst (process_bets_to_cache example_bets)) /\
  (forall s, In s (map fst (process_bets_to_cache example_bets))
             <-> In s (map mb_sport example_bets)) /\
  (forall s entry, In (s, entry) (process_bets_to_cache example_bets) ->
     sum_Z (map row_count (rows entry)) = sport_count s example_bets).
Proof.
  apply (C10_aggregation_conserves_records example_bets).
  repeat constructor.
Defined.

(* ================================================================= *)
(** * Further properties *)

(** ** Sports list *)

Lemma fold_add_map {A : Type} (g : A -> Z) (l : list A) :
  forall a, fold_left (fun total r => total + g r) l a = a + sum_Z (map g l).
Proof.
  induction l as [|x l IH]; intros a; simpl.
  - unfold sum_Z. simpl. lia.
  - rewrite IH, sum_Z_cons. lia.
Qed.

Lemma count_if_nonneg {A : Type} (p : A -> bool) (l : list A) :
  0 <= count_if p l.
Proof. unfold count_if. lia. Qed.

Lemma count_if_none {A : Type} (p : A -> bool) (l : list A) :
  (forall x, In x l -> p x = false) -> count_if p l = 0.
Proof.
  induction l as [|x l IH]; intros H; [reflexivity|].
  rewrite count_if_cons, (H x (or_introl eq_refl)), IH; [reflexivity|].
  intros y Hy. apply H. now right.
Qed.

Lemma round_key_some (bets : list MatchBetTuple) :
  Forall (fun b => valid_float (mb_odds b) = true) bets ->
  forall b, In b bets -> round_odds_key (mb_odds b) <> None.
Proof.
  intros Hv b Hb. rewrite Forall_forall in Hv.
  destruct (py_round4_some _ (Hv b Hb)) as [k E].
  unfold round_odds_key. congruence.
Qed.

(** The counts of the rows of a sport add up to its records. *)
Lemma rows_total (bets : list MatchBetTuple) (s : string)
    (entry : SheetCacheEntry) :
  (forall b, In b bets -> round_odds_key (mb_odds b) <> None) ->
  In (s, entry) (process_bets_to_cache bets) ->
  sum_Z (map row_count (rows entry)) = sport_count s bets.
Proof.
  intros Hsome H.
  apply cache_rows in H as (om & Hin & (Hok & _ & _) & -> & _).
  rewrite map_map.
  rewrite (map_ext_in _ (fun ks => bucket_total (snd ks))).
  2: { intros ks Hks. apply row_count_row_of.
       rewrite Forall_forall in Hok. apply Hok.
       eapply Permutation_in; [apply py_sorted_perm | exact Hks]. }
  rewrite (sum_Z_perm _ (map (fun ks => bucket_total (snd ks)) om))
    by (apply Permutation_map, py_sorted_perm).
  pose proof (total_at_fold s bets Hsome []) as T.
  unfold total_at at 2 in T. simpl in T. rewrite <- T.
  unfold total_at. fold (aggregate bets).
  now rewrite (in_dict_get _ String.eqb_eq _ _ _ (aggregate_nodup bets) Hin).
Qed.

Lemma cache_sports (bets : list MatchBetTuple) :
  NoDup (map fst (process_bets_to_cache bets)) /\
  forall s, In s (map fst (process_bets_to_cache bets))
            <-> In s (map mb_sport bets).
Proof.
  rewrite cache_keys.
  destruct (fold_agg_keys bets [] ltac:(constructor)) as [Hnd Hkeys].
  split; [exact Hnd|].
  intros s. unfold aggregate. rewrite Hkeys. simpl. tauto.
Qed.

Lemma count_bets_records (bets : list MatchBetTuple) (s : string) :
  (forall b, In b bets -> round_odds_key (mb_odds b) <> None) ->
  count_bets (process_bets_to_cache bets) s = sport_count s bets.
Proof.
  intros Hsome. unfold count_bets.
  destruct (dict_get String.eqb s (process_bets_to_cache bets))
    as [entry|] eqn:E.
  - apply (dict_get_in _ String.eqb_eq) in E.
    rewrite fold_add_map. rewrite <- (rows_total bets s entry Hsome E).
    reflexivity.
  - unfold sport_count. symmetry. apply count_if_none.
    intros b Hb. apply String.eqb_neq. intros Hs.
    assert (Hin : In s (map fst (process_bets_to_cache bets))).
    { apply cache_sports. subst s. now apply in_map. }
    apply (dict_mem_in _ String.eqb_eq) in Hin.
    unfold dict_mem in Hin. rewrite E in Hin. discriminate.
Qed.

(** X6: The sports offered in the selector are the sports of the records,
    each once, ordered by their number of records, largest first; the bet
    count of a sport is the number of its records, and the sport selected
    at start, the first of the list, has the most records. *)
Theorem get_sorted_sports_by_records (bets : list MatchBetTuple)
    (Hvalid : Forall (fun b => valid_float (mb_odds b) = true) bets) :
  Permutation (get_sorted_sports (process_bets_to_cache bets))
    (map fst (process_bets_to_cache bets)) /\
  NoDup (get_sorted_sports (process_bets_to_cache bets)) /\
  (forall s, In s (get_sorted_sports (process_bets_to_cache bets))
             <-> In s (map mb_sport bets)) /\
  (forall s, count_bets (process_bets_to_cache bets) s = sport_count s bets) /\
  StronglySorted (fun a b => sport_count b bets <= sport_count a bets)
    (get_sorted_sports (process_bets_to_cache bets)) /\
  (forall first rest s,
     get_sorted_sports (process_bets_to_cache bets) = first :: rest ->
     sport_count s bets <= sport_count first bets).
Proof.
  pose proof (round_key_some bets Hvalid) as Hsome.
  destruct (cache_sports bets) as [Hnd Hkeys].
  assert (Hp : Permutation (get_sorted_sports (process_bets_to_cache bets))
                 (map fst (process_bets_to_cache bets)))
    by apply py_sorted_perm.
  split; [exact Hp|]. split.
  { apply (Permutation_NoDup (Permutation_sym Hp)). exact Hnd. }
  split.
  { intros s. rewrite <- Hkeys. split; apply Permutation_in;
      [exact Hp | now symmetry]. }
  split; [intros s; now apply count_bets_records|].
  assert (Hsorted : StronglySorted
                      (fun a b => sport_count b bets <= sport_count a bets)
                      (get_sorted_sports (process_bets_to_cache bets))).
  { unfold get_sorted_sports.
    pose proof (sorted_desc_sorted (count_bets (process_bets_to_cache bets))
                  (map fst (process_bets_to_cache bets))) as Hs.
    apply (SS_impl (fun _ => True)
             (fun a b => count_bets (process_bets_to_cache bets) b
                         <= count_bets (process_bets_to_cache bets) a)).
    - intros a b _ _ H.
      now rewrite <- !(count_bets_records bets) by assumption.
    - apply Forall_forall. auto.
    - exact Hs. }
  split; [exact Hsorted|].
  intros first rest s E. rewrite E in Hsorted, Hp.
  apply StronglySorted_inv in Hsorted as [_ Hrest].
  destruct (in_dec string_dec s (map mb_sport bets)) as [Hin|Hout].
  - apply Hkeys in Hin. apply (Permutation_in _ (Permutation_sym Hp)) in Hin.
    destruct Hin as [->|Hin]; [lia|].
    rewrite Forall_forall in Hrest. now apply Hrest.
  - assert (Z0 : sport_count s bets = 0).
    { unfold sport_count. apply count_if_none. intros b Hb.
      apply String.eqb_neq. intros <-. apply Hout. now apply in_map. }
    rewrite Z0. apply count_if_nonneg.
Qed.

Lemma get_sorted_sports_by_records_witness :
  Permutation (get_sorted_sports (process_bets_to_cache example_bets))
    (map fst (process_bets_to_cache example_bets)) /\
  NoDup (get_sorted_sports (process_bets_to_cache example_bets)) /\
  (forall s, In s (get_sorted_sports (process_bets_to_cache example_bets))
             <-> In s (map mb_sport example_bets)) /\
  (forall s, count_bets (process_bets_to_cache example_bets) s
             = sport_count s example_bets) /\
  StronglySorted
    (fun a b => sport_count b example_bets <= sport_count a example_bets)
    (get_sorted_sports (process_bets_to_cache example_bets)) /\
  (forall first rest s,
     get_sorted_sports (process_bets_to_cache example_bets) = first :: rest ->
     sport_count s example_bets <= sport_count first example_bets).
Proof.
  apply (get_sorted_sports_by_records example_bets). repeat constructor.
Defined.

(** ** Table items and rows *)

Lemma rho_range (x : float) : ordered x -> - big <= rho x <= big.
Proof.
  intros O. pose proof big_pos as B.
  destruct (is_inf x) eqn:I.
  - destruct x as [s|s| |s m e]; try discriminate I.
    cbn [rho]. destruct s; cbn [signed]; lia.
  - pose proof (rho_finite_range x O I). lia.
Qed.

Lemma flt_irrefl (x : float) : valid_float x = true -> flt x x = false.
Proof.
  intros V. destruct (is_nan x) eqn:N; [now apply flt_nan_l|].
  rewrite flt_rho by (split; assumption). apply Z.ltb_irrefl.
Qed.

Lemma flt_asym (x y : float) :
  valid_float x = true -> valid_float y = true ->
  flt x y = true -> flt y x = false.
Proof.
  intros Vx Vy H.
  destruct (is_nan x) eqn:Nx; [now rewrite flt_nan_l in H|].
  destruct (is_nan y) eqn:Ny; [now rewrite flt_nan_r in H|].
  rewrite flt_rho in * by (split; assumption).
  apply Z.ltb_lt in H. apply Z.ltb_ge. lia.
Qed.

Lemma flt_trans (x y z : float) :
  valid_float x = true -> valid_float y = true -> valid_float z = true ->
  flt x y = true -> flt y z = true -> flt x z = true.
Proof.
  intros Vx Vy Vz H1 H2.
  destruct (is_nan x) eqn:Nx; [now rewrite flt_nan_l in H1|].
  destruct (is_nan y) eqn:Ny; [now rewrite flt_nan_r in H1|].
  destruct (is_nan z) eqn:Nz; [now rewrite flt_nan_r in H2|].
  rewrite flt_rho in * by (split; assumption).
  apply Z.ltb_lt in H1, H2. apply Z.ltb_lt. lia.
Qed.

(** X7: On the sort values of table items [<] is a strict order in which an
    absent value is below every number other than minus infinity and above
    none; a NaN is neither below nor above anything. *)
Theorem SortableTableWidgetItem_lt_order (a b c : option float)
    (Va : valid_float (sort_key a) = true)
    (Vb : valid_float (sort_key b) = true)
    (Vc : valid_float (sort_key c) = true) :
  SortableTableWidgetItem_lt a a = false /\
  (SortableTableWidgetItem_lt a b = true ->
   SortableTableWidgetItem_lt b a = false) /\
  (SortableTableWidgetItem_lt a b = true ->
   SortableTableWidgetItem_lt b c = true ->
   SortableTableWidgetItem_lt a c = true) /\
  SortableTableWidgetItem_lt a None = false /\
  (SortableTableWidgetItem_lt None a = true <->
   exists x, a = Some x /\ is_nan x = false /\ x <> f_neg_inf) /\
  (is_nan (sort_key a) = true ->
   SortableTableWidgetItem_lt a b = false /\
   SortableTableWidgetItem_lt b a = false).
Proof.
  assert (E : forall u v, SortableTableWidgetItem_lt u v
                          = flt (sort_key u) (sort_key v))
    by (intros [u|] [v|]; reflexivity).
  rewrite !E. pose proof big_pos as B.
  split; [now apply flt_irrefl|].
  split; [now apply flt_asym|].
  split; [now apply flt_trans|].
  split.
  { destruct (is_nan (sort_key a)) eqn:N; [now apply flt_nan_l|].
    rewrite flt_rho by (first [split; assumption | split; reflexivity]).
    pose proof (rho_range (sort_key a) (conj Va N)) as R.
    apply Z.ltb_ge. cbn [sort_key f_neg_inf rho signed]. lia. }
  split.
  { split.
    - intros H. destruct a as [x|]; [|discriminate H].
      exists x. split; [reflexivity|]. cbn [sort_key] in *.
      destruct (is_nan x) eqn:N; [now rewrite flt_nan_r in H|].
      split; [reflexivity|]. intros ->. discriminate H.
    - intros (x & -> & N & Hx). cbn [sort_key] in *.
      rewrite flt_rho by (first [split; assumption | split; reflexivity]).
      apply Z.ltb_lt. cbn [f_neg_inf rho signed].
      destruct (is_inf x) eqn:I.
      + destruct x as [s|s| |s m e]; try discriminate I.
        destruct s; [now contradiction Hx|]. cbn [rho signed]. lia.
      + pose proof (rho_finite_range x (conj Va N) I). lia. }
  intros N. split; [now apply flt_nan_l | now apply flt_nan_r].
Qed.

Lemma SortableTableWidgetItem_lt_order_witness :
  SortableTableWidgetItem_lt None None = false /\
  (SortableTableWidgetItem_lt None (Some f_one) = true ->
   SortableTableWidgetItem_lt (Some f_one) None = false) /\
  (SortableTableWidgetItem_lt None (Some f_one) = true ->
   SortableTableWidgetItem_lt (Some f_one) (Some f_two) = true ->
   SortableTableWidgetItem_lt None (Some f_two) = true) /\
  SortableTableWidgetItem_lt None None = false /\
  (SortableTableWidgetItem_lt None None = true <->
   exists x, None = Some x /\ is_nan x = false /\ x <> f_neg_inf) /\
  (is_nan (sort_key None) = true ->
   SortableTableWidgetItem_lt None (Some f_one) = false /\
   SortableTableWidgetItem_lt (Some f_one) None = false).
Proof.
  apply (SortableTableWidgetItem_lt_order None (Some f_one) (Some f_two));
    reflexivity.
Defined.





(** ** Comparison of two sides, continued *)

(** X11: Exchanging the two sides of a comparison exchanges the verdict. *)
Theorem compare_scores_swap (wr_a odds_a wr_b odds_b : float) :
  compare_scores wr_b odds_b wr_a odds_a
  = swap_verdict (compare_scores wr_a odds_a wr_b odds_b).
Proof.
  unfold compare_scores, fgt. cbv zeta.
  pose proof (flt_asym (fmul wr_a odds_a) (fmul wr_b odds_b)
                (fmul_valid _ _) (fmul_valid _ _)) as H1.
  pose proof (flt_asym (fmul wr_b odds_b) (fmul wr_a odds_a)
                (fmul_valid _ _) (fmul_valid _ _)) as H2.
  unfold flt in *.
  destruct (SFltb (fmul wr_a odds_a) (fmul wr_b odds_b)) eqn:E1;
    destruct (SFltb (fmul wr_b odds_b) (fmul wr_a odds_a)) eqn:E2;
    try reflexivity.
  specialize (H1 eq_refl). discriminate.
Qed.

Lemma render_compare_total (odds_a odds_b : float) (wr_a wr_b : option float)
    (sport bet_type : string) (count_a count_b : option Z) :
  exists txt,
    render_compare odds_a odds_b wr_a wr_b
      (option_map (fun w => fsub (fmul w odds_a) f_one) wr_a)
      (option_map (fun w => fsub (fmul w odds_b) f_one) wr_b)
      sport bet_type count_a count_b = Some txt.
Proof.
  unfold render_compare.
  destruct wr_a as [wa|], wr_b as [wb|]; cbn [option_map]; eexists;
    reflexivity.
Qed.

(** X12: The inline comparison always ends with a text in the result label:
    neither the lookups in the index nor the rendering raise, whatever the
    two entry fields hold and whatever the index is. *)
Theorem recompute_comparison_inline_total (text_a text_b bet_type sport : string)
    (odds_index : list (float * IndexTuple)) :
  exists txt,
    recompute_comparison_inline text_a text_b bet_type sport odds_index
    = Some txt.
Proof.
  unfold recompute_comparison_inline.
  destruct (py_float (strip text_a)) as [odds_a|]; [|eexists; reflexivity].
  destruct (py_float (strip text_b)) as [odds_b|]; [|eexists; reflexivity].
  unfold dict_mem.
  destruct (round_odds_key odds_a) as [ka|], (round_odds_key odds_b) as [kb|];
    cbv beta iota zeta;
    repeat match goal with
           | |- context [dict_get feq ?k odds_index] =>
               is_var k;
               destruct (dict_get feq k odds_index) as [[[[? ?] ?] ?]|] eqn:?
           end;
    cbn -[format_f bet_line String.append fsub fmul render_compare];
    repeat match goal with
           | H : dict_get feq _ odds_index = _ |- _ => rewrite ?H; clear H
           end;
    try apply render_compare_total;
    repeat match goal with
           | |- context [if (?b =? "Live")%string then _ else _] =>
               destruct (b =? "Live")%string
           | |- context [match ?o with Some _ => _ | None => _ end] =>
               is_var o; destruct o
           end;
    eexists; reflexivity.
Qed.

(** ** Buckets of the cache and lookups in the index *)

Lemma feq_true_iff (x y : float) :
  valid_float x = true -> valid_float y = true ->
  (feq x y = true <-> is_nan x = false /\ is_nan y = false /\ rho x = rho y).
Proof.
  intros Vx Vy.
  destruct (is_nan x) eqn:Nx.
  { apply is_nan_true in Nx. subst x. split; [discriminate|].
    intros (H & _). discriminate. }
  destruct (is_nan y) eqn:Ny.
  { apply is_nan_true in Ny. subst y. split.
    - destruct x; discriminate.
    - intros (_ & H & _). discriminate. }
  rewrite feq_rho by (split; assumption).
  rewrite Z.eqb_eq. tauto.
Qed.

Lemma feq_trans (x y z : float) :
  valid_float x = true -> valid_float y = true -> valid_float z = true ->
  feq x y = true -> feq y z = true -> feq x z = true.
Proof.
  intros Vx Vy Vz H1 H2.
  apply feq_true_iff in H1 as (? & ? & ?); [|assumption|assumption].
  apply feq_true_iff in H2 as (? & ? & ?); [|assumption|assumption].
  apply feq_true_iff; [assumption|assumption|].
  repeat split; congruence.
Qed.

Section DictEquiv.

Context {K V : Type} (keq : K -> K -> bool) (P : K -> Prop).
Hypothesis keq_sym : forall a b, keq a b = keq b a.
Hypothesis keq_trans :
  forall a b c, P a -> P b -> P c ->
                keq a b = true -> keq b c = true -> keq a c = true.

Lemma dict_get_upd_equiv (k kb : K) (dflt : V) (f : V -> V)
    (d : list (K * V)) :
  P k -> P kb -> Forall (fun kv => P (fst kv)) d ->
  dict_get keq k (dict_upd keq kb dflt f d)
  = if keq kb k
    then Some (f (match dict_get keq k d with Some v => v | None => dflt end))
    else dict_get keq k d.
Proof.
  intros Pk Pkb. induction 1 as [|[k' v] t Pk' Pt IH]; simpl.
  - destruct (keq kb k); reflexivity.
  - simpl in Pk'. destruct (keq k' kb) eqn:E1; simpl.
    + destruct (keq kb k) eqn:E2.
      * now rewrite (keq_trans k' kb k Pk' Pkb Pk E1 E2).
      * destruct (keq k' k) eqn:E3; [|reflexivity].
        rewrite keq_sym in E1.
        rewrite (keq_trans kb k' k Pkb Pk' Pk E1 E3) in E2. discriminate.
    + destruct (keq k' k) eqn:E3; [|exact IH].
      destruct (keq kb k) eqn:E2; [|reflexivity].
      rewrite (keq_sym kb k) in E2.
      rewrite (keq_trans k' k kb Pk' Pk Pkb E3 E2) in E1. discriminate.
Qed.

Lemma dict_get_some_in (k : K) (v : V) (d : list (K * V)) :
  dict_get keq k d = Some v -> exists k', In (k', v) d /\ keq k' k = true.
Proof.
  induction d as [|[k' v'] t IH]; simpl; [discriminate|].
  destruct (keq k' k) eqn:E.
  - intros [= ->]. exists k'. split; [now left | assumption].
  - intros H. destruct (IH H) as (k2 & Hin & Hk). exists k2. split; auto.
Qed.

Lemma dict_get_none_in (k : K) (d : list (K * V)) :
  dict_get keq k d = None -> forall k' v, In (k', v) d -> keq k' k = false.
Proof.
  induction d as [|[k1 v1] t IH]; simpl; [contradiction|].
  destruct (keq k1 k) eqn:E; [discriminate|].
  intros H k' v [[= <- <-]|Hin]; [assumption | now apply (IH H k' v)].
Qed.

Lemma dict_get_perm (k : K) (d d' : list (K * V)) :
  P k -> Forall (fun kv => P (fst kv)) d -> keys_apart keq d ->
  Permutation d d' -> dict_get keq k d = dict_get keq k d'.
Proof.
  intros Pk Pd Ha Hp.
  destruct (dict_get keq k d') as [v'|] eqn:E'.
  - destruct (dict_get_some_in _ _ _ E') as (k2 & Hin2 & Hk2).
    apply (Permutation_in _ (Permutation_sym Hp)) in Hin2.
    clear E' Hp d'. unfold keys_apart in Ha.
    induction Ha as [|[k1 v1] t Hk Ht IH]; [contradiction|].
    inversion Pd as [|? ? P1 Pt]; subst. simpl in P1 |- *.
    destruct Hin2 as [[= -> ->]|Hin].
    + now rewrite Hk2.
    + destruct (keq k1 k) eqn:E1; [|now apply IH].
      exfalso. rewrite Forall_forall in Hk, Pt.
      specialize (Hk _ Hin). specialize (Pt _ Hin). simpl in Hk, Pt.
      rewrite (keq_sym k2 k) in Hk2.
      rewrite (keq_trans k1 k k2 P1 Pk Pt E1 Hk2) in Hk. discriminate.
  - pose proof (dict_get_none_in _ _ E') as Hn.
    destruct (dict_get keq k d) as [v|] eqn:E; [|reflexivity].
    destruct (dict_get_some_in _ _ _ E) as (k2 & Hin2 & Hk2).
    apply (Permutation_in _ Hp) in Hin2.
    rewrite (Hn _ _ Hin2) in Hk2. discriminate.
Qed.

End DictEquiv.

Lemma dict_get_map_snd {K V W : Type} (keq : K -> K -> bool) (g : V -> W)
    (k : K) (d : list (K * V)) :
  dict_get keq k (map (fun kv => (fst kv, g (snd kv))) d)
  = option_map g (dict_get keq k d).
Proof.
  induction d as [|[k' v] t IH]; simpl; [reflexivity|].
  destruct (keq k' k); [reflexivity | exact IH].
Qed.

Lemma dict_get_app_none {K V : Type} (keq : K -> K -> bool) (k : K)
    (d d' : list (K * V)) :
  dict_get keq k (d ++ d')
  = match dict_get keq k d with Some v => Some v | None => dict_get keq k d' end.
Proof.
  induction d as [|[k' v] t IH]; simpl; [reflexivity|].
  destruct (keq k' k); [reflexivity | exact IH].
Qed.

Lemma dict_upd_entries {K V : Type} (keq : K -> K -> bool)
    (Q : K * V -> Prop) (k : K) (dflt : V) (f : V -> V) (d : list (K * V)) :
  Q (k, f dflt) -> (forall k' v, Q (k', v) -> Q (k', f v)) ->
  Forall Q d -> Forall Q (dict_upd keq k dflt f d).
Proof.
  intros H0 Hf. induction 1 as [|[k' v] t Hv Ht IH]; simpl.
  - repeat constructor. exact H0.
  - destruct (keq k' k); constructor; auto.
Qed.

Lemma agg_step_wf (agg : Agg) (b : MatchBetTuple) :
  agg_wf agg -> agg_wf (agg_step agg b).
Proof.
  unfold agg_wf. apply agg_step_inv; [constructor|].
  intros k om E H. apply dict_upd_entries; [| |exact H].
  - cbn [fst snd]. split; [now apply (py_round4_ordered _ _ E)|].
    unfold bump_of. rewrite bump_total. unfold bucket_total, zero_stats.
    cbn [st_lt st_pt]. lia.
  - intros k' v [Hk Hv]. cbn [fst snd] in *. split; [assumption|].
    unfold bump_of. rewrite bump_total. lia.
Qed.

Lemma fold_agg_wf (bets : list MatchBetTuple) :
  forall agg, agg_wf agg -> agg_wf (fold_left agg_step bets agg).
Proof.
  induction bets as [|b bets IH]; intros agg H; [exact H|].
  simpl. apply IH. now apply agg_step_wf.
Qed.

Lemma bucket_at_step (agg : Agg) (b : MatchBetTuple) (s : string) (k : float) :
  valid_float k = true -> agg_wf agg ->
  bucket_at (agg_step agg b) s k
  = if in_bucket s k b then bump_of b (bucket_at agg s k)
    else bucket_at agg s k.
Proof.
  intros Vk Hwf. unfold in_bucket, bucket_at.
  destruct (round_odds_key (mb_odds b)) as [kb|] eqn:E.
  - rewrite (agg_step_some _ _ _ E).
    destruct (String.eqb_spec (mb_sport b) s) as [<-|Hs]; cbn [andb].
    + rewrite (dict_get_upd_same _ String.eqb_eq).
      assert (Hom : Forall (fun ks : float * Stats => valid_float (fst ks) = true)
                      match dict_get String.eqb (mb_sport b) agg with
                      | Some v => v
                      | None => []
                      end).
      { destruct (dict_get String.eqb (mb_sport b) agg) as [om|] eqn:Eo;
          [|constructor].
        apply (dict_get_in _ String.eqb_eq) in Eo.
        unfold agg_wf in Hwf. rewrite Forall_forall in Hwf.
        specialize (Hwf _ Eo). cbn [snd] in Hwf.
        eapply Forall_impl; [|exact Hwf]. intros a Ha. apply Ha. }
      rewrite (dict_get_upd_equiv feq (fun x => valid_float x = true)
                 feq_sym feq_trans k kb zero_stats (bump_of b) _ Vk
                 (proj1 (py_round4_ordered _ _ E)) Hom).
      destruct (feq kb k); destruct (dict_get String.eqb (mb_sport b) agg);
        cbn [dict_get]; reflexivity.
    + rewrite (dict_get_upd_other _ String.eqb_eq) by congruence.
      reflexivity.
  - rewrite (agg_step_none _ _ E), andb_false_r.
    destruct (dict_mem String.eqb (mb_sport b) agg) eqn:M; [reflexivity|].
    rewrite dict_get_app_none.
    destruct (dict_get String.eqb s agg) as [om|]; [reflexivity|].
    cbn [dict_get]. destruct (mb_sport b =? s)%string; reflexivity.
Qed.

Lemma bucket_at_fold (s : string) (k : float) (bets : list MatchBetTuple) :
  valid_float k = true ->
  forall agg, agg_wf agg ->
    let st0 := bucket_at agg s k in
    let st := bucket_at (fold_left agg_step bets agg) s k in
    st_lt st = st_lt st0
      + count_if (fun b => in_bucket s k b && is_live (mb_live_status b)) bets /\
    st_lw st = st_lw st0
      + count_if (fun b => in_bucket s k b && is_live (mb_live_status b)
                           && is_win (mb_result b)) bets /\
    st_pt st = st_pt st0
      + count_if (fun b => in_bucket s k b
                           && negb (is_live (mb_live_status b))) bets /\
    st_pw st = st_pw st0
      + count_if (fun b => in_bucket s k b
                           && negb (is_live (mb_live_status b))
                           && is_win (mb_result b)) bets.
Proof.
  intros Vk. induction bets as [|b bets IH]; intros agg Hwf; cbv zeta.
  - unfold count_if. simpl. lia.
  - cbn [fold_left].
    destruct (IH (agg_step agg b) (agg_step_wf _ _ Hwf)) as (I1 & I2 & I3 & I4).
    cbv zeta in I1, I2, I3, I4.
    rewrite I1, I2, I3, I4, !count_if_cons, (bucket_at_step _ _ _ _ Vk Hwf).
    unfold bump_of, bump.
    destruct (in_bucket s k b), (is_live (mb_live_status b)),
      (is_win (mb_result b)); cbn [andb negb st_lt st_lw st_pt st_pw]; lia.
Qed.

(** X3: The four counters of a bucket are the numbers of input records of its
    sport whose rounded odds equal its key: the live ones, the live ones
    won, the prematch ones and the prematch ones won. *)
Theorem bucket_counts (bets : list MatchBetTuple) (s : string) (k : float)
    (Vk : valid_float k = true) :
  let st := bucket_at (aggregate bets) s k in
  st_lt st
  = count_if (fun b => in_bucket s k b && is_live (mb_live_status b)) bets /\
  st_lw st
  = count_if (fun b => in_bucket s k b && is_live (mb_live_status b)
                       && is_win (mb_result b)) bets /\
  st_pt st
  = count_if (fun b => in_bucket s k b
                       && negb (is_live (mb_live_status b))) bets /\
  st_pw st
  = count_if (fun b => in_bucket s k b && negb (is_live (mb_live_status b))
                       && is_win (mb_result b)) bets.
Proof.
  exact (bucket_at_fold s k bets Vk [] (Forall_nil _)).
Qed.

Lemma bucket_counts_witness :
  let st := bucket_at (aggregate example_bets) "CS2" f_1_5 in
  st_lt st
  = count_if (fun b => in_bucket "CS2" f_1_5 b
                       && is_live (mb_live_status b)) example_bets /\
  st_lw st
  = count_if (fun b => in_bucket "CS2" f_1_5 b && is_live (mb_live_status b)
                       && is_win (mb_result b)) example_bets /\
  st_pt st
  = count_if (fun b => in_bucket "CS2" f_1_5 b
                       && negb (is_live (mb_live_status b))) example_bets /\
  st_pw st
  = count_if (fun b => in_bucket "CS2" f_1_5 b
                       && negb (is_live (mb_live_status b))
                       && is_win (mb_result b)) example_bets.
Proof. apply (bucket_counts example_bets "CS2" f_1_5). reflexivity. Defined.

Lemma count_if_pos {A : Type} (p : A -> bool) (l : list A) :
  0 < count_if p l <-> exists x, In x l /\ p x = true.
Proof.
  induction l as [|x l IH].
  - split; [unfold count_if; simpl; lia | intros (x & [] & _)].
  - rewrite count_if_cons. pose proof (count_if_nonneg p l) as N.
    destruct (p x) eqn:E.
    + split; [intros _; exists x; split; [now left | assumption] | lia].
    + rewrite Z.add_0_l, IH. split; intros (y & Hy & Py).
      * exists y. split; [now right | assumption].
      * destruct Hy as [<-|Hy]; [congruence|]. exists y. auto.
Qed.

Lemma count_if_split {A : Type} (p q : A -> bool) (l : list A) :
  count_if p l
  = count_if (fun x => p x && q x) l + count_if (fun x => p x && negb (q x)) l.
Proof.
  induction l as [|x l IH]; [reflexivity|].
  rewrite !count_if_cons, IH. destruct (p x), (q x); cbn [andb negb]; lia.
Qed.

(** X4: What a lookup in the index of a sport finds: a key is in the index
    exactly when some record of the sport has rounded odds equal to it, and
    the tuple found is the one made from the counters of that bucket. *)
Theorem index_lookup (bets : list MatchBetTuple) (s : string)
    (entry : SheetCacheEntry) (k : float)
    (Hentry : In (s, entry) (process_bets_to_cache bets))
    (Vk : valid_float k = true) :
  (dict_mem feq k (index entry) = true
   <-> exists b, In b bets /\ in_bucket s k b = true) /\
  (forall tup, dict_get feq k (index entry) = Some tup ->
               tup = index_tuple (bucket_at (aggregate bets) s k)).
Proof.
  apply cache_rows in Hentry as (om & Hin & (Hok & Ha & Hv) & E & Ei).
  assert (Hp := py_sorted_perm (fun a b : float * Stats => flt (fst a) (fst b)) om).
  fold (sorted_buckets om) in Hp.
  assert (G : dict_get feq k (index entry)
              = option_map index_tuple (dict_get feq k om)).
  { rewrite Ei, E. unfold row_of.
    rewrite (dict_get_map_snd feq index_tuple). f_equal.
    symmetry.
    apply (dict_get_perm feq (fun x => valid_float x = true) feq_sym feq_trans);
      [assumption | assumption | assumption | now symmetry]. }
  assert (B : bucket_at (aggregate bets) s k
              = match dict_get feq k om with
                | Some st => st
                | None => zero_stats
                end).
  { unfold bucket_at.
    now rewrite (in_dict_get _ String.eqb_eq _ _ _ (aggregate_nodup bets) Hin). }
  assert (Hwf : agg_wf (aggregate bets))
    by (apply fold_agg_wf; constructor).
  destruct (bucket_counts bets s k Vk) as (C1 & _ & C3 & _).
  cbv zeta in C1, C3.
  pose proof (count_if_split (in_bucket s k)
                (fun b => is_live (mb_live_status b)) bets) as Hsplit.
  cbv beta in Hsplit. rewrite <- C1, <- C3, B in Hsplit.
  split.
  - unfold dict_mem. rewrite G, <- count_if_pos, Hsplit.
    destruct (dict_get feq k om) as [st|] eqn:Ek; cbn [option_map].
    + split; [intros _|reflexivity].
      apply dict_get_some_in in Ek as (k' & Hk' & _).
      unfold agg_wf in Hwf. rewrite Forall_forall in Hwf.
      specialize (Hwf _ Hin). cbn [snd] in Hwf.
      rewrite Forall_forall in Hwf. specialize (Hwf _ Hk'). cbn [snd] in Hwf.
      unfold bucket_total in Hwf. lia.
    + split; [discriminate|]. unfold zero_stats. cbn [st_lt st_pt]. lia.
  - intros tup Ht. rewrite G in Ht. rewrite B.
    destruct (dict_get feq k om); [|discriminate].
    now injection Ht as <-.
Qed.

Lemma index_lookup_witness :
  (dict_mem feq f_two (index example_entry) = true
   <-> exists b, In b example_bets /\ in_bucket "CS2" f_two b = true) /\
  (forall tup, dict_get feq f_two (index example_entry) = Some tup ->
               tup = index_tuple (bucket_at (aggregate example_bets) "CS2" f_two)).
Proof.
  apply (index_lookup example_bets "CS2" example_entry f_two).
  - vm_compute. left. reflexivity.
  - reflexivity.
Defined.

(** ** Statistics view, continued *)

Lemma counter_total_sum (tm : list (string * Counter)) :
  c_total (sport_total tm) = sum_Z (map (fun tc => c_total (snd tc)) tm) /\
  c_wins (sport_total tm) = sum_Z (map (fun tc => c_wins (snd tc)) tm).
Proof. split; reflexivity. Qed.

Lemma stats_step_total (stats : StatsTree) (b : MatchBetTuple) :
  sum_Z (map (fun st => c_total (sport_total (snd st))) (stats_step stats b))
  = sum_Z (map (fun st => c_total (sport_total (snd st))) stats)
    + (if in_view b then 1 else 0).
Proof.
  destruct (in_view b) eqn:E.
  - rewrite (stats_step_included _ _ E).
    apply (dict_upd_sum String.eqb (fun tm => c_total (sport_total tm))).
    + reflexivity.
    + intros tm. cbn [sport_total c_total].
      apply (dict_upd_sum String.eqb c_total).
      * reflexivity.
      * intros c. unfold count_bet. cbn [c_total]. reflexivity.
  - rewrite (stats_step_excluded _ _ E). lia.
Qed.

Lemma sum_Z_bounds {A : Type} (f g : A -> Z) (l : list A) :
  Forall (fun a => 0 <= f a <= g a) l ->
  0 <= sum_Z (map f l) <= sum_Z (map g l).
Proof.
  induction 1 as [|x l Hx Hl IH]; simpl.
  - unfold sum_Z. simpl. lia.
  - rewrite !sum_Z_cons. lia.
Qed.

Lemma stats_step_counted (stats : StatsTree) (b : MatchBetTuple) :
  stats_counted stats -> stats_counted (stats_step stats b).
Proof.
  intros H. destruct (in_view b) eqn:E;
    [|now rewrite (stats_step_excluded _ _ E)].
  rewrite (stats_step_included _ _ E). unfold stats_counted in *.
  assert (Hc : forall c, (c = mkCounter 0 0 \/ counter_ok c) ->
                         counter_ok (count_bet (is_win (mb_result b)) c)).
  { intros c [->|[Hw Ht]]; unfold counter_ok, count_bet;
      destruct (is_win (mb_result b)); cbn [c_wins c_total]; lia. }
  apply (dict_upd_values String.eqb
           (fun tm => tm <> [] /\ Forall (fun tc => counter_ok (snd tc)) tm)).
  - cbn [dict_upd]. split; [discriminate|].
    constructor; [|constructor]. apply Hc. now left.
  - intros tm [_ Htm]. split.
    + destruct tm as [|[t c] tm]; [discriminate|]. simpl.
      destruct (String.eqb t _); discriminate.
    + apply (dict_upd_values String.eqb counter_ok); auto.
  - exact H.
Qed.

Lemma collect_stats_counted (data : list MatchBetTuple) :
  stats_counted (collect_stats data).
Proof.
  unfold collect_stats.
  assert (G : forall stats, stats_counted stats ->
                            stats_counted (fold_left stats_step data stats)).
  { induction data as [|b data IH]; intros stats H; [exact H|].
    simpl. apply IH. now apply stats_step_counted. }
  apply G. constructor.
Qed.

Lemma fold_stats_total (data : list MatchBetTuple) :
  forall stats,
    sum_Z (map (fun st => c_total (sport_total (snd st)))
             (fold_left stats_step data stats))
    = sum_Z (map (fun st => c_total (sport_total (snd st))) stats)
      + count_if in_view data.
Proof.
  induction data as [|b data IH]; intros stats.
  - unfold count_if. simpl. lia.
  - cbn [fold_left]. rewrite IH, stats_step_total, count_if_cons. lia.
Qed.

Lemma sport_total_ok (tm : list (string * Counter)) :
  tm <> [] -> Forall (fun tc => counter_ok (snd tc)) tm ->
  counter_ok (sport_total tm).
Proof.
  intros Hne H. unfold counter_ok.
  destruct (counter_total_sum tm) as [-> ->].
  split.
  - apply sum_Z_bounds. eapply Forall_impl; [|exact H].
    intros a [Ha _]. exact Ha.
  - destruct tm as [|[t c] tm]; [contradiction|].
    inversion H as [|? ? [_ Hc] Ht]; subst. cbn [map snd]. rewrite sum_Z_cons.
    assert (0 <= sum_Z (map (fun tc => c_total (snd tc)) tm)).
    { apply (sum_Z_bounds (fun tc => c_total (snd tc))
               (fun tc => c_total (snd tc))).
      eapply Forall_impl; [|exact Ht]. intros a [_ Ha]. lia. }
    cbn [snd] in Hc. lia.
Qed.

Lemma node_of_ok (name : string) (c : Counter) :
  counter_ok c -> node_ok (node_of name c).
Proof. intros H. exact H. Qed.

(** X13: The "Total Bets" label counts exactly the records the view keeps; the
    bet counts of the sport items add up to the same number; and every item
    of the tree, sport or tournament, stands for at least one record, with
    no more wins than bets, so no sport is shown without a tournament and the
    win-rate of an item is never the [0.0] of an empty one. *)
Theorem statistics_totals (data : list MatchBetTuple) :
  total_visible_bets data = count_if in_view data /\
  sum_Z (map (fun n => node_total (fst n)) (statistics_tree data))
  = count_if in_view data /\
  Forall (fun n => node_ok (fst n) /\ snd n <> [] /\ Forall node_ok (snd n))
    (statistics_tree data).
Proof.
  assert (T : total_visible_bets data = count_if in_view data).
  { unfold total_visible_bets, collect_stats.
    rewrite fold_stats_total. unfold sum_Z. simpl. lia. }
  split; [exact T|]. split.
  - rewrite <- T. unfold total_visible_bets, statistics_tree.
    rewrite map_map. cbn [fst].
    apply sum_Z_perm.
    rewrite (map_ext _ (fun st => c_total (sport_total (snd st))))
      by reflexivity.
    apply Permutation_map, py_sorted_perm.
  - apply Forall_forall. intros [sn children] Hn.
    apply tree_entry in Hn as (s & tm & Hin & -> & ->). cbn [fst snd].
    pose proof (collect_stats_counted data) as Hc.
    unfold stats_counted in Hc. rewrite Forall_forall in Hc.
    destruct (Hc _ Hin) as [Hne Htm]. cbn [snd] in Hne, Htm.
    assert (Hp : Permutation (sorted_desc (fun t => c_total (snd t)) tm) tm)
      by apply py_sorted_perm.
    split; [now apply node_of_ok, sport_total_ok|]. split.
    + intros Hm. apply map_eq_nil in Hm. rewrite Hm in Hp.
      apply Permutation_nil in Hp. contradiction.
    + apply Forall_map. apply Forall_forall. intros tc Htc.
      apply node_of_ok. rewrite Forall_forall in Htm. apply Htm.
      now apply (Permutation_in _ Hp).
Qed.

(** ** Row ingestion, continued *)

Lemma nth_repeat_default {A : Type} (a : A) (n i : nat) :
  nth i (repeat a n) a = a.
Proof.
  revert i. induction n as [|n IH]; intros [|i]; simpl; auto.
Qed.

(** X1: A raw row of fewer than eight cells is never ingested: after padding
    its result cell, the eighth, is empty. *)
Theorem short_row_is_skipped (r : list string) :
  (List.length r < 8)%nat ->
  ingest_row r = None /\ kept r = [] /\
  forall before after,
    fetch_matchbet_data (Some (before ++ r :: after)%list)
    = (fetch_matchbet_data (Some before)
       ++ fetch_matchbet_data (Some after))%list.
Proof.
  intros H.
  assert (E : ingest_row r = None).
  { apply ingest_row_none. right. left.
    unfold result_text, pad_row, cell.
    apply Nat.ltb_lt in H. rewrite H.
    apply Nat.ltb_lt in H.
    rewrite app_nth2 by lia. now rewrite nth_repeat_default. }
  assert (K : kept r = []) by (unfold kept; now rewrite E).
  split; [exact E|]. split; [exact K|].
  intros before after. cbn [fetch_matchbet_data].
  rewrite !ingest_rows_flat_map, flat_map_app. cbn [flat_map].
  rewrite K. reflexivity.
Qed.

Lemma short_row_is_skipped_witness :
  ingest_row example_row_7 = None /\ kept example_row_7 = [] /\
  forall before after,
    fetch_matchbet_data (Some (before ++ example_row_7 :: after)%list)
    = (fetch_matchbet_data (Some before)
       ++ fetch_matchbet_data (Some after))%list.
Proof. apply (short_row_is_skipped example_row_7). simpl. lia. Defined.

Lemma py_float_valid (s : string) (x : float) :
  py_float s = Some x -> valid_float x = true.
Proof.
  unfold py_float.
  destruct (strip_underscores zero s) as [u|]; [|discriminate].
  destruct (parse_sign (strip_with is_cspace u)) as [sg r].
  destruct (parse_number r) as [[m e10]|].
  - intros [= <-]. destruct (Z.leb_spec 0 e10).
    + apply round_ratio_valid. lia.
    + apply round_ratio_valid. apply Z.pow_pos_nonneg; lia.
  - destruct ((lower r =? "inf")%string || (lower r =? "infinity")%string).
    + intros [= <-]. reflexivity.
    + destruct (lower r =? "nan")%string; [|discriminate].
      intros [= <-]. reflexivity.
Qed.

Lemma fetch_valid (raw : option (list (list string))) :
  Forall (fun b => valid_float (mb_odds b) = true) (fetch_matchbet_data raw).
Proof.
  destruct raw as [rows|]; [|constructor]. cbn [fetch_matchbet_data].
  induction rows as [|r rows IH]; [constructor|]. cbn [ingest_rows].
  destruct (ingest_row r) as [b|] eqn:E; [|exact IH].
  constructor; [|exact IH].
  apply ingest_row_some in E as (_ & _ & E & _).
  now apply py_float_valid in E.
Qed.

Lemma sport_count_cons (s : string) (b : MatchBetTuple)
    (bets : list MatchBetTuple) :
  sport_count s (b :: bets)
  = (if (mb_sport b =? s)%string then 1 else 0) + sport_count s bets.
Proof.
  unfold sport_count.
  exact (count_if_cons (fun b0 => (mb_sport b0 =? s)%string) b bets).
Qed.

Lemma indicator_sum (x : string) (l : list string) :
  NoDup l ->
  sum_Z (map (fun s => if (x =? s)%string then 1 else 0) l)
  = if in_dec string_dec x l then 1 else 0.
Proof.
  induction 1 as [|y l Hy Hl IH]; [reflexivity|].
  cbn [map]. rewrite sum_Z_cons, IH.
  destruct (String.eqb_spec x y) as [<-|N].
  - destruct (in_dec string_dec x l); [contradiction|].
    destruct (in_dec string_dec x (x :: l)) as [_|Hn]; [lia|].
    exfalso. apply Hn. now left.
  - destruct (in_dec string_dec x l) as [Hi|Hi];
      destruct (in_dec string_dec x (y :: l)) as [Hj|Hj]; try lia.
    + exfalso. apply Hj. now right.
    + destruct Hj as [->|Hj]; contradiction.
Qed.

Lemma sum_Z_add {A : Type} (f g : A -> Z) (l : list A) :
  sum_Z (map (fun a => f a + g a) l) = sum_Z (map f l) + sum_Z (map g l).
Proof.
  induction l as [|x l IH]; [reflexivity|].
  cbn [map]. rewrite !sum_Z_cons, IH. lia.
Qed.

Lemma sport_counts_sum (bets : list MatchBetTuple) (l : list string) :
  NoDup l -> (forall b, In b bets -> In (mb_sport b) l) ->
  sum_Z (map (fun s => sport_count s bets) l) = Z.of_nat (List.length bets).
Proof.
  intros Hnd. induction bets as [|b bets IH]; intros Hin.
  - unfold sport_count, count_if. cbn [filter List.length].
    clear Hnd Hin. induction l as [|s l IHl]; [reflexivity|].
    cbn [map]. rewrite sum_Z_cons, IHl. reflexivity.
  - rewrite (map_ext _ (fun s => (if (mb_sport b =? s)%string then 1 else 0)
                                 + sport_count s bets))
      by (intros s; apply sport_count_cons).
    rewrite sum_Z_add. rewrite indicator_sum by assumption.
    rewrite IH by (intros b' Hb'; apply Hin; now right).
    destruct (in_dec string_dec (mb_sport b) l) as [_|Hn].
    + cbn [List.length]. lia.
    + exfalso. apply Hn, Hin. now left.
Qed.

(** X2: Ingestion and aggregation together lose no record: every odds value
    that ingestion produces is a binary64 value, and the bet counts of the
    sports in the selector add up to the number of ingested records. *)
Theorem ingested_records_all_counted (raw : option (list (list string))) :
  Forall (fun b => valid_float (mb_odds b) = true) (fetch_matchbet_data raw) /\
  (forall b, In b (fetch_matchbet_data raw) ->
             round_odds_key (mb_odds b) <> None) /\
  sum_Z (map (count_bets (process_bets_to_cache (fetch_matchbet_data raw)))
           (get_sorted_sports (process_bets_to_cache (fetch_matchbet_data raw))))
  = Z.of_nat (List.length (fetch_matchbet_data raw)).
Proof.
  pose proof (fetch_valid raw) as Hv.
  pose proof (round_key_some _ Hv) as Hsome.
  split; [exact Hv|]. split; [exact Hsome|].
  set (bets := fetch_matchbet_data raw) in *.
  destruct (cache_sports bets) as [Hnd Hkeys].
  rewrite (map_ext _ (fun s => sport_count s bets))
    by (intros s; now apply count_bets_records).
  rewrite (sum_Z_perm _ (map (fun s => sport_count s bets)
                           (map fst (process_bets_to_cache bets))))
    by (apply Permutation_map, py_sorted_perm).
  apply sport_counts_sum; [exact Hnd|].
  intros b Hb. apply Hkeys. now apply in_map.
Qed.

(** ** Tournament names, continued *)

Lemma last_char_some (t : string) :
  forall c, exists x, last_char (String c t) = Some x.
Proof.
  induction t as [|d t IH]; intros c; [now exists c|].
  destruct (IH d) as [x Hx]. exists x. exact Hx.
Qed.

Lemma last_char_cons (c : ascii) (t : string) :
  last_char (String c t)
  = match last_char t with Some d => Some d | None => Some c end.
Proof.
  destruct t as [|d t]; [reflexivity|].
  destruct (last_char_some t d) as [x Hx].
  change (last_char (String c (String d t))) with (last_char (String d t)).
  now rewrite Hx.
Qed.

Lemma rev_string_onto_ends (s : string) :
  forall acc,
    first_char (rev_string_onto s acc)
    = match last_char s with Some c => Some c | None => first_char acc end /\
    last_char (rev_string_onto s acc)
    = match last_char acc with Some c => Some c | None => first_char s end.
Proof.
  induction s as [|c t IH]; intros acc.
  - cbn [rev_string_onto last_char first_char].
    destruct (last_char acc); split; reflexivity.
  - cbn [rev_string_onto first_char]. destruct (IH (String c acc)) as [F L].
    rewrite F, L, !last_char_cons. cbn [first_char]. split.
    + destruct (last_char t); reflexivity.
    + destruct (last_char acc); reflexivity.
Qed.

Lemma rev_string_ends (s : string) :
  first_char (rev_string s) = last_char s /\
  last_char (rev_string s) = first_char s.
Proof.
  unfold rev_string. destruct (rev_string_onto_ends s "") as [F L].
  rewrite F, L. cbn [first_char last_char].
  split; [destruct (last_char s)|]; reflexivity.
Qed.

Lemma lstrip_first (p : ascii -> bool) (s : string) (c : ascii) :
  first_char (lstrip_with p s) = Some c -> p c = false.
Proof.
  induction s as [|d t IH]; cbn [lstrip_with]; [discriminate|].
  destruct (p d) eqn:E; [exact IH|].
  cbn [first_char]. now intros [= <-].
Qed.

Lemma lstrip_last (p : ascii -> bool) (s : string) (c : ascii) :
  last_char (lstrip_with p s) = Some c -> last_char s = Some c.
Proof.
  induction s as [|d t IH]; cbn [lstrip_with]; [discriminate|].
  destruct (p d) eqn:E; [|auto].
  intros H. rewrite last_char_cons, (IH H). reflexivity.
Qed.

Lemma strip_with_ends (p : ascii -> bool) (s : string) (c : ascii) :
  (first_char (strip_with p s) = Some c -> p c = false) /\
  (last_char (strip_with p s) = Some c -> p c = false).
Proof.
  unfold strip_with.
  destruct (rev_string_ends
              (lstrip_with p (rev_string (lstrip_with p s)))) as [F L].
  rewrite F, L. split.
  - intros H. apply lstrip_last in H.
    rewrite (proj2 (rev_string_ends _)) in H.
    now apply lstrip_first in H.
  - apply lstrip_first.
Qed.

(** ** Rounding of the odds *)

Lemma rho_signed_round_ratio (s : bool) (n d : Z) :
  0 <= n -> 0 < d ->
  rho (round_ratio s n d) = signed s (rho (round_ratio false n d)).
Proof.
  intros Hn Hd. destruct (Z.eq_dec n 0) as [->|N].
  - change (round_ratio s 0 d) with (S754_zero s).
    change (round_ratio false 0 d) with (S754_zero false).
    cbn [rho]. now rewrite signed_zero.
  - rewrite !rho_round_ratio by lia. reflexivity.
Qed.

Lemma py_round4_rank (s : bool) (m : positive) (e : Z) (k : float) :
  valid_float (S754_finite s m e) = true ->
  py_round4 (S754_finite s m e) = Some k ->
  rho k = signed s (key_rank (Zpos m * 2 ^ (e + 1074))).
Proof.
  intros V. pose proof (valid_finite _ _ _ V) as (Hm & He & _).
  cbn [py_round4].
  assert (En : div_half_even (num_at (- e) (Z.pos m * 10000)) (den_at (- e) 1)
               = myriads (Zpos m * 2 ^ (e + 1074))).
  { unfold myriads, num_at, den_at.
    destruct (Z.ltb_spec (- e) 0) as [L|L].
    - rewrite Z.opp_involutive.
      rewrite <- (div_half_even_scale _ 1 (2 ^ 1074))
        by (try apply pow2_pos; lia).
      rewrite Z.mul_1_l. f_equal.
      rewrite (Z.pow_add_r 2 e 1074) by lia. ring.
    - assert (P : 0 < 2 ^ (e + 1074)) by (apply pow2_pos; lia).
      assert (Q : 0 < 2 ^ (- e)) by (apply pow2_pos; lia).
      rewrite <- (div_half_even_scale _ (1 * 2 ^ (- e)) (2 ^ (e + 1074)))
        by lia.
      rewrite Z.mul_1_l, <- Z.pow_add_r by lia.
      replace (- e + (e + 1074)) with 1074 by lia. f_equal. ring. }
  rewrite En. set (n := myriads _).
  assert (Hn : 0 <= n).
  { unfold n, myriads.
    assert (P : 0 < 2 ^ 1074) by (apply pow2_pos; lia).
    assert (P2 : 0 < 2 ^ (e + 1074)) by (apply pow2_pos; lia).
    pose proof (div_half_even_bounds (Z.pos m * 2 ^ (e + 1074) * 10000)
                  (2 ^ 1074) ltac:(nia) P) as [B _].
    assert (0 <= Z.pos m * 2 ^ (e + 1074) * 10000 / 2 ^ 1074)
      by (apply Z.div_pos; nia).
    lia. }
  intros H.
  assert (Ek : k = round_ratio s n 10000)
    by (destruct (round_ratio s n 10000); congruence).
  rewrite Ek. unfold key_rank. fold n.
  apply rho_signed_round_ratio; lia.
Qed.

Lemma myriads_mono (a b : Z) : 0 <= a <= b -> myriads a <= myriads b.
Proof.
  intros H. unfold myriads. apply div_half_even_mono; [lia|].
  apply pow2_pos. lia.
Qed.

Lemma myriads_nonneg (a : Z) : 0 <= a -> 0 <= myriads a.
Proof.
  intros H. pose proof (myriads_mono 0 a ltac:(lia)) as M.
  change (myriads 0) with 0 in M. exact M.
Qed.

Lemma key_rank_mono (a b : Z) : 0 <= a <= b -> key_rank a <= key_rank b.
Proof.
  intros H. unfold key_rank.
  pose proof (myriads_mono a b H) as M.
  pose proof (myriads_nonneg a ltac:(lia)) as Na.
  destruct (Z.eq_dec (myriads a) 0) as [E|E].
  - rewrite E. change (round_ratio false 0 10000) with (S754_zero false).
    cbn [rho].
    destruct (Z.eq_dec (myriads b) 0) as [E'|E'].
    + rewrite E'. reflexivity.
    + apply rho_round_ratio_range; lia.
  - apply round_ratio_mono; lia.
Qed.

Lemma key_rank_range (a : Z) : 0 <= a -> 0 <= key_rank a <= big.
Proof.
  intros H. unfold key_rank. pose proof (myriads_nonneg a H) as N.
  pose proof big_pos.
  destruct (Z.eq_dec (myriads a) 0) as [E|E].
  - rewrite E. change (round_ratio false 0 10000) with (S754_zero false).
    cbn [rho]. lia.
  - apply rho_round_ratio_range; lia.
Qed.

(** The rank of the key of an ordered float [x]. *)
Lemma py_round4_rho (x k : float) :
  ordered x -> py_round4 x = Some k ->
  rho k = if is_inf x then rho x
          else if rho x <? 0 then - key_rank (- rho x) else key_rank (rho x).
Proof.
  intros [V N] H. destruct x as [s|s| |s m e].
  - injection H as <-. reflexivity.
  - injection H as <-. reflexivity.
  - discriminate N.
  - rewrite (py_round4_rank _ _ _ _ V H). cbn [is_inf rho].
    pose proof (mag_bounds _ _ _ V) as [B _].
    destruct s; cbn [signed].
    + destruct (Z.ltb_spec (- (Z.pos m * 2 ^ (e + 1074))) 0); [|lia].
      now rewrite Z.opp_involutive.
    + destruct (Z.ltb_spec (Z.pos m * 2 ^ (e + 1074)) 0); [lia|reflexivity].
Qed.

(** X5: Rounding the odds to a key keeps their order: of two odds values the
    smaller never gets the larger key. *)
Theorem round_odds_key_monotone (x y kx ky : float)
    (Vx : valid_float x = true) (Vy : valid_float y = true)
    (Hx : round_odds_key x = Some kx) (Hy : round_odds_key y = Some ky)
    (Hle : fle x y = true) :
  fle kx ky = true.
Proof.
  unfold round_odds_key in *.
  assert (Nx : is_nan x = false).
  { destruct x; try reflexivity. discriminate Hle. }
  assert (Ny : is_nan y = false).
  { destruct y; try reflexivity. destruct x; discriminate Hle. }
  destruct (py_round4_ordered _ _ Hx) as [Vkx Nkx].
  destruct (py_round4_ordered _ _ Hy) as [Vky Nky].
  rewrite fle_rho in * by (split; auto).
  apply Z.leb_le in Hle. apply Z.leb_le.
  rewrite (py_round4_rho x kx (conj Vx Nx) Hx).
  rewrite (py_round4_rho y ky (conj Vy Ny) Hy).
  pose proof big_pos as B.
  assert (Rx : is_inf x = false -> - big < rho x < big)
    by (apply rho_finite_range; split; assumption).
  assert (Ry : is_inf y = false -> - big < rho y < big)
    by (apply rho_finite_range; split; assumption).
  assert (Ix : is_inf x = true -> rho x = big \/ rho x = - big).
  { destruct x as [s|s| |s m e]; try discriminate.
    intros _. cbn [rho]. destruct s; cbn [signed]; auto. }
  assert (Iy : is_inf y = true -> rho y = big \/ rho y = - big).
  { destruct y as [s|s| |s m e]; try discriminate.
    intros _. cbn [rho]. destruct s; cbn [signed]; auto. }
  destruct (is_inf x) eqn:Ex, (is_inf y) eqn:Ey.
  - exact Hle.
  - specialize (Ry eq_refl). destruct (Ix eq_refl) as [E|E]; [lia|].
    rewrite E.
    destruct (Z.ltb_spec (rho y) 0).
    + pose proof (key_rank_range (- rho y) ltac:(lia)). lia.
    + pose proof (key_rank_range (rho y) ltac:(lia)). lia.
  - specialize (Rx eq_refl). destruct (Iy eq_refl) as [E|E]; [|lia].
    rewrite E.
    destruct (Z.ltb_spec (rho x) 0).
    + pose proof (key_rank_range (- rho x) ltac:(lia)). lia.
    + pose proof (key_rank_range (rho x) ltac:(lia)). lia.
  - destruct (Z.ltb_spec (rho x) 0), (Z.ltb_spec (rho y) 0).
    + pose proof (key_rank_mono (- rho y) (- rho x) ltac:(lia)). lia.
    + pose proof (key_rank_range (- rho x) ltac:(lia)).
      pose proof (key_rank_range (rho y) ltac:(lia)). lia.
    + lia.
    + apply key_rank_mono. lia.
Qed.

Lemma round_odds_key_monotone_witness : fle f_1_5 f_two = true.
Proof.
  apply (round_odds_key_monotone f_1_5 f_two f_1_5 f_two);
    vm_compute; reflexivity.
Defined.

(** ** Texts of the table read back *)

Lemma append_nil_r (s : string) : s ++ "" = s.
Proof. induction s as [|c t IH]; [reflexivity|]. cbn. now rewrite IH. Qed.

Lemma append_assoc (a b c : string) : (a ++ b) ++ c = a ++ (b ++ c).
Proof. induction a as [|x a IH]; [reflexivity|]. cbn. now rewrite IH. Qed.

Lemma rev_string_onto_twice (s : string) :
  forall acc acc2,
    rev_string_onto (rev_string_onto s acc) acc2
    = rev_string_onto acc (s ++ acc2).
Proof.
  induction s as [|c t IH]; intros acc acc2; [reflexivity|].
  cbn [rev_string_onto]. rewrite IH. reflexivity.
Qed.

Lemma rev_string_involutive (s : string) : rev_string (rev_string s) = s.
Proof.
  unfold rev_string. rewrite rev_string_onto_twice.
  cbn [rev_string_onto]. apply append_nil_r.
Qed.

Lemma rev_string_onto_app (a b acc : string) :
  rev_string_onto (a ++ b) acc = rev_string_onto b (rev_string_onto a acc).
Proof.
  revert acc. induction a as [|c a IH]; intros acc; [reflexivity|].
  cbn. apply IH.
Qed.

Lemma first_char_app (a b : string) :
  first_char (a ++ b)
  = match first_char a with Some c => Some c | None => first_char b end.
Proof. destruct a; reflexivity. Qed.

Lemma last_char_app (a b : string) :
  last_char (a ++ b)
  = match last_char b with Some c => Some c | None => last_char a end.
Proof.
  induction a as [|c a IH].
  - cbn. destruct (last_char b); reflexivity.
  - change (String c a ++ b) with (String c (a ++ b)).
    rewrite !last_char_cons, IH.
    destruct (last_char b); [reflexivity|]. reflexivity.
Qed.

Lemma lstrip_id (p : ascii -> bool) (s : string) :
  (forall c, first_char s = Some c -> p c = false) -> lstrip_with p s = s.
Proof.
  destruct s as [|c t]; [reflexivity|]. intros H. cbn [lstrip_with].
  now rewrite (H c eq_refl).
Qed.

Lemma strip_with_id (p : ascii -> bool) (s : string) :
  (forall c, first_char s = Some c -> p c = false) ->
  (forall c, last_char s = Some c -> p c = false) ->
  strip_with p s = s.
Proof.
  intros Hf Hl. unfold strip_with. rewrite (lstrip_id p s Hf).
  rewrite lstrip_id; [apply rev_string_involutive|].
  intros c. rewrite (proj1 (rev_string_ends s)). apply Hl.
Qed.

Lemma rstrip_with_app_char (p : ascii -> bool) (u : string) (c : ascii) :
  p c = true -> (forall d, last_char u = Some d -> p d = false) ->
  rstrip_with p (u ++ String c "") = u.
Proof.
  intros Hc Hl. unfold rstrip_with, rev_string.
  rewrite rev_string_onto_app. cbn [rev_string_onto lstrip_with].
  rewrite Hc. fold (rev_string u).
  rewrite lstrip_id; [apply rev_string_involutive|].
  intros d. rewrite (proj1 (rev_string_ends u)). apply Hl.
Qed.

Lemma string_forall_app (p : ascii -> bool) (a b : string) :
  string_forall p (a ++ b) = string_forall p a && string_forall p b.
Proof.
  induction a as [|c a IH]; [reflexivity|].
  cbn. rewrite IH. now rewrite andb_assoc.
Qed.

Lemma string_forall_impl (p q : ascii -> bool) (s : string) :
  (forall c, p c = true -> q c = true) ->
  string_forall p s = true -> string_forall q s = true.
Proof.
  intros H. induction s as [|c t IH]; [reflexivity|].
  cbn. intros E. apply andb_prop in E as [E1 E2].
  now rewrite (H c E1), IH.
Qed.

Lemma all_digits_forall (s : string) : all_digits s = string_forall is_digit s.
Proof. induction s as [|c t IH]; [reflexivity|]. cbn. now rewrite IH. Qed.

Lemma strip_underscores_id (s : string) :
  forall prev,
    is_underscore prev = false ->
    string_forall (fun c => negb (is_underscore c)) s = true ->
    strip_underscores prev s = Some s.
Proof.
  induction s as [|c t IH]; intros prev Hp H; cbn [strip_underscores].
  - now rewrite Hp.
  - cbn [string_forall] in H. apply andb_prop in H as [Hc Ht].
    apply negb_true_iff in Hc. rewrite Hc, Hp. cbn [andb].
    now rewrite (IH c Hc Ht).
Qed.

Lemma digit_not_special (c : ascii) :
  is_digit c = true ->
  is_underscore c = false /\ is_cspace c = false /\ is_percent c = false /\
  (code c =? 45) = false /\ (code c =? 43) = false /\ c <> "N"%char.
Proof.
  unfold is_digit, is_underscore, is_cspace, is_percent. intros H.
  apply andb_prop in H as [H1 H2]. apply Z.leb_le in H1, H2.
  repeat split;
    try (apply Z.eqb_neq; lia);
    try (apply orb_false_iff; split;
         [apply andb_false_iff; right; apply Z.leb_gt; lia
         | apply Z.eqb_neq; lia]).
  intros ->. change (code "N") with 78 in H2. lia.
Qed.

Lemma digit_code (d : Z) :
  0 <= d < 10 -> code (digit_char d) - 48 = d.
Proof.
  intros H.
  assert (E : d = 0 \/ d = 1 \/ d = 2 \/ d = 3 \/ d = 4 \/ d = 5 \/ d = 6
              \/ d = 7 \/ d = 8 \/ d = 9) by lia.
  repeat (destruct E as [->|E]; [reflexivity|]). now subst.
Qed.

Lemma take_digits_digit (d : Z) (t : string) (A C : Z) :
  0 <= d < 10 ->
  take_digits (String (digit_char d) t) A C = take_digits t (10 * A + d) (C + 1).
Proof.
  intros H. cbn [take_digits].
  now rewrite (digit_char_is_digit d H), (digit_code d H).
Qed.

Lemma digits_fuel_app (fuel : nat) :
  forall n acc rest,
    digits_fuel fuel n acc ++ rest = digits_fuel fuel n (acc ++ rest).
Proof.
  induction fuel as [|f IH]; intros n acc rest; cbn [digits_fuel];
    [reflexivity|].
  destruct (n <? 10); [reflexivity|]. now rewrite IH.
Qed.

Lemma take_digits_digits_fuel (f : nat) :
  forall n acc,
    0 <= n < 2 ^ Z.of_nat (S f) ->
    exists k, 0 < k /\
      forall A C, take_digits (digits_fuel (S f) n acc) A C
                  = take_digits acc (A * 10 ^ k + n) (C + k).
Proof.
  induction f as [|f IH]; intros n acc Hn.
  - exists 1. split; [lia|]. intros A C.
    change (2 ^ Z.of_nat 1) with 2 in Hn.
    cbn [digits_fuel].
    destruct (Z.ltb_spec n 10); [|lia].
    rewrite Z.mod_small by lia.
    rewrite take_digits_digit by lia. f_equal. lia.
  - remember (S f) as g eqn:Eg.
    cbn [digits_fuel]. destruct (Z.ltb_spec n 10) as [L|L].
    + exists 1. split; [lia|]. intros A C.
      rewrite Z.mod_small by lia.
      rewrite take_digits_digit by lia. f_equal. lia.
    + assert (Hd : 0 <= n / 10 < 2 ^ Z.of_nat g).
      { split; [apply Z.div_pos; lia|].
        apply Z.div_lt_upper_bound; [lia|].
        replace (Z.of_nat (S g)) with (Z.of_nat g + 1) in Hn by lia.
        rewrite Z.pow_add_r in Hn by lia.
        assert (0 < 2 ^ Z.of_nat g) by (apply pow2_pos; lia). lia. }
      subst g.
      destruct (IH (n / 10) (String (digit_char (n mod 10)) acc) Hd)
        as (k & Hk & E).
      exists (k + 1). split; [lia|]. intros A C. rewrite E.
      pose proof (Z.mod_pos_bound n 10 ltac:(lia)) as Hm.
      rewrite take_digits_digit by lia. f_equal; [|lia].
      rewrite Z.pow_add_r by lia.
      pose proof (Z.div_mod n 10 ltac:(lia)). lia.
Qed.

Lemma take_digits_str_of_Z (n : Z) (rest : string) :
  0 <= n ->
  exists k, 0 < k /\
    forall A C, take_digits (str_of_Z n ++ rest) A C
                = take_digits rest (A * 10 ^ k + n) (C + k).
Proof.
  intros Hn. unfold str_of_Z. rewrite digits_fuel_app. cbn [String.append].
  apply take_digits_digits_fuel. split; [assumption|].
  destruct (Z.eq_dec n 0) as [->|N]; [reflexivity|].
  pose proof (Z.log2_nonneg n) as Hl.
  replace (Z.of_nat (S (Z.to_nat (Z.log2 n)))) with (Z.succ (Z.log2 n)) by lia.
  apply Z.log2_spec. lia.
Qed.

(** The text of a number with two decimals denotes that number. *)
Lemma py_float_two_decimals (sg : bool) (n : Z) :
  0 <= n ->
  py_float (sign_str sg ++ str_of_Z (n / 100) ++ "."
            ++ String (digit_char (n / 10 mod 10))
                 (String (digit_char (n mod 10)) ""))
  = Some (round_ratio sg n 100).
Proof.
  intros Hn.
  set (frac := String (digit_char (n / 10 mod 10))
                 (String (digit_char (n mod 10)) "")).
  set (body := str_of_Z (n / 100) ++ "." ++ frac).
  pose proof (Z.mod_pos_bound (n / 10) 10 ltac:(lia)) as H1.
  pose proof (Z.mod_pos_bound n 10 ltac:(lia)) as H0.
  destruct (str_of_Z_shape (n / 100)) as [Hne Hd].
  rewrite all_digits_forall in Hd.
  assert (Hfrac : string_forall is_digit frac = true).
  { unfold frac. cbn [string_forall].
    now rewrite !digit_char_is_digit by lia. }
  assert (Hfirst : exists c t, str_of_Z (n / 100) = String c t
                               /\ is_digit c = true).
  { destruct (str_of_Z (n / 100)) as [|c t]; [contradiction|].
    exists c, t. split; [reflexivity|]. cbn [string_forall] in Hd.
    now apply andb_prop in Hd as [Hd _]. }
  destruct Hfirst as (c0 & t0 & E0 & D0).
  assert (Hlast : last_char body = Some (digit_char (n mod 10))).
  { unfold body. rewrite last_char_app. reflexivity. }
  assert (Hbody_first : first_char body = Some c0).
  { unfold body. rewrite E0. reflexivity. }
  (* no digit separators *)
  assert (Hnu : string_forall (fun c => negb (is_underscore c))
                  (sign_str sg ++ body) = true).
  { rewrite string_forall_app. apply andb_true_intro. split.
    - destruct sg; reflexivity.
    - unfold body. rewrite !string_forall_app.
      apply andb_true_intro. split; [|apply andb_true_intro; split].
      + eapply string_forall_impl; [|exact Hd]. intros c Hc.
        apply negb_true_iff. now apply digit_not_special.
      + reflexivity.
      + eapply string_forall_impl; [|exact Hfrac]. intros c Hc.
        apply negb_true_iff. now apply digit_not_special. }
  unfold py_float.
  rewrite (strip_underscores_id _ zero eq_refl Hnu).
  (* no surrounding whitespace *)
  rewrite strip_with_id.
  2: { intros c. rewrite first_char_app. destruct sg; cbn [sign_str first_char].
       - intros [= <-]. reflexivity.
       - rewrite Hbody_first. intros [= <-]. now apply digit_not_special. }
  2: { intros c. rewrite last_char_app, Hlast. intros [= <-].
       apply digit_not_special, digit_char_is_digit. lia. }
  (* the sign *)
  assert (Es : parse_sign (sign_str sg ++ body) = (sg, body)).
  { destruct sg; [reflexivity|]. cbn [sign_str String.append].
    unfold body. rewrite E0. cbn [String.append parse_sign].
    destruct (digit_not_special c0 D0) as (_ & _ & _ & M & P & _).
    now rewrite M, P. }
  rewrite Es.
  (* the digits *)
  unfold parse_number, body.
  destruct (take_digits_str_of_Z (n / 100) ("." ++ frac)
              ltac:(apply Z.div_pos; lia)) as (k & Hk & E).
  rewrite E. cbn [String.append take_digits].
  change (is_digit ".") with false. cbv iota.
  change (code "." =? 46) with true. cbv iota.
  unfold frac. rewrite !take_digits_digit by lia.
  cbn [take_digits].
  destruct (Z.eqb_spec (0 + k + (0 + 1 + 1)) 0) as [Ez|_]; [lia|].
  f_equal.
  change (0 <=? - (0 + 1 + 1)) with false. cbv iota.
  change (- - (0 + 1 + 1)) with 2. change (10 ^ 2) with 100.
  f_equal.
  pose proof (Z.div_mod n 10 ltac:(lia)) as D1.
  pose proof (Z.div_mod (n / 10) 10 ltac:(lia)) as D2.
  rewrite Z.div_div in D2 by lia. change (10 * 10) with 100 in D2.
  lia.
Qed.

Lemma round2_decimal (x : float) :
  is_finite x = true ->
  exists sg n,
    0 <= n /\
    format_f 2 x
    = sign_str sg ++ str_of_Z (n / 100) ++ "."
      ++ String (digit_char (n / 10 mod 10))
           (String (digit_char (n mod 10)) "") /\
    round2 x = round_ratio sg n 100.
Proof.
  destruct x as [s|s| |s m e]; try discriminate; intros _.
  - exists s, 0. split; [lia|]. split; destruct s; reflexivity.
  - cbn [format_f round2]. change (10 ^ Z.of_nat 2) with 100.
    set (n := div_half_even _ _). exists s, n.
    split; [|split; reflexivity].
    unfold n.
    pose proof (den_at_pos (- e) 1 ltac:(lia)) as D.
    pose proof (num_at_nonneg (- e) (Z.pos m * 100) ltac:(lia)) as N.
    pose proof (div_half_even_bounds _ _ N D) as [B _].
    pose proof (Z.div_pos _ _ N D). lia.
Qed.

Lemma py_float_format_2 (x : float) :
  py_float (format_f 2 x) = Some (round2 x).
Proof.
  destruct (is_finite x) eqn:F.
  - destruct (round2_decimal x F) as (sg & n & Hn & -> & ->).
    now apply py_float_two_decimals.
  - destruct x as [s|s| |s m e]; try discriminate F.
    + destruct s; vm_compute; reflexivity.
    + vm_compute. reflexivity.
Qed.

Lemma format_f_2_ends (x : float) :
  (exists c t, format_f 2 x = String c t /\ c <> "N"%char) /\
  (forall d, last_char (format_f 2 x) = Some d -> is_percent d = false).
Proof.
  destruct (is_finite x) eqn:F.
  - destruct (round2_decimal x F) as (sg & n & Hn & -> & _).
    pose proof (Z.mod_pos_bound n 10 ltac:(lia)) as H0.
    split.
    + destruct sg; cbn [sign_str String.append].
      * eexists _, _. split; [reflexivity|]. discriminate.
      * destruct (str_of_Z_shape (n / 100)) as [Hne Hd].
        destruct (str_of_Z (n / 100)) as [|c t]; [contradiction|].
        exists c. eexists. split; [reflexivity|].
        cbn [all_digits] in Hd. apply andb_prop in Hd as [Hd _].
        now apply digit_not_special.
    + intros d. rewrite !last_char_app. cbn [last_char]. intros [= <-].
      apply digit_not_special, digit_char_is_digit. lia.
  - destruct x as [s|s| |s m e]; try discriminate F.
    + destruct s; (split; [eexists _, _; split;
                           [reflexivity | discriminate]|]);
        intros d; cbn; intros [= <-]; reflexivity.
    + split; [eexists _, _; split; [reflexivity | discriminate]|].
      intros d; cbn; intros [= <-]; reflexivity.
Qed.

Lemma parse_cell_fmt_wr (wr : option float) :
  parse_cell (fmt_wr wr) = Some (reread_wr wr).
Proof.
  destruct wr as [w|]; [|reflexivity].
  cbn [fmt_wr reread_wr option_map]. unfold percent, parse_cell.
  destruct (format_f_2_ends (fmul w f_hundred)) as [(c & t & E & Hc) Hl].
  assert (E1 : (format_f 2 (fmul w f_hundred) ++ "%" =? "")%string = false).
  { rewrite E. reflexivity. }
  assert (E2 : (format_f 2 (fmul w f_hundred) ++ "%" =? "N/A")%string = false).
  { rewrite E. apply String.eqb_neq. cbn [String.append].
    intros [= -> _]. now apply Hc. }
  rewrite E1, E2. cbn [orb].
  rewrite (rstrip_with_app_char is_percent _ "%"%char eq_refl Hl).
  now rewrite py_float_format_2.
Qed.

(** X9: The texts of the table denote the values rounded to two decimals:
    reading the odds text back with [float] gives the float nearest to the
    odds rounded to two decimals, for every float, infinite and NaN
    included; [parse_cell] reads an absent win-rate back as absent and a
    present one as its percentage rounded to two decimals, divided by 100. *)
Theorem table_texts_read_back :
  (forall x, py_float (format_f 2 x) = Some (round2 x)) /\
  (forall wr, parse_cell (fmt_wr wr) = Some (reread_wr wr)) /\
  (forall wr, reread_wr wr = None <-> wr = None).
Proof.
  split; [exact py_float_format_2|]. split; [exact parse_cell_fmt_wr|].
  intros [w|]; cbn; split; congruence.
Qed.

Lemma update_row_table_row (bt bt' : string) (r : RowTuple) :
  update_row bt' (table_row bt r) = Some (reread_row bt' r).
Proof.
  destruct r as [odds [[[live_wr prem_wr] live_n] prem_n]].
  unfold update_row, table_row, reread_row.
  destruct (fmt_ev (if (bt =? "Live")%string then live_wr else prem_wr)
              (Some odds)) as [ev_str ev_val].
  cbn [it_odds it_live it_prem item_text].
  rewrite py_float_format_2, !parse_cell_fmt_wr.
  destruct (bt' =? "Live")%string;
    match goal with
    | |- context [fmt_ev ?a ?b] => destruct (fmt_ev a b)
    end; reflexivity.
Qed.

Lemma update_row_reread_row (bt bt' : string) (r : RowTuple) :
  update_row bt' (reread_row bt r) = Some (reread_row bt' r).
Proof.
  destruct r as [odds [[[live_wr prem_wr] live_n] prem_n]].
  unfold update_row, reread_row.
  destruct (fmt_ev (reread_wr (if (bt =? "Live")%string
                               then live_wr else prem_wr))
              (Some (round2 odds))) as [ev_str ev_val].
  cbn [it_odds it_live it_prem item_text].
  rewrite py_float_format_2, !parse_cell_fmt_wr.
  destruct (bt' =? "Live")%string;
    match goal with
    | |- context [fmt_ev ?a ?b] => destruct (fmt_ev a b)
    end; reflexivity.
Qed.

(** X10: Changing the bet type never fails on a table that [fill_table] made,
    and it recomputes the EV and the colour of every row from the texts of
    the row: from the odds and the win-rate rounded to two decimals, not from
    the values of the cache.  Later changes read the same texts, so the
    table then depends on the bet type alone.  The EV shown after a change
    can differ from the one [fill_table] shows for the same bet type: at
    odds 1.8549 and a win-rate of one half, -7.26% before and -7.50%
    after. *)
Theorem update_ev_only_rereads_texts (rows : list RowTuple)
    (bt bt' bt'' : string) :
  update_ev_only bt' (fill_table rows bt) = Some (map (reread_row bt') rows) /\
  update_ev_only bt'' (map (reread_row bt') rows)
  = Some (map (reread_row bt'') rows) /\
  py_float "1.8549" = Some f_1_8549 /\
  map (fun row => item_text (it_ev row)) (fill_table [example_cache_row] "Live")
  = ["-7.26%"] /\
  option_map (map (fun row => item_text (it_ev row)))
    (update_ev_only "Live" (fill_table [example_cache_row] "Live"))
  = Some ["-7.50%"].
Proof.
  split; [|split].
  - unfold fill_table. induction rows as [|r rows IH]; [reflexivity|].
    cbn [map update_ev_only]. now rewrite update_row_table_row, IH.
  - induction rows as [|r rows IH]; [reflexivity|].
    cbn [map update_ev_only]. now rewrite update_row_reread_row, IH.
  - vm_compute. repeat split.
Qed.

(** ** Order of the sports with equally many records *)

Lemma ltb_opp (a b : Z) : (b <? a) = (- a <? - b).
Proof.
  destruct (Z.ltb_spec b a), (Z.ltb_spec (- a) (- b)); (reflexivity || lia).
Qed.

Section SortingStable.

Context {A : Type} (lt : A -> A -> bool) (key : A -> Z) (p : A -> bool).
Hypothesis lt_key : forall x y, lt x y = (key x <? key y).
Hypothesis same_class :
  forall x y, p x = true -> p y = true -> key x = key y.

Lemma filter_rev (l : list A) : filter p (rev l) = rev (filter p l).
Proof.
  induction l as [|x l IH]; [reflexivity|].
  cbn [rev filter]. rewrite filter_app, IH. cbn [filter].
  destruct (p x); cbn [rev]; [reflexivity | now rewrite app_nil_r].
Qed.

Lemma filter_above (x : A) (l : list A) :
  p x = true -> Forall (fun z => key x < key z) l -> filter p l = [].
Proof.
  intros Px. induction 1 as [|z l Hz Hl IH]; [reflexivity|].
  cbn [filter]. destruct (p z) eqn:Pz; [|exact IH].
  pose proof (same_class x z Px Pz). lia.
Qed.

(** A run of strictly increasing keys holds at most one element of the
    class. *)
Lemma filter_strict_run (l : list A) :
  StronglySorted (fun a b => key a < key b) l ->
  rev (filter p l) = filter p l.
Proof.
  induction 1 as [|x l Hs IH Hx]; [reflexivity|].
  cbn [filter]. destruct (p x) eqn:Px; [|exact IH].
  now rewrite (filter_above x l Px Hx).
Qed.

Lemma run_desc_rev (l : list A) :
  forall prev acc,
    (rev (fst (run_desc lt prev l acc)) ++ snd (run_desc lt prev l acc))%list
    = (rev acc ++ l)%list.
Proof.
  induction l as [|x t IH]; intros prev acc; cbn [run_desc].
  - reflexivity.
  - destruct (lt x prev); [|reflexivity].
    rewrite IH. cbn [rev]. now rewrite <- app_assoc.
Qed.

Lemma run_asc_app (l : list A) :
  forall prev racc,
    (fst (run_asc lt prev l racc) ++ snd (run_asc lt prev l racc))%list
    = (rev racc ++ l)%list.
Proof.
  induction l as [|x t IH]; intros prev racc; cbn [run_asc].
  - reflexivity.
  - destruct (lt x prev); [reflexivity|].
    rewrite IH. cbn [rev]. now rewrite <- app_assoc.
Qed.

Lemma count_run_filter (l : list A) :
  filter p (fst (count_run lt l) ++ snd (count_run lt l)) = filter p l.
Proof.
  destruct l as [|a0 [|a1 t]]; cbn [count_run fst snd];
    try (now rewrite app_nil_r).
  destruct (lt a1 a0) eqn:E.
  - rewrite filter_app, <- filter_strict_run, <- filter_rev, <- filter_app.
    + now rewrite run_desc_rev.
    + apply (run_desc_sorted lt (fun _ => True)
               (fun a b => key a < key b)).
      * intros x y _ _ H. rewrite lt_key in H. now apply Z.ltb_lt.
      * intros x y z _ _ _ H1 H2. lia.
      * exact I.
      * repeat constructor.
      * now apply Forall_forall.
      * rewrite lt_key in E. apply Z.ltb_lt in E. repeat constructor.
        exact E.
  - now rewrite run_asc_app.
Qed.

Lemma count_run_weak (l : list A) :
  StronglySorted (fun a b => key a <= key b) (fst (count_run lt l)).
Proof.
  apply (count_run_sorted lt (fun _ => True) (fun a b => key a <= key b)).
  - intros x y _ _ H. rewrite lt_key in H. apply Z.ltb_lt in H. lia.
  - intros x y _ _ H. rewrite lt_key in H. apply Z.ltb_ge in H. lia.
  - intros x y z _ _ _ H1 H2. lia.
  - now apply Forall_forall.
Qed.

(** The binary search puts [x] after every key that is not larger. *)
Lemma bisect_key (x : A) (l : list A) :
  StronglySorted (fun a b => key a <= key b) l ->
  Forall (fun z => key z <= key x)
    (firstn (bisect lt (List.length l) x l 0 (List.length l)) l) /\
  Forall (fun z => key x < key z)
    (skipn (bisect lt (List.length l) x l 0 (List.length l)) l).
Proof.
  intros Hs. apply bisect_spec.
  - intros k y E Ex. rewrite (skipn_nth _ _ _ E).
    rewrite lt_key in Ex. apply Z.ltb_lt in Ex.
    constructor; [assumption|].
    pose proof (StronglySorted_after _ l Hs k y E) as Ha.
    eapply Forall_impl; [|exact Ha]. cbv beta. intros z Hz. lia.
  - intros k y E Ex. rewrite (firstn_S_nth _ _ _ E).
    rewrite lt_key in Ex. apply Z.ltb_ge in Ex.
    apply Forall_app. split; [|now repeat constructor].
    pose proof (StronglySorted_before _ l Hs k y E) as Hb.
    eapply Forall_impl; [|exact Hb]. cbv beta. intros z Hz. lia.
  - lia.
  - lia.
  - constructor.
  - rewrite skipn_all. constructor.
Qed.

Lemma binarysort_filter (rest : list A) :
  forall run,
    StronglySorted (fun a b => key a <= key b) run ->
    filter p (binarysort lt run rest) = filter p (run ++ rest).
Proof.
  unfold binarysort. induction rest as [|x rest IH]; intros run Hs.
  - now rewrite app_nil_r.
  - cbn [fold_left]. destruct (bisect_key x run Hs) as [H1 H2].
    set (k := bisect lt (List.length run) x run 0 (List.length run)) in *.
    assert (E : filter p (insert_at k x run)
                = (filter p run ++ (if p x then [x] else []))%list).
    { unfold insert_at. rewrite <- (firstn_skipn k run) at 3.
      rewrite !filter_app. cbn [filter]. destruct (p x) eqn:Px.
      - rewrite (filter_above x _ Px H2). now rewrite app_nil_r.
      - now rewrite app_nil_r. }
    rewrite IH.
    + rewrite !filter_app, E. cbn [filter]. rewrite <- app_assoc.
      now destruct (p x).
    + apply (insert_at_sorted (fun a b => key a <= key b));
        [assumption|assumption|].
      eapply Forall_impl; [|exact H2]. cbv beta. intros z Hz. lia.
Qed.

(** [sorted] is stable: the elements of a class of equal keys keep their
    order. *)
Lemma py_sorted_stable (l : list A) :
  filter p (py_sorted lt l) = filter p l.
Proof.
  unfold py_sorted. pose proof (count_run_filter l) as H.
  pose proof (count_run_weak l) as Hs.
  destruct (count_run lt l) as [run rest]. cbn [fst snd] in *.
  now rewrite binarysort_filter.
Qed.

End SortingStable.

Lemma first_seen_keys (bets : list MatchBetTuple) :
  forall agg,
    map fst (fold_left agg_step bets agg)
    = (map fst agg ++ first_seen (rev (map fst agg)) (map mb_sport bets))%list.
Proof.
  induction bets as [|b bets IH]; intros agg.
  - cbn. now rewrite app_nil_r.
  - cbn [fold_left map first_seen]. rewrite IH, agg_step_keys.
    assert (E : dict_mem String.eqb (mb_sport b) agg
                = existsb (String.eqb (mb_sport b)) (rev (map fst agg))).
    { apply eq_true_iff_eq.
      rewrite (dict_mem_in _ String.eqb_eq), existsb_exists. split.
      - intros H. exists (mb_sport b). split; [now apply in_rev in H|].
        apply String.eqb_refl.
      - intros (y & Hy & Ey). apply String.eqb_eq in Ey. subst y.
        now apply in_rev. }
    rewrite <- E. destruct (dict_mem String.eqb (mb_sport b) agg);
      [reflexivity|].
    rewrite rev_app_distr, <- app_assoc. reflexivity.
Qed.

(** X15: Sports with equally many records keep, in the selector, the order
    in which they first occur in the records: among the sports with a given
    number of records, the list of [get_sorted_sports] and the list of first
    occurrences agree. *)
Theorem get_sorted_sports_ties (bets : list MatchBetTuple) (c : Z)
    (Hvalid : Forall (fun b => valid_float (mb_odds b) = true) bets) :
  map fst (process_bets_to_cache bets) = first_seen [] (map mb_sport bets) /\
  filter (fun s => sport_count s bets =? c)
    (get_sorted_sports (process_bets_to_cache bets))
  = filter (fun s => sport_count s bets =? c)
      (first_seen [] (map mb_sport bets)).
Proof.
  pose proof (round_key_some bets Hvalid) as Hsome.
  assert (K : map fst (process_bets_to_cache bets)
              = first_seen [] (map mb_sport bets)).
  { rewrite cache_keys. unfold aggregate. now rewrite first_seen_keys. }
  split; [exact K|].
  rewrite <- K. unfold get_sorted_sports, sorted_desc.
  rewrite (filter_ext _ (fun s => count_bets (process_bets_to_cache bets) s =? c))
    by (intros s; now rewrite count_bets_records).
  rewrite (filter_ext (fun s => sport_count s bets =? c)
             (fun s => count_bets (process_bets_to_cache bets) s =? c))
    by (intros s; now rewrite count_bets_records).
  apply (py_sorted_stable _
           (fun s => - count_bets (process_bets_to_cache bets) s)).
  - intros x y. apply ltb_opp.
  - intros x y Hx Hy. apply Z.eqb_eq in Hx, Hy. lia.
Qed.

Lemma get_sorted_sports_ties_witness :
  map fst (process_bets_to_cache example_bets)
  = first_seen [] (map mb_sport example_bets) /\
  filter (fun s => sport_count s example_bets =? 1)
    (get_sorted_sports (process_bets_to_cache example_bets))
  = filter (fun s => sport_count s example_bets =? 1)
      (first_seen [] (map mb_sport example_bets)).
Proof.
  apply (get_sorted_sports_ties example_bets 1). repeat constructor.
Defined.

(** ** Whitespace of a normalised name *)

Lemma star_sp_lstrip (s : string) :
  forall b, exists b',
    rmatch (Star sp) b s (fun b0 s0 => Some (b0, s0))
    = Some (b', lstrip_with is_space s).
Proof.
  unfold sp. induction s as [|c t IH]; intros b.
  - exists b. reflexivity.
  - destruct (IH (String c b)) as [b' E].
    cbn [rmatch length] in E |- *. cbn [lstrip_with].
    destruct (is_space c) eqn:Ec.
    + exists b'.
      replace (length t <? S (length t))%nat with true
        by (symmetry; apply Nat.ltb_lt; lia).
      now rewrite E.
    + exists b. reflexivity.
Qed.

Lemma lstrip_length (p : ascii -> bool) (s : string) :
  (length (lstrip_with p s) <= length s)%nat.
Proof.
  induction s as [|c t IH]; cbn [lstrip_with]; [lia|].
  destruct (p c); cbn [length]; lia.
Qed.

Lemma spaces_re_match (bef rest : string) :
  match rest with
  | String c t =>
      if is_space c
      then exists b', rmatch spaces_re bef rest (fun b s => Some (b, s))
                      = Some (b', lstrip_with is_space t)
      else rmatch spaces_re bef rest (fun b s => Some (b, s)) = None
  | EmptyString => rmatch spaces_re bef rest (fun b s => Some (b, s)) = None
  end.
Proof.
  destruct rest as [|c t]; [reflexivity|].
  pose proof (star_sp_lstrip t (String c bef)) as S.
  unfold spaces_re, plus, sp in *. cbn [rmatch] in S |- *.
  destruct (is_space c); [exact S | reflexivity].
Qed.

Lemma single_spaced_weaken (b : bool) (s : string) :
  single_spaced b s = true -> single_spaced false s = true.
Proof.
  destruct s as [|c t]; [reflexivity|]. cbn [single_spaced].
  destruct (is_space c); [|auto].
  intros H. apply andb_prop in H as [H1 H2]. apply andb_prop in H1 as [H0 _].
  now rewrite H0, H2.
Qed.

(** Replacing every run of whitespace by one space leaves single spaces
    only. *)
Lemma sub_spaces_single (fuel : nat) :
  forall bef rest b,
    (length rest < fuel)%nat ->
    (b = true -> forall c, first_char rest = Some c -> is_space c = false) ->
    single_spaced b (sub_fuel fuel spaces_re " " bef rest) = true.
Proof.
  induction fuel as [|f IH]; intros bef rest b Hlen Hb; [lia|].
  cbn [sub_fuel]. pose proof (spaces_re_match bef rest) as M.
  destruct rest as [|c t].
  - rewrite M. reflexivity.
  - cbn [length] in Hlen. destruct (is_space c) eqn:Ec.
    + destruct M as [b' ->].
      pose proof (lstrip_length is_space t) as L.
      replace (length (lstrip_with is_space t) <? length (String c t))%nat
        with true by (symmetry; apply Nat.ltb_lt; cbn [length]; lia).
      cbn [String.append single_spaced]. change (is_space " ") with true.
      cbv iota. change (code " " =? 32) with true. cbn [andb].
      assert (Eb : b = false).
      { destruct b; [|reflexivity].
        rewrite (Hb eq_refl c eq_refl) in Ec. discriminate. }
      rewrite Eb. cbn [negb andb].
      apply IH; [lia|]. intros _ d. apply lstrip_first.
    + rewrite M. cbn [single_spaced]. rewrite Ec.
      apply IH; [lia|]. discriminate.
Qed.

Lemma single_spaced_app (u v : string) :
  forall b, single_spaced b (u ++ v) = true ->
            single_spaced b u = true /\ single_spaced false v = true.
Proof.
  induction u as [|c t IH]; intros b H.
  - split; [reflexivity|]. cbn [String.append] in H.
    now apply single_spaced_weaken in H.
  - cbn [String.append single_spaced] in H |- *.
    destruct (is_space c).
    + apply andb_prop in H as [H1 H2]. destruct (IH _ H2) as [Hu Hv].
      now rewrite H1, Hu.
    + now apply IH.
Qed.

Lemma lstrip_suffix (p : ascii -> bool) (s : string) :
  exists pre, s = pre ++ lstrip_with p s.
Proof.
  induction s as [|c t [pre IH]]; [now exists ""|].
  cbn [lstrip_with]. destruct (p c).
  - exists (String c pre). cbn [String.append]. now rewrite <- IH.
  - now exists "".
Qed.

Lemma rev_string_onto_acc (s : string) :
  forall acc, rev_string_onto s acc = rev_string s ++ acc.
Proof.
  unfold rev_string. induction s as [|c t IH]; intros acc; [reflexivity|].
  cbn [rev_string_onto]. rewrite IH, (IH (String c "")).
  rewrite append_assoc. reflexivity.
Qed.

Lemma rev_string_app (a b : string) :
  rev_string (a ++ b) = rev_string b ++ rev_string a.
Proof.
  unfold rev_string at 1. rewrite rev_string_onto_app.
  fold (rev_string a). apply rev_string_onto_acc.
Qed.

Lemma strip_with_middle (p : ascii -> bool) (s : string) :
  exists pre post, s = pre ++ strip_with p s ++ post.
Proof.
  unfold strip_with.
  destruct (lstrip_suffix p s) as [pre E1].
  destruct (lstrip_suffix p (rev_string (lstrip_with p s))) as [pre2 E2].
  exists pre, (rev_string pre2).
  rewrite <- rev_string_app, <- E2, rev_string_involutive. exact E1.
Qed.

(** X14: A normalised tournament name never begins or ends with a space or
    a hyphen; every whitespace character left in it is a single space, with
    no other whitespace next to it; and the empty name stays empty. *)
Theorem normalize_tournament_name_trimmed (name : string) :
  (forall c, first_char (normalize_tournament_name name) = Some c ->
             is_space_or_hyphen c = false) /\
  (forall c, last_char (normalize_tournament_name name) = Some c ->
             is_space_or_hyphen c = false) /\
  single_spaced false (normalize_tournament_name name) = true /\
  (name = "" -> normalize_tournament_name name = "").
Proof.
  unfold normalize_tournament_name.
  destruct (is_empty name) eqn:E.
  - repeat split; intros; try discriminate; reflexivity.
  - split; [|split; [|split]].
    + intros c. apply strip_with_ends.
    + intros c. apply strip_with_ends.
    + set (s := re_sub number_re "" _).
      destruct (strip_with_middle is_space_or_hyphen (re_sub spaces_re " " s))
        as (pre & post & Em).
      assert (H : single_spaced false (re_sub spaces_re " " s) = true).
      { unfold re_sub. apply sub_spaces_single; [lia | discriminate]. }
      rewrite Em in H.
      apply single_spaced_app in H as [_ H].
      now apply single_spaced_app in H as [H _].
    + intros ->. discriminate E.
Qed.

(** ** Order of the items of the statistics tree *)

Lemma first_seen_dict_upd {V : Type} (k : string) (dflt : V) (f : V -> V)
    (d : list (string * V)) (l : list string) :
  (map fst (dict_upd String.eqb k dflt f d)
   ++ first_seen (rev (map fst (dict_upd String.eqb k dflt f d))) l)%list
  = (map fst d ++ first_seen (rev (map fst d)) (k :: l))%list.
Proof.
  rewrite dict_upd_keys. cbn [first_seen].
  assert (E : dict_mem String.eqb k d
              = existsb (String.eqb k) (rev (map fst d))).
  { apply eq_true_iff_eq.
    rewrite (dict_mem_in _ String.eqb_eq), existsb_exists. split.
    - intros H. exists k. split; [now apply in_rev in H|].
      apply String.eqb_refl.
    - intros (y & Hy & Ey). apply String.eqb_eq in Ey. subst y.
      now apply in_rev. }
  rewrite <- E. destruct (dict_mem String.eqb k d); [reflexivity|].
  rewrite rev_app_distr, <- app_assoc. reflexivity.
Qed.

Lemma collect_sports_order (data : list MatchBetTuple) :
  forall stats,
    map fst (fold_left stats_step data stats)
    = (map fst stats
       ++ first_seen (rev (map fst stats))
            (map (fun b => sport_alias (mb_sport b)) (filter in_view data)))%list.
Proof.
  induction data as [|b data IH]; intros stats.
  - cbn. now rewrite app_nil_r.
  - cbn [fold_left filter]. rewrite IH. destruct (in_view b) eqn:E.
    + rewrite (stats_step_included _ _ E). cbn [map].
      apply first_seen_dict_upd.
    + now rewrite (stats_step_excluded _ _ E).
Qed.

Lemma tourneys_at_step (stats : StatsTree) (b : MatchBetTuple) (s : string) :
  tourneys_at (stats_step stats b) s
  = if in_view b && (sport_alias (mb_sport b) =? s)%string
    then dict_upd String.eqb (normalize_tournament_name (mb_tournament b))
           (mkCounter 0 0) (count_bet (is_win (mb_result b)))
           (tourneys_at stats s)
    else tourneys_at stats s.
Proof.
  unfold tourneys_at. destruct (in_view b) eqn:E; cbn [andb].
  - rewrite (stats_step_included _ _ E).
    destruct (String.eqb_spec (sport_alias (mb_sport b)) s) as [<-|N].
    + rewrite (dict_get_upd_same _ String.eqb_eq).
      destruct (dict_get String.eqb (sport_alias (mb_sport b)) stats);
        reflexivity.
    + rewrite (dict_get_upd_other _ String.eqb_eq) by congruence.
      reflexivity.
  - now rewrite (stats_step_excluded _ _ E).
Qed.

Lemma collect_tourneys_order (s : string) (data : list MatchBetTuple) :
  forall stats,
    map fst (tourneys_at (fold_left stats_step data stats) s)
    = (map fst (tourneys_at stats s)
       ++ first_seen (rev (map fst (tourneys_at stats s)))
            (map (fun b => normalize_tournament_name (mb_tournament b))
               (filter (fun b => in_view b
                                 && (sport_alias (mb_sport b) =? s)%string)
                  data)))%list.
Proof.
  induction data as [|b data IH]; intros stats.
  - cbn. now rewrite app_nil_r.
  - cbn [fold_left filter]. rewrite IH, tourneys_at_step.
    destruct (in_view b && (sport_alias (mb_sport b) =? s)%string);
      [|reflexivity].
    cbn [map]. apply first_seen_dict_upd.
Qed.

Lemma filter_map_comm {A B : Type} (p : B -> bool) (f : A -> B) (l : list A) :
  filter p (map f l) = map f (filter (fun a => p (f a)) l).
Proof.
  induction l as [|x l IH]; [reflexivity|].
  cbn [map filter]. rewrite IH. destruct (p (f x)); reflexivity.
Qed.

(** X16: Items of the statistics tree with equally many bets keep the order
    in which they first occur among the records the view keeps: the sports
    are held in the order of their first kept record and the tournaments of
    a sport in the order of theirs, and sorting by bet count leaves items
    with the same count in that order. *)
Theorem statistics_tree_ties (data : list MatchBetTuple) (c : Z) :
  map fst (collect_stats data)
  = first_seen []
      (map (fun b => sport_alias (mb_sport b)) (filter in_view data)) /\
  (forall s,
     map fst (tourneys_at (collect_stats data) s)
     = first_seen []
         (map (fun b => normalize_tournament_name (mb_tournament b))
            (filter (fun b => in_view b
                              && (sport_alias (mb_sport b) =? s)%string)
               data))) /\
  filter (fun n => node_total (fst n) =? c) (statistics_tree data)
  = map sport_item
      (filter (fun st => c_total (sport_total (snd st)) =? c)
         (collect_stats data)) /\
  (forall st,
     filter (fun n => node_total n =? c) (snd (sport_item st))
     = map (fun t => node_of (fst t) (snd t))
         (filter (fun t => c_total (snd t) =? c) (snd st))).
Proof.
  split; [|split; [|split]].
  - unfold collect_stats. now rewrite collect_sports_order.
  - intros s. unfold collect_stats. now rewrite collect_tourneys_order.
  - change (statistics_tree data)
      with (map sport_item
              (sorted_desc (fun st => c_total (sport_total (snd st)))
                 (collect_stats data))).
    rewrite filter_map_comm. f_equal. unfold sorted_desc.
    apply (py_sorted_stable _
             (fun st => - c_total (sport_total (snd st)))
             (fun st => c_total (sport_total (snd st)) =? c)).
    + intros x y. apply ltb_opp.
    + intros x y Hx Hy. apply Z.eqb_eq in Hx, Hy. lia.
  - intros st. unfold sport_item. cbn [snd].
    rewrite filter_map_comm. f_equal. unfold sorted_desc.
    apply (py_sorted_stable _ (fun t => - c_total (snd t))
             (fun t => c_total (snd t) =? c)).
    + intros x y. apply ltb_opp.
    + intros x y Hx Hy. apply Z.eqb_eq in Hx, Hy. lia.
Qed.

(** ** Statistics view: groups, alias and tree *)

Lemma stats_keys_not_alias_source (data : list MatchBetTuple) :
  forall stats,
    Forall (fun st => fst st <> "CStwo") stats ->
    Forall (fun st => fst st <> "CStwo") (fold_left stats_step data stats).
Proof.
  induction data as [|b data IH]; intros stats H; [exact H|].
  cbn [fold_left]. apply IH. destruct (in_view b) eqn:V.
  - rewrite (stats_step_included _ _ V).
    apply (dict_upd_keys_forall _ (fun k => k <> "CStwo")); [|exact H].
    unfold sport_alias.
    destruct (String.eqb_spec (mb_sport b) "CStwo"); [discriminate|assumption].
  - now rewrite (stats_step_excluded _ _ V).
Qed.

Lemma count_if_ext {A : Type} (p q : A -> bool) (l : list A) :
  (forall x, p x = q x) -> count_if p l = count_if q l.
Proof. intros H. unfold count_if. now rewrite (filter_ext _ _ H). Qed.

(** C9: in the statistics view, a record with an empty sport, an empty
    tournament or an empty normalised tournament changes no counter; any
    other record adds 1 to the total of one counter, the one of its sport,
    read as "CS2" when it is "CStwo", and its normalised tournament, and
    adds 1 to the wins of that counter exactly when its lower-cased result
    is "win", so that every counter holds the number of records of its
    group and the number of wins among them; the records of "CS2" and of
    "CStwo" are counted together under "CS2" and nothing is counted or shown
    under "CStwo"; the tree shows exactly these counters, a sport with the
    sum of its tournaments, the sports in descending order of their bet
    count and the tournaments of each sport in descending order of
    theirs. *)
Theorem C9_statistics_view (data : list MatchBetTuple) :
  (forall stats b,
     mb_sport b = "" \/ mb_tournament b = "" \/
     normalize_tournament_name (mb_tournament b) = "" ->
     stats_step stats b = stats) /\
  (forall stats b s t,
     counter_at (stats_step stats b) s t
     = if in_group s t b
       then mkCounter
              (c_wins (counter_at stats s t)
               + (if (lower (mb_result b) =? "win")%string then 1 else 0))
              (c_total (counter_at stats s t) + 1)
       else counter_at stats s t) /\
  (forall s t,
     c_total (counter_at (collect_stats data) s t)
     = count_if (in_group s t) data /\
     c_wins (counter_at (collect_stats data) s t)
     = count_if (fun b => in_group s t b
                          && (lower (mb_result b) =? "win")%string) data) /\
  (forall t,
     c_total (counter_at (collect_stats data) "CS2" t)
     = count_if
         (fun b => ((mb_sport b =? "CS2") || (mb_sport b =? "CStwo"))%string
                   && negb (mb_tournament b =? "")%string
                   && negb (t =? "")%string
                   && (normalize_tournament_name (mb_tournament b) =? t)%string)
         data) /\
  (forall t, counter_at (collect_stats data) "CStwo" t = mkCounter 0 0) /\
  (forall sn children,
     In (sn, children) (statistics_tree data) -> node_name sn <> "CStwo") /\
  (forall sn children,
     In (sn, children) (statistics_tree data) ->
     node_total sn = sum_Z (map node_total children) /\
     forall t n w, In (t, n, w) children ->
       counter_at (collect_stats data) (node_name sn) t = mkCounter w n) /\
  (forall s t,
     0 < c_total (counter_at (collect_stats data) s t) ->
     exists sn children,
       In (sn, children) (statistics_tree data) /\ node_name sn = s /\
       In (node_of t (counter_at (collect_stats data) s t)) children) /\
  StronglySorted (fun a b => node_total (fst b) <= node_total (fst a))
    (statistics_tree data) /\
  (forall sn children,
     In (sn, children) (statistics_tree data) ->
     StronglySorted (fun a b => node_total b <= node_total a) children).
Proof.
  pose proof (collect_stats_wf data) as Hwf.
  assert (Hcount : forall s t,
             c_total (counter_at (collect_stats data) s t)
             = count_if (in_group s t) data /\
             c_wins (counter_at (collect_stats data) s t)
             = count_if (fun b => in_group s t b
                                  && (lower (mb_result b) =? "win")%string)
                 data).
  { intros s t. unfold collect_stats.
    destruct (counter_at_fold s t data []) as [Ht Hw].
    rewrite Ht, Hw. unfold counter_at. simpl. lia. }
  split.
  { intros stats b H. apply stats_step_excluded. unfold in_view.
    rewrite !is_empty_eqb.
    destruct H as [-> | [-> | ->]]; cbn [String.eqb negb andb];
      rewrite ?andb_false_r; reflexivity. }
  split; [exact counter_at_step|].
  split; [exact Hcount|].
  split.
  { intros t. rewrite (proj1 (Hcount "CS2" t)). apply count_if_ext.
    intros b. unfold in_group.
    destruct (String.eqb_spec (normalize_tournament_name (mb_tournament b)) t)
      as [<-|N];
      destruct (String.eqb_spec (mb_sport b) "CStwo") as [E|E];
      [rewrite E | | rewrite E |];
      try (destruct (String.eqb_spec (mb_sport b) "CS2") as [E2|E2];
           [rewrite E2|]);
      change ("CStwo" =? "")%string with false;
      change ("CS2" =? "")%string with false;
      change ("CS2" =? "CS2")%string with true;
      change ("CStwo" =? "CS2")%string with false;
      cbn [negb andb orb];
      repeat match goal with
             | |- context [String.eqb ?a ?b] => destruct (String.eqb a b)
             end; reflexivity. }
  split.
  { intros t. destruct (Hcount "CStwo" t) as [Ht Hw].
    assert (Z0 : forall b, in_group "CStwo" t b = false).
    { intros b. unfold in_group.
      destruct (String.eqb_spec (mb_sport b) "CStwo") as [E|E].
      - cbn [String.eqb Ascii.eqb Bool.eqb]. now rewrite andb_false_r.
      - apply String.eqb_neq in E. rewrite E. now rewrite andb_false_r. }
    rewrite (count_if_none _ _ (fun b _ => Z0 b)) in Ht.
    rewrite (count_if_none (fun b => in_group "CStwo" t b
                                     && (lower (mb_result b) =? "win")%string))
      in Hw by (intros b _; now rewrite Z0).
    destruct (counter_at (collect_stats data) "CStwo" t) as [w n].
    cbn [c_total c_wins] in Ht, Hw. now subst. }
  split.
  { intros sn children H.
    apply tree_entry in H as (s & tm & Hin & -> & _).
    pose proof (stats_keys_not_alias_source data [] (Forall_nil _)) as K.
    fold (collect_stats data) in K. rewrite Forall_forall in K.
    exact (K _ Hin). }
  split.
  { intros sn children H.
    apply tree_entry in H as (s & tm & Hin & -> & ->). split.
    - rewrite children_totals. reflexivity.
    - intros t n w Ht.
      apply in_map_iff in Ht as ([t' c] & E & Hc).
      injection E as <- <- <-. unfold node_name, node_of. cbn [fst].
      apply (Permutation_in _ (py_sorted_perm _ tm)) in Hc.
      rewrite (counter_at_in _ _ _ _ _ Hwf Hin Hc). now destruct c. }
  split.
  { intros s t Hpos. unfold counter_at in *.
    destruct (dict_get String.eqb s (collect_stats data)) as [tm|] eqn:Es;
      [|simpl in Hpos; lia].
    destruct (dict_get String.eqb t tm) as [c|] eqn:Et; [|simpl in Hpos; lia].
    apply (dict_get_in _ String.eqb_eq) in Es, Et.
    exists (node_of s (sport_total tm)),
      (map (fun t => node_of (fst t) (snd t))
         (sorted_desc (fun t => c_total (snd t)) tm)).
    repeat split.
    - unfold statistics_tree.
      apply in_map_iff. exists (s, tm). split; [reflexivity|].
      eapply Permutation_in; [symmetry; apply py_sorted_perm | exact Es].
    - apply in_map_iff. exists (t, c). split; [reflexivity|].
      eapply Permutation_in; [symmetry; apply py_sorted_perm | exact Et]. }
  split.
  { unfold statistics_tree.
    apply StronglySorted_map. simpl. apply sorted_desc_sorted. }
  intros sn children H.
  apply tree_entry in H as (s & tm & Hin & -> & ->).
  apply StronglySorted_map. simpl. apply sorted_desc_sorted.
Qed.

(** ** Two-decimal rendering of the table and of the comparison *)

Lemma format_f_2_shows (x : float) :
  is_finite x = true -> shows_two_decimals x (format_f 2 x).
Proof.
  intros F. split; [now apply format_f_2_shape | apply py_float_format_2].
Qed.

Lemma notes_text (odds_a odds_b : float) (count_a count_b : option Z)
    (txt : string) :
  match (only_one_note odds_a count_a ++ only_one_note odds_b count_b)%list with
  | [] => txt
  | _ :: _ =>
      txt ++ nl ++ nl
      ++ String.concat " "
           (only_one_note odds_a count_a ++ only_one_note odds_b count_b)%list
  end
  = txt ++ shown_notes (format_f 2 odds_a) (format_f 2 odds_b) count_a count_b.
Proof.
  assert (N : forall odds c,
             only_one_note odds c
             = if is_one c
               then ["Note: Odds " ++ format_f 2 odds ++ " has only 1 count."]
               else []).
  { intros odds [[|[p|p|]|p]|]; reflexivity. }
  rewrite !N. unfold shown_notes.
  destruct (is_one count_a), (is_one count_b);
    cbn [app String.concat]; rewrite ?append_nil_r, ?append_assoc;
    reflexivity.
Qed.

Lemma render_compare_both (odds_a odds_b wa wb ea eb : float)
    (sport bet_type : string) (count_a count_b : option Z) :
  render_compare odds_a odds_b (Some wa) (Some wb) (Some ea) (Some eb)
    sport bet_type count_a count_b
  = Some (match compare_scores wa odds_a wb odds_b with
          | BetterA => "Bet " ++ format_f 2 odds_a ++ " is better"
          | BetterB => "Bet " ++ format_f 2 odds_b ++ " is better"
          | BothEqual => "Both bets are equal"
          end
          ++ " (" ++ bet_type ++ " - " ++ sport ++ ")" ++ nl ++ nl
          ++ side_line (format_f 2 odds_a) (format_f 2 (fmul ea f_hundred))
               (format_f 2 (fmul wa f_hundred)) (shown_count count_a)
          ++ nl
          ++ side_line (format_f 2 odds_b) (format_f 2 (fmul eb f_hundred))
               (format_f 2 (fmul wb f_hundred)) (shown_count count_b)
          ++ shown_notes (format_f 2 odds_a) (format_f 2 odds_b)
               count_a count_b).
Proof.
  unfold render_compare. rewrite notes_text.
  unfold bet_line, percent.
  change (count_text count_a) with (shown_count count_a).
  change (count_text count_b) with (shown_count count_b).
  generalize (shown_notes (format_f 2 odds_a) (format_f 2 odds_b)
                count_a count_b).
  generalize (match compare_scores wa odds_a wb odds_b with
              | BetterA => "Bet " ++ format_f 2 odds_a ++ " is better"
              | BetterB => "Bet " ++ format_f 2 odds_b ++ " is better"
              | BothEqual => "Both bets are equal"
              end).
  generalize (shown_count count_a), (shown_count count_b).
  generalize (format_f 2 (fmul ea f_hundred)), (format_f 2 (fmul wa f_hundred)),
    (format_f 2 (fmul eb f_hundred)), (format_f 2 (fmul wb f_hundred)),
    (format_f 2 odds_a), (format_f 2 odds_b).
  intros e_a w_a e_b w_b o_a o_b c_a c_b verdict notes. f_equal.
  unfold side_line. rewrite !append_assoc. reflexivity.
Qed.

Lemma render_compare_one (odds_a odds_b w e : float)
    (sport bet_type : string) (count_a count_b : option Z) :
  render_compare odds_a odds_b (Some w) None (Some e) None
    sport bet_type count_a count_b
  = Some ("Odds " ++ format_f 2 odds_b ++ " is missing "
          ++ shown_type bet_type ++ " WR." ++ nl ++ nl
          ++ side_line (format_f 2 odds_a) (format_f 2 (fmul e f_hundred))
               (format_f 2 (fmul w f_hundred)) (shown_count count_a)) /\
  render_compare odds_b odds_a None (Some w) None (Some e)
    sport bet_type count_b count_a
  = Some ("Odds " ++ format_f 2 odds_b ++ " is missing "
          ++ shown_type bet_type ++ " WR." ++ nl ++ nl
          ++ side_line (format_f 2 odds_a) (format_f 2 (fmul e f_hundred))
               (format_f 2 (fmul w f_hundred)) (shown_count count_a)).
Proof.
  unfold render_compare, bet_line, percent.
  change (count_text count_a) with (shown_count count_a).
  fold (shown_type bet_type).
  generalize (shown_count count_a), (shown_type bet_type).
  generalize (format_f 2 (fmul e f_hundred)), (format_f 2 (fmul w f_hundred)),
    (format_f 2 odds_a), (format_f 2 odds_b).
  intros e_a w_a o_a o_b c_a ty.
  unfold side_line. rewrite !append_assoc. split; reflexivity.
Qed.

(** C8, amended: whenever the numbers to print are finite, the table and the
    comparison text show every odds value, every win-rate percentage and
    every EV percentage with two decimal places: a minus sign when the sign
    of the number is negative and no sign character otherwise (never a plus
    sign), the digits of the whole part, a period and two digits, which
    read as a number give the value rounded to two decimals.  The texts are
    those of [fmt_ev] and [fmt_wr], of the cells of a table row, and of
    [render_compare] in each of its cases: both win-rates present, one of
    them absent, both absent. *)
Theorem C8_two_decimal_rendering (wr_a odds_a wr_b odds_b : float)
    (sport bet_type : string) (count_a count_b : option Z)
    (Hodds_a : is_finite odds_a = true)
    (Hwr_a : is_finite (fmul wr_a f_hundred) = true)
    (Hev_a : is_finite (fmul (ev_of wr_a odds_a) f_hundred) = true)
    (Hodds_b : is_finite odds_b = true)
    (Hwr_b : is_finite (fmul wr_b f_hundred) = true)
    (Hev_b : is_finite (fmul (ev_of wr_b odds_b) f_hundred) = true) :
  exists o_a e_a w_a o_b e_b w_b : string,
    shows_two_decimals odds_a o_a /\
    shows_two_decimals (fmul (ev_of wr_a odds_a) f_hundred) e_a /\
    shows_two_decimals (fmul wr_a f_hundred) w_a /\
    shows_two_decimals odds_b o_b /\
    shows_two_decimals (fmul (ev_of wr_b odds_b) f_hundred) e_b /\
    shows_two_decimals (fmul wr_b f_hundred) w_b /\
    fmt_ev (Some wr_a) (Some odds_a)
    = (e_a ++ "%", Some (ev_of wr_a odds_a)) /\
    prefix "+" (e_a ++ "%") = false /\
    fmt_wr (Some wr_a) = w_a ++ "%" /\
    (forall bt prem_wr live_n prem_n,
       let row := table_row bt (odds_a, (Some wr_a, prem_wr, live_n, prem_n)) in
       item_text (it_odds row) = o_a /\
       item_text (it_live row) = w_a ++ "%" /\
       (bt = "Live" -> item_text (it_ev row) = e_a ++ "%")) /\
    (forall bt live_wr live_n prem_n,
       let row := table_row bt (odds_a, (live_wr, Some wr_a, live_n, prem_n)) in
       item_text (it_odds row) = o_a /\
       item_text (it_prem row) = w_a ++ "%" /\
       (bt <> "Live" -> item_text (it_ev row) = e_a ++ "%")) /\
    (exists verdict,
       render_compare odds_a odds_b (Some wr_a) (Some wr_b)
         (Some (ev_of wr_a odds_a)) (Some (ev_of wr_b odds_b))
         sport bet_type count_a count_b
       = Some (verdict ++ " (" ++ bet_type ++ " - " ++ sport ++ ")" ++ nl ++ nl
               ++ side_line o_a e_a w_a (shown_count count_a) ++ nl
               ++ side_line o_b e_b w_b (shown_count count_b)
               ++ shown_notes o_a o_b count_a count_b) /\
       (verdict = "Bet " ++ o_a ++ " is better" \/
        verdict = "Bet " ++ o_b ++ " is better" \/
        verdict = "Both bets are equal")) /\
    render_compare odds_a odds_b (Some wr_a) None
      (Some (ev_of wr_a odds_a)) None sport bet_type count_a count_b
    = Some ("Odds " ++ o_b ++ " is missing " ++ shown_type bet_type ++ " WR."
            ++ nl ++ nl ++ side_line o_a e_a w_a (shown_count count_a)) /\
    render_compare odds_a odds_b None (Some wr_b)
      None (Some (ev_of wr_b odds_b)) sport bet_type count_a count_b
    = Some ("Odds " ++ o_a ++ " is missing " ++ shown_type bet_type ++ " WR."
            ++ nl ++ nl ++ side_line o_b e_b w_b (shown_count count_b)) /\
    render_compare odds_a odds_b None None None None
      sport bet_type count_a count_b
    = Some ("Both odds are missing " ++ shown_type bet_type ++ " WR data: "
            ++ o_a ++ " and " ++ o_b ++ ".").
Proof.
  exists (format_f 2 odds_a), (format_f 2 (fmul (ev_of wr_a odds_a) f_hundred)),
    (format_f 2 (fmul wr_a f_hundred)),
    (format_f 2 odds_b), (format_f 2 (fmul (ev_of wr_b odds_b) f_hundred)),
    (format_f 2 (fmul wr_b f_hundred)).
  pose proof (format_f_2_shows _ Hev_a) as Sea.
  do 6 (split; [apply format_f_2_shows; assumption|]).
  split; [reflexivity|].
  split; [exact (two_decimals_no_plus _ _ "%" (proj1 Sea))|].
  split; [reflexivity|].
  split.
  { intros bt prem_wr live_n prem_n row. unfold row, table_row.
    destruct (String.eqb_spec bt "Live") as [->|N].
    - cbn [fmt_ev fmt_wr item_text it_odds it_live it_ev].
      split; [reflexivity|]. split; [reflexivity|]. intros _. reflexivity.
    - destruct prem_wr;
        cbn [fmt_ev fmt_wr item_text it_odds it_live it_ev];
        (split; [reflexivity|]); (split; [reflexivity|]);
        intros E; contradiction. }
  split.
  { intros bt live_wr live_n prem_n row. unfold row, table_row.
    destruct (String.eqb_spec bt "Live") as [->|N].
    - destruct live_wr;
        cbn [fmt_ev fmt_wr item_text it_odds it_prem it_ev];
        (split; [reflexivity|]); (split; [reflexivity|]);
        intros E; now contradiction E.
    - cbn [fmt_ev fmt_wr item_text it_odds it_prem it_ev].
      split; [reflexivity|]. split; [reflexivity|]. intros _. reflexivity. }
  split; [|split; [|split]].
  - eexists. split; [apply render_compare_both|].
    destruct (compare_scores wr_a odds_a wr_b odds_b); auto.
  - apply render_compare_one.
  - apply (render_compare_one odds_b odds_a).
  - reflexivity.
Qed.

Lemma C8_two_decimal_rendering_witness :
  exists o_a e_a w_a o_b e_b w_b : string,
    shows_two_decimals f_2_5 o_a /\
    shows_two_decimals (fmul (ev_of f_half f_2_5) f_hundred) e_a /\
    shows_two_decimals (fmul f_half f_hundred) w_a /\
    shows_two_decimals f_two o_b /\
    shows_two_decimals (fmul (ev_of f_half f_two) f_hundred) e_b /\
    shows_two_decimals (fmul f_half f_hundred) w_b /\
    fmt_ev (Some f_half) (Some f_2_5)
    = (e_a ++ "%", Some (ev_of f_half f_2_5)) /\
    prefix "+" (e_a ++ "%") = false /\
    fmt_wr (Some f_half) = w_a ++ "%" /\
    (forall bt prem_wr live_n prem_n,
       let row := table_row bt (f_2_5, (Some f_half, prem_wr, live_n, prem_n)) in
       item_text (it_odds row) = o_a /\
       item_text (it_live row) = w_a ++ "%" /\
       (bt = "Live" -> item_text (it_ev row) = e_a ++ "%")) /\
    (forall bt live_wr live_n prem_n,
       let row := table_row bt (f_2_5, (live_wr, Some f_half, live_n, prem_n)) in
       item_text (it_odds row) = o_a /\
       item_text (it_prem row) = w_a ++ "%" /\
       (bt <> "Live" -> item_text (it_ev row) = e_a ++ "%")) /\
    (exists verdict,
       render_compare f_2_5 f_two (Some f_half) (Some f_half)
         (Some (ev_of f_half f_2_5)) (Some (ev_of f_half f_two))
         "CS2" "Live" (Some 1) (Some 3)
       = Some (verdict ++ " (" ++ "Live" ++ " - " ++ "CS2" ++ ")" ++ nl ++ nl
               ++ side_line o_a e_a w_a (shown_count (Some 1)) ++ nl
               ++ side_line o_b e_b w_b (shown_count (Some 3))
               ++ shown_notes o_a o_b (Some 1) (Some 3)) /\
       (verdict = "Bet " ++ o_a ++ " is better" \/
        verdict = "Bet " ++ o_b ++ " is better" \/
        verdict = "Both bets are equal")) /\
    render_compare f_2_5 f_two (Some f_half) None
      (Some (ev_of f_half f_2_5)) None "CS2" "Live" (Some 1) (Some 3)
    = Some ("Odds " ++ o_b ++ " is missing " ++ shown_type "Live" ++ " WR."
            ++ nl ++ nl ++ side_line o_a e_a w_a (shown_count (Some 1))) /\
    render_compare f_2_5 f_two None (Some f_half)
      None (Some (ev_of f_half f_two)) "CS2" "Live" (Some 1) (Some 3)
    = Some ("Odds " ++ o_a ++ " is missing " ++ shown_type "Live" ++ " WR."
            ++ nl ++ nl ++ side_line o_b e_b w_b (shown_count (Some 3))) /\
    render_compare f_2_5 f_two None None None None
      "CS2" "Live" (Some 1) (Some 3)
    = Some ("Both odds are missing " ++ shown_type "Live" ++ " WR data: "
            ++ o_a ++ " and " ++ o_b ++ ".").
Proof.
  apply (C8_two_decimal_rendering f_half f_2_5 f_half f_two "CS2" "Live"
           (Some 1) (Some 3));
    vm_compute; reflexivity.
Defined.

(** ** Colours of the table rows *)




